(** * clichat: the interactive command console

    A shallow embedding of [src/index.ts] and [src/cli_chat.ts]: the
    tokenizer [commandLineParser], the command dispatcher
    [CLI.processCommand], the directory search [CLI.search], the reply
    target resolver [respond], [sendMessage] and the line listener of
    [CLI.setupListeners].

    Strings.  A JavaScript string is a sequence of 16-bit code units.  The
    development represents the strings whose code units are all below 256
    by the Rocq [string] made of those code units; every character the
    program itself inspects (space, quotes, [-], [=], [/], the regex
    metacharacters, U+0002) is in that range. *)

From Stdlib Require Import String Ascii List Bool Arith Lia.
Import ListNotations.
Open Scope string_scope.
Open Scope nat_scope.

(** The double quote character, code unit 34. *)
Definition dquote : ascii := ascii_of_nat 34.

(** ** The regular expression engine

    [commandLineParser] is one regular expression driven by
    [String.prototype.matchAll].  The engine below is the backtracking
    matcher of ECMA-262 (section "RegExp Pattern Semantics"): a matcher
    takes a match state and a continuation and returns the first state,
    in priority order, that the continuation accepts. *)

Module RegExpEngine.

(** The abstract syntax of the patterns the program uses. *)
Inductive Regex : Type :=
| Empty
| CharSet (negated : bool) (cs : list ascii)
| Seq (a b : Regex)
| Disj (a b : Regex)
| Quant (min : nat) (max : option nat) (greedy : bool) (a : Regex)
| Group (n : nat) (a : Regex)
| BackRef (n : nat).

(** A literal character. *)
Definition Chr (c : ascii) : Regex := CharSet false [c].

(** A match state: the end index reached so far and the captures, the
    capture of group [n] at position [n] of the list as a pair of start
    and end index. *)
Record MatchState : Type := mkState {
  endIndex : nat;
  captures : list (option (nat * nat))
}.

Definition Continuation : Type := MatchState -> option MatchState.

Fixpoint setNth {A} (n : nat) (v : A) (dflt : A) (l : list A) : list A :=
  match n, l with
  | O, [] => [v]
  | O, _ :: t => v :: t
  | S n', [] => dflt :: setNth n' v dflt []
  | S n', h :: t => h :: setNth n' v dflt t
  end.

Definition getCapture (n : nat) (x : MatchState) : option (nat * nat) :=
  nth n (captures x) None.

Definition setCapture (n : nat) (v : option (nat * nat)) (x : MatchState)
  : MatchState :=
  mkState (endIndex x) (setNth n v None (captures x)).

Definition clearCaptures (ns : list nat) (x : MatchState) : MatchState :=
  fold_left (fun y n => setCapture n None y) ns x.

(** The capture groups inside a pattern (cleared at every iteration of
    a quantifier, step 4 of RepeatMatcher). *)
Fixpoint groups (r : Regex) : list nat :=
  match r with
  | Empty | CharSet _ _ | BackRef _ => []
  | Seq a b | Disj a b => groups a ++ groups b
  | Quant _ _ _ a => groups a
  | Group n a => n :: groups a
  end.

(** Canonicalize (ECMA-262, no [u] flag) on code units below 256: with
    [ignoreCase] a code unit is compared through its upper case.  The
    letters a-z and the letters U+00E0-U+00FE other than the division
    sign have their upper case 32 below; the sharp s has none of length
    one; the upper cases of the micro sign and of y with diaeresis lie
    above 255 and are the image of no other code unit below 256, so they
    compare like the code unit itself. *)
Definition toUpperCase (c : ascii) : ascii :=
  let n := nat_of_ascii c in
  if (97 <=? n) && (n <=? 122) then ascii_of_nat (n - 32)
  else if (224 <=? n) && (n <=? 254) && negb (n =? 247)
       then ascii_of_nat (n - 32)
       else c.

Definition canonicalize (ignoreCase : bool) (c : ascii) : ascii :=
  if ignoreCase then toUpperCase c else c.

(** CharacterSetMatcher: some member of the set has the canonical form
    of the input character. *)
Definition inSet (ic : bool) (c : ascii) (cs : list ascii) : bool :=
  existsb (fun a => Ascii.eqb (canonicalize ic a) (canonicalize ic c)) cs.

Fixpoint canonicalizeString (ic : bool) (s : string) : string :=
  match s with
  | EmptyString => EmptyString
  | String c t => String (canonicalize ic c) (canonicalizeString ic t)
  end.

Definition maxIsZero (max : option nat) : bool :=
  match max with Some O => true | _ => false end.

(** A matcher takes a state and a continuation. *)
Definition Matcher : Type :=
  MatchState -> Continuation -> option MatchState.

(** RepeatMatcher: [m] is the matcher of the quantified atom and [clear]
    resets the captures inside it.  The recursion is on [fuel]; an
    iteration either is one of the [min] required ones or must advance
    the end index, so [min] plus the length of the input left, plus
    one, is enough ([repeatMatcher_fuel] below). *)
Fixpoint repeatMatcher (m : Matcher) (clear : MatchState -> MatchState)
         (greedy : bool) (fuel min : nat) (max : option nat)
         (x : MatchState) (c : Continuation) {struct fuel}
  : option MatchState :=
  match fuel with
  | O => None
  | S fuel' =>
      if maxIsZero max then c x
      else
        let d := fun y : MatchState =>
          if (min =? 0) && (endIndex y =? endIndex x) then None
          else repeatMatcher m clear greedy fuel' (pred min)
                             (option_map pred max) y c in
        let xr := clear x in
        if negb (min =? 0) then m xr d
        else if greedy then
          match m xr d with
          | Some z => Some z
          | None => c x
          end
        else
          match c x with
          | Some z => Some z
          | None => m xr d
          end
  end.

(** [matcher ic input r x c]: match [r] in [input] from state [x], then
    continue with [c]; [ic] is the [i] flag. *)
Fixpoint matcher (ic : bool) (input : string) (r : Regex) (x : MatchState)
         (c : Continuation) {struct r} : option MatchState :=
  match r with
  | Empty => c x
  | CharSet neg cs =>
      match String.get (endIndex x) input with
      | None => None
      | Some ch =>
          if xorb neg (inSet ic ch cs)
          then c (mkState (S (endIndex x)) (captures x))
          else None
      end
  | Seq a b => matcher ic input a x (fun y => matcher ic input b y c)
  | Disj a b =>
      match matcher ic input a x c with
      | Some z => Some z
      | None => matcher ic input b x c
      end
  | Group n a =>
      matcher ic input a x
        (fun y => c (setCapture n (Some (endIndex x, endIndex y)) y))
  | BackRef n =>
      match getCapture n x with
      | None => c x
      | Some (s, e) =>
          let len := e - s in
          if (endIndex x + len <=? String.length input)
             && String.eqb
                  (canonicalizeString ic (substring s len input))
                  (canonicalizeString ic
                     (substring (endIndex x) len input))
          then c (mkState (endIndex x + len) (captures x))
          else None
      end
  | Quant min max greedy a =>
      repeatMatcher (matcher ic input a) (clearCaptures (groups a)) greedy
                    (min + String.length input + 2) min max x c
  end.

(** One successful match: the whole match [match[0]] and the numbered
    groups, [None] for a group that did not take part ([undefined]). *)
Record MatchResult : Type := mkResult {
  matchIndex : nat;
  matchEnd : nat;
  matchCaptures : list (option (nat * nat));
  matchInput : string
}.

(** [match[n]] for [n >= 1], and [match[0]]. *)
Definition group (n : nat) (m : MatchResult) : option string :=
  match nth n (matchCaptures m) None with
  | None => None
  | Some (s, e) => Some (substring s (e - s) (matchInput m))
  end.

Definition whole (m : MatchResult) : string :=
  substring (matchIndex m) (matchEnd m - matchIndex m) (matchInput m).

Definition matchAt (ic : bool) (input : string) (r : Regex) (i : nat)
  : option MatchState :=
  matcher ic input r (mkState i []) (fun y => Some y).

(** RegExpBuiltinExec for a global, non-sticky pattern: try every start
    index from [lastIndex] on; fail past the end of the input. *)
Fixpoint execFrom (fuel : nat) (ic : bool) (input : string) (r : Regex)
         (lastIndex : nat) : option MatchResult :=
  match fuel with
  | O => None
  | S fuel' =>
      if String.length input <? lastIndex then None
      else
        match matchAt ic input r lastIndex with
        | Some y =>
            Some (mkResult lastIndex (endIndex y) (captures y) input)
        | None => execFrom fuel' ic input r (S lastIndex)
        end
  end.

Definition exec (ic : bool) (input : string) (r : Regex) (lastIndex : nat)
  : option MatchResult :=
  execFrom (String.length input + 2 - lastIndex) ic input r lastIndex.

(** [RegExp.prototype.test] of a pattern without the [g] and [y] flags:
    is there a match starting anywhere in the input. *)
Definition test (ic : bool) (r : Regex) (input : string) : bool :=
  match exec ic input r 0 with
  | Some _ => true
  | None => false
  end.

(** SyntaxCharacter of the pattern grammar: one of
    [^ $ \ . * + ? ( ) [ ] { } |]. *)
Definition isSyntaxCharacter (c : ascii) : bool :=
  existsb (Ascii.eqb c)
    ["^"; "$"; "\"; "."; "*"; "+"; "?"; "("; ")"; "["; "]"; "{"; "}";
     "|"]%char.

(** The pattern grammar on the texts made of pattern characters (any
    character that is not a syntax character stands for itself) and
    identity escapes of syntax characters (a backslash before a syntax
    character stands for that character).  Such a text always parses;
    [None] is a text outside this fragment. *)
Fixpoint parseLiteral (src : string) : option Regex :=
  match src with
  | EmptyString => Some Empty
  | String "\" (String c t) =>
      if isSyntaxCharacter c
      then option_map (Seq (Chr c)) (parseLiteral t)
      else None
  | String c t =>
      if isSyntaxCharacter c then None
      else option_map (Seq (Chr c)) (parseLiteral t)
  end.

(** The iterator of [matchAll] (the pattern has the [g] flag and not the
    [i] flag): after an empty match [lastIndex] is advanced by one code
    unit (AdvanceStringIndex, no [u] flag). *)
Fixpoint matchAllFrom (fuel : nat) (input : string) (r : Regex)
         (lastIndex : nat) : list MatchResult :=
  match fuel with
  | O => []
  | S fuel' =>
      match exec false input r lastIndex with
      | None => []
      | Some m =>
          let next :=
            if matchEnd m =? matchIndex m then S (matchEnd m)
            else matchEnd m in
          m :: matchAllFrom fuel' input r next
      end
  end.

Definition matchAll (input : string) (r : Regex) : list MatchResult :=
  matchAllFrom (String.length input + 2) input r 0.

End RegExpEngine.

(** ** Tokens *)

(** [interface Arg { flag: string | undefined; value: string | undefined }] *)
Record Arg : Type := mkArg {
  flag : option string;
  value : option string
}.

(** JavaScript truthiness of a [string | undefined] (or [string | null]). *)
Definition truthy (s : option string) : bool :=
  match s with
  | None => false
  | Some s => negb (String.eqb s EmptyString)
  end.

(** [s || d] on a [string | undefined]. *)
Definition orElse (s : option string) (d : string) : string :=
  if truthy s then match s with Some v => v | None => d end else d.

(** ** String primitives of the host language *)

Module JsString.

(** WhiteSpace and LineTerminator code units below 256: TAB, LF, VT, FF,
    CR, SP and NBSP. *)
Definition isWhiteSpace (c : ascii) : bool :=
  let n := nat_of_ascii c in
  ((9 <=? n) && (n <=? 13)) || (n =? 32) || (n =? 160).

Fixpoint trimStart (s : string) : string :=
  match s with
  | EmptyString => EmptyString
  | String c t => if isWhiteSpace c then trimStart t else s
  end.

(** [trimEnd]: the string without its trailing white space. *)
Fixpoint trimEnd (s : string) : string :=
  match s with
  | EmptyString => EmptyString
  | String c t =>
      match trimEnd t with
      | EmptyString => if isWhiteSpace c then EmptyString
                       else String c EmptyString
      | t' => String c t'
      end
  end.

(** [String.prototype.trim] *)
Definition trim (s : string) : string := trimEnd (trimStart s).

(** [s.startsWith(c)] and [s.endsWith(c)] for a one-character [c]. *)
Definition startsWith (c : ascii) (s : string) : bool :=
  match s with
  | String c' _ => Ascii.eqb c' c
  | EmptyString => false
  end.

Fixpoint endsWith (c : ascii) (s : string) : bool :=
  match s with
  | EmptyString => false
  | String c' EmptyString => Ascii.eqb c' c
  | String _ t => endsWith c t
  end.

(** [s.slice(1, -1)] *)
Definition slice1m1 (s : string) : string :=
  substring 1 (String.length s - 2) s.

(** [s.substring(0, n)] *)
Definition substring0 (n : nat) (s : string) : string := substring 0 n s.

(** [parts.join(sep)] *)
Fixpoint join (sep : string) (parts : list string) : string :=
  match parts with
  | [] => EmptyString
  | [p] => p
  | p :: rest => p ++ sep ++ join sep rest
  end.

Definition newline : string := String (ascii_of_nat 10) EmptyString.

(** A string between double quotes, as the template literals write it. *)
Definition quoted (s : string) : string :=
  String dquote (s ++ String dquote EmptyString).

End JsString.

(** ** The collaborator: directory entities, calls and results *)

(** A contact and a room of the directory.  [contactRef] and [roomRef]
    stand for the identity of the object ([Set] compares by identity);
    the other fields are what [id], [alias()], [name()] and [topic()]
    return. *)
Record Contact : Type := mkContact {
  contactRef : nat;
  contactId : string;
  contactAlias : option string;
  contactName : string
}.

Record Room : Type := mkRoom {
  roomRef : nat;
  roomId : string;
  roomTopic : string
}.

(** An inbound message, as far as [respond] reads it: [ctx.room()],
    [ctx.self()], [ctx.listener()] and [ctx.text()]. *)
Record Message : Type := mkMessage {
  room : option Room;
  self : bool;
  listener : option Contact;
  text : string
}.

(** A [RegExp] object: the pattern text it was built from and its [i]
    flag. *)
Record RegExp : Type := mkRegExp {
  pattern : string;
  ignoreCase : bool
}.

(** Thrown values and rejection reasons. *)
Inductive Exn : Type :=
| Error (message : string)
| SyntaxError (pattern : string).

(** Who a [say] goes to: [room.say], [contact.say], or [ctx.say] (the
    conversation the message came from). *)
Inductive Target : Type :=
| ToRoom (r : Room)
| ToContact (c : Contact)
| ToConversation (ctx : Message).

Inductive ContactField : Type := ByName | ByAlias.

(** The asynchronous operations of the collaborator, indexed by the type
    of what they resolve to.  [All2 a b] is [Promise.all([a, b])] over two
    calls that have both been issued. *)
Inductive Call : Type -> Type :=
| RoomFind (topic : string) : Call (option Room)
| ContactFind (name : string) : Call (option Contact)
| RoomFindAll (query : option RegExp) : Call (list Room)
| ContactFindAll (query : option (ContactField * RegExp))
    : Call (list Contact)
| Say (target : Target) (content : string) : Call unit
| All2 {X Y : Type} (a : Call X) (b : Call Y) : Call (X * Y).

(** ** Console output *)

(** An argument of [log]: a string, [undefined], a caught value, or the
    template literal [pre${regex.source}post]. *)
Inductive Val : Type :=
| VStr (s : string)
| VUndefined
| VExn (e : Exn)
| VSource (pre : string) (regex : RegExp) (post : string).

Definition valOf (s : option string) : Val :=
  match s with
  | Some v => VStr v
  | None => VUndefined
  end.

(** One row of a table: the columns of the object literal, in order. *)
Definition Row : Type := list (string * string).

(** What the Console writes: [this.log(...args)] (clear the line, write,
    redraw the prompt) and [this.table(rows)]. *)
Inductive Output : Type :=
| Log (args : list Val)
| Table (rows : list Row).

(** ** Asynchronous procedures

    An [async] function is a tree: it returns, throws, writes to the
    Console and goes on, or awaits a call of the collaborator and goes on
    with the value the call resolved to or the reason it rejected with. *)
Inductive Proc (A : Type) : Type :=
| Ret (a : A)
| Throw (e : Exn)
| Out (o : Output) (k : Proc A)
| Await {X : Type} (c : Call X) (k : Exn + X -> Proc A).

Arguments Ret {A} a.
Arguments Throw {A} e.
Arguments Out {A} o k.
Arguments Await {A X} c k.

Fixpoint bind {A B : Type} (p : Proc A) (f : A -> Proc B) : Proc B :=
  match p with
  | Ret a => f a
  | Throw e => Throw e
  | Out o k => Out o (bind k f)
  | Await c k => Await c (fun r => bind (k r) f)
  end.

(** [try { p } catch (err) { h err }] *)
Fixpoint tryCatch {A : Type} (p : Proc A) (h : Exn -> Proc A) : Proc A :=
  match p with
  | Ret a => Ret a
  | Throw e => h e
  | Out o k => Out o (tryCatch k h)
  | Await c k => Await c (fun r => tryCatch (k r) h)
  end.

(** [await c]: the value of the call, or its rejection rethrown. *)
Definition await {X : Type} (c : Call X) : Proc X :=
  Await c (fun r => match r with
                    | inl e => Throw e
                    | inr x => Ret x
                    end).

Definition log (args : list Val) : Proc unit := Out (Log args) (Ret tt).
Definition table (rows : list Row) : Proc unit := Out (Table rows) (Ret tt).

(** A run of synchronous writes, then [k]. *)
Fixpoint outs {A : Type} (os : list Output) (k : Proc A) : Proc A :=
  match os with
  | [] => k
  | o :: rest => Out o (outs rest k)
  end.

Declare Scope proc_scope.
Delimit Scope proc_scope with proc.
Notation "x <- p ;; q" := (bind p (fun x => q))
  (at level 61, p at next level, right associativity) : proc_scope.
Notation "p ;; q" := (bind p (fun _ => q))
  (at level 61, right associativity) : proc_scope.

(** ** Running a procedure against an environment

    The environment answers the [n]-th call of a run: it resolves it to a
    value or rejects it.  A run yields what was observed, in order, and
    how the procedure ended. *)
Definition Env : Type := nat -> forall X : Type, Call X -> Exn + X.

Inductive Event : Type :=
| Wrote (o : Output)
| Called {X : Type} (c : Call X).

Fixpoint run {A : Type} (env : Env) (n : nat) (p : Proc A)
  : list Event * (Exn + A) :=
  match p with
  | Ret a => ([], inr a)
  | Throw e => ([], inl e)
  | Out o k => let (tr, r) := run env n k in (Wrote o :: tr, r)
  | Await c k =>
      let (tr, r) := run env (S n) (k (env n _ c)) in (Called c :: tr, r)
  end.

Definition isCalled (e : Event) : bool :=
  match e with
  | Called _ => true
  | Wrote _ => false
  end.

(** The writes of a run, and whether it called the collaborator at all. *)
Definition writes (tr : list Event) : list Output :=
  flat_map (fun e => match e with Wrote o => [o] | Called _ => [] end) tr.

Definition anyCall (tr : list Event) : bool := existsb isCalled tr.

(** ** What a command does

    The body of [processCommand] is one procedure ([Alone]), or, for
    [ls] without a flag, [await Promise.all([a(), b()]); return] over two
    async closures ([Joint]): both closures are called, each runs to its
    first [await], and [processCommand] is over when the first of them
    throws or when both have returned.  A closure that is still running
    when the other one throws goes on on its own. *)
Inductive Command : Type :=
| Alone (p : Proc unit)
| Joint (a b : Proc unit).

Definition isJoint (c : Command) : bool :=
  match c with
  | Joint _ _ => true
  | Alone _ => false
  end.

(** ** src/index.ts *)

Module Index.
Import RegExpEngine.

(** The pattern of [commandLineParser], flags [gm].  With S for the
    single quote and D for the double quote it reads
      _*(?:-+([^=_SD]+)[=_]?)?(?:([SD])([^\2]+?)\2|([^-_DS]+))?
    where _ is the space character.  Inside a character class \2 is the
    character U+0002 (a legacy octal escape); outside it is the back
    reference to group 2. *)
Definition regex : Regex :=
  Seq (Quant 0 None true (Chr " "))
 (Seq (Quant 0 (Some 1) true
         (Seq (Quant 1 None true (Chr "-"))
         (Seq (Group 1 (Quant 1 None true
                          (CharSet true ["="; " "; "'"; dquote]%char)))
              (Quant 0 (Some 1) true (CharSet false ["="; " "]%char)))))
      (Quant 0 (Some 1) true
         (Disj (Seq (Group 2 (CharSet false ["'"; dquote]%char))
               (Seq (Group 3 (Quant 1 None false
                                (CharSet true ["002"]%char)))
                    (BackRef 2)))
               (Group 4 (Quant 1 None true
                           (CharSet true ["-"; " "; dquote; "'"]%char)))))).

(** The body of the [for (const match of matches)] loop. *)
Definition argOfMatch (m : MatchResult) : list Arg :=
  let wholeMatch := whole m in
  if String.eqb wholeMatch EmptyString then []
  else
    let flag := group 1 m in
    let quote := group 2 m in
    let quotedContent := group 3 m in
    let unquotedContent := group 4 m in
    [mkArg flag (if truthy quote then quotedContent else unquotedContent)].

Definition commandLineParser (command : string) : list Arg :=
  flat_map argOfMatch (matchAll command regex).



(** [truncate(str, maxLength)] *)
Definition truncate (str : string) (maxLength : nat) : string :=
  if maxLength <? String.length str
  then JsString.substring0 (maxLength - 3) str ++ "..."
  else str.

Definition maxTableColumnCharNum : nat := 35.

Definition truncateFixed (str : string) : string :=
  truncate str maxTableColumnCharNum.

(** [respond(ctx, response)] *)
Definition respond (ctx : Message) (response : string) : Proc unit :=
  match room ctx with
  | Some r => await (Say (ToRoom r) response)
  | None =>
      if self ctx then
        match listener ctx with
        | None => Throw (Error "Message target cannot be resolved")
        | Some l => await (Say (ToContact l) response)
        end
      else await (Say (ToConversation ctx) response)
  end.

(** [sendMessage(bot, targetType, target, message)]; [console.log] is
    the Console's [log] while the Console is attached. *)
Definition sendMessage (targetType target message : string) : Proc unit :=
  (targetInstance <-
     (if String.eqb targetType "room"
      then (r <- await (RoomFind target) ;; Ret (option_map ToRoom r))
      else (c <- await (ContactFind target) ;;
            Ret (option_map ToContact c))) ;;
   match targetInstance with
   | None =>
       log [VStr ("Error: " ++ targetType ++ " " ++ JsString.quoted target
                   ++ " not found.")]
   | Some t => await (Say t message)
   end)%proc.

(** The character class of [pattern.replace(/[.*+?^${}()|[\]\\]/g, ...)] *)
Definition isEscaped (c : ascii) : bool :=
  existsb (Ascii.eqb c)
    ["."; "*"; "+"; "?"; "^"; "$"; "{"; "}"; "("; ")"; "|"; "["; "]";
     "\"]%char.

(** Every match replaced by a backslash and the match itself. *)
Fixpoint escapePattern (s : string) : string :=
  match s with
  | EmptyString => EmptyString
  | String c t =>
      if isEscaped c then String "\" (String c (escapePattern t))
      else String c (escapePattern t)
  end.

(** [Array.from(new Set(l))]: the first occurrence of every object. *)
Fixpoint dedupe (seen : list nat) (l : list Contact) : list Contact :=
  match l with
  | [] => []
  | c :: t =>
      if existsb (Nat.eqb (contactRef c)) seen then dedupe seen t
      else c :: dedupe (contactRef c :: seen) t
  end.

Definition contactRow (c : Contact) : Row :=
  [("id", truncateFixed (contactId c));
   ("alias", truncateFixed (orElse (contactAlias c) EmptyString));
   ("name", truncateFixed (contactName c))].

Definition roomRow (r : Room) : Row :=
  [("id", truncateFixed (roomId r));
   ("topic", truncateFixed (roomTopic r))].

Definition isEmpty {A : Type} (l : list A) : bool :=
  match l with [] => true | _ => false end.

(** [!targetType || targetType === t] *)
Definition wants (targetType : option string) (t : string) : bool :=
  negb (truthy targetType)
  || match targetType with
     | Some v => String.eqb v t
     | None => false
     end.

Definition availableCommands : list string := ["send"; "ls"; "search"].

Definition usages (command : string) : string :=
  if String.eqb command "help" then
    "Usage: help <command>" ++ JsString.newline ++ "Available commands: "
      ++ JsString.join ", " availableCommands
  else if String.eqb command "send" then
    "Usage: send <target> -t <room|contact> -m <message>"
  else if String.eqb command "ls" then
    "Usage: ls [--contact | -c | --room | -r]"
  else "Usage: search <pattern> [-t | --targetType <room|contact>]".

(** [f === a || f === b] on a [string | undefined]. *)
Definition flagIs (f : option string) (a b : string) : bool :=
  match f with
  | Some s => String.eqb s a || String.eqb s b
  | None => false
  end.

Definition isStr (v : option string) (s : string) : bool :=
  match v with
  | Some v' => String.eqb v' s
  | None => false
  end.

(** The variables of the [send] branch. *)
Record SendVars : Type := mkSendVars {
  target : option string;
  targetType : string;
  message : option string
}.

Definition sendInit : SendVars := mkSendVars None "contact" None.

(** One iteration of the loop of the [send] branch: the variables after
    it and what it wrote. *)
Definition sendStep (st : SendVars) (arg : Arg) : SendVars * list Output :=
  if flagIs (flag arg) "t" "targetType" then
    (mkSendVars (target st) (orElse (value arg) "contact") (message st),
     [])
  else if flagIs (flag arg) "m" "message" then
    (mkSendVars (target st) (targetType st)
                (Some (orElse (value arg) EmptyString)), [])
  else if negb (truthy (flag arg)) && negb (truthy (target st)) then
    (mkSendVars (Some (orElse (value arg) EmptyString)) (targetType st)
                (message st), [])
  else
    (st, [Log [VStr "Unknown option or too many targets:";
               valOf (value arg)];
          Log [VStr (usages "send")]]).

(** [for (let i = 1; i < args.length; i++)] over [args[1..]]. *)
Fixpoint sendLoop (st : SendVars) (args : list Arg)
  : SendVars * list Output :=
  match args with
  | [] => (st, [])
  | arg :: rest =>
      let (st1, o1) := sendStep st arg in
      let (st2, o2) := sendLoop st1 rest in
      (st2, (o1 ++ o2)%list)
  end.

(** The [send] branch of [processCommand], on [args[1..]]. *)
Definition sendCommand (args : list Arg) : Proc unit :=
  let (st, written) := sendLoop sendInit args in
  outs written
    (if negb (truthy (target st)) || negb (truthy (message st)) then
       log [VStr (usages "send")]
     else
       tryCatch
         (sendMessage (targetType st)
                      (orElse (target st) EmptyString)
                      (orElse (message st) EmptyString))
         (fun err => log [VStr "Error sending message:"; VExn err])).

(** The [help] branch, on [args[1]]. *)
Definition helpCommand (arg1 : option Arg) : Proc unit :=
  let flag := match arg1 with Some a => flag a | None => None end in
  let value := match arg1 with Some a => value a | None => None end in
  if truthy flag then
    (log [VStr ("Unexpected flag " ++ orElse flag EmptyString)] ;;
     log [VStr (usages "help")])%proc
  else if negb (truthy value) then log [VStr (usages "help")]
  else
    let v := orElse value EmptyString in
    if negb (existsb (String.eqb v) availableCommands) then
      (log [VStr ("Unknown command " ++ v ++ JsString.newline)] ;;
       log [VStr (usages "help")])%proc
    else log [VStr (usages v)].

(** The variables of the [search] branch after its loop, or the writes
    of the iteration that returned from [processCommand]. *)
Inductive SearchArgs : Type :=
| Parsed (pattern : option string) (targetType : option string)
| Rejected (written : list Output).

Fixpoint searchLoop (pattern targetType : option string)
         (args : list Arg) : SearchArgs :=
  match args with
  | [] => Parsed pattern targetType
  | arg :: rest =>
      if flagIs (flag arg) "t" "targetType" then
        searchLoop pattern
                   (if truthy (value arg) then value arg else None) rest
      else if negb (truthy (flag arg)) && negb (truthy pattern) then
        searchLoop (Some (orElse (value arg) EmptyString)) targetType rest
      else
        Rejected [Log [VStr "Unknown option or too many patterns:";
                       valOf (value arg)];
                  Log [VStr (usages "search")]]
  end.

Section Console.

(** Whether the pattern parser of the host accepts a pattern text that
    lies outside the literal fragment of [parseLiteral]. *)
Variable syntaxOk : string -> bool.

(** [new RegExp(text, 'i')] *)
Definition newRegExp (text : string) : Exn + RegExp :=
  match parseLiteral text with
  | Some _ => inr (mkRegExp text true)
  | None =>
      if syntaxOk text then inr (mkRegExp text true)
      else inl (SyntaxError text)
  end.

(** The first statement of [search]: the compiled pattern, [None]
    when the invalid pattern was reported and [search] returned. *)
Definition compilePattern (pattern : string) : Proc (option RegExp) :=
  if JsString.startsWith "/" pattern && JsString.endsWith "/" pattern
  then
    match newRegExp (JsString.slice1m1 pattern) with
    | inr regex => Ret (Some regex)
    | inl _ => Out (Log [VStr "Invalid regular expression."]) (Ret None)
    end
  else
    match newRegExp (escapePattern pattern) with
    | inr regex => Ret (Some regex)
    | inl e => Throw e
    end.

(** The contact block of [search]; [false] when it returned from
    [search]. *)
Definition searchContacts (regex : RegExp) : Proc bool :=
  (log [VSource "Searching contacts using " regex " ..."] ;;
   foundContacts <-
     await (All2 (ContactFindAll (Some (ByName, regex)))
                 (ContactFindAll (Some (ByAlias, regex)))) ;;
   if isEmpty (fst foundContacts) && isEmpty (snd foundContacts) then
     (log [VStr "No matching contacts found :("] ;; Ret false)
   else
     let mergedContacts :=
       dedupe [] (fst foundContacts ++ snd foundContacts) in
     let contactsData := map contactRow mergedContacts in
     if 0 <? length contactsData then
       (log [VStr "- Matched Contacts:"] ;;
        table contactsData ;; Ret true)
     else
       (log [VStr "No matching contacts found :("] ;; Ret true))%proc.

(** The room block of [search]. *)
Definition searchRooms (regex : RegExp) : Proc unit :=
  (log [VSource "Searching rooms using " regex " ..."] ;;
   matchedRooms <- await (RoomFindAll (Some regex)) ;;
   let roomsData := map roomRow matchedRooms in
   if 0 <? length roomsData then
     (log [VStr "- Matched Rooms:"] ;; table roomsData)
   else log [VStr "No matching rooms found :("])%proc.

(** [CLI.search(pattern, targetType)] *)
Definition search (pattern : string) (targetType : option string)
  : Proc unit :=
  (compiled <- compilePattern pattern ;;
   match compiled with
   | None => Ret tt
   | Some regex =>
       goOn <- (if wants targetType "contact"
                then searchContacts regex else Ret true) ;;
       if goOn then
         if wants targetType "room" then searchRooms regex else Ret tt
       else Ret tt
   end)%proc.

(** The [search] branch of [processCommand], on [args[1..]]. *)
Definition searchCommand (args : list Arg) : Proc unit :=
  match searchLoop None None args with
  | Rejected written => outs written (Ret tt)
  | Parsed pattern targetType =>
      if negb (truthy pattern) then
        (log [VStr "Please provide a search pattern."] ;;
         log [VStr (usages "search")])%proc
      else
        tryCatch (search (orElse pattern EmptyString) targetType)
                 (fun err => log [VStr "Error during search:"; VExn err])
  end.

Definition getAllRooms : Proc unit :=
  (log [VStr "Getting the list of all rooms..."] ;;
   allRooms <- await (RoomFindAll None) ;;
   log [VStr "- List of Group Chats (Rooms):"] ;;
   table (map roomRow allRooms))%proc.

Definition getAllContacts : Proc unit :=
  (log [VStr "Getting the list of all contacts..."] ;;
   allContacts <- await (ContactFindAll None) ;;
   log [VStr "- List of Contacts:"] ;;
   table (map contactRow allContacts))%proc.

(** The [ls] branch, on [args[1]]. *)
Definition lsCommand (arg1 : option Arg) : Command :=
  let flag := match arg1 with Some a => flag a | None => None end in
  let value := match arg1 with Some a => value a | None => None end in
  if truthy value then
    Alone
      (log [VStr ("Unexpected argument " ++ orElse value EmptyString
                   ++ ". You should specify a flag instead of an argument.")] ;;
       log [VStr (usages "ls")])%proc
  else if negb (truthy flag) then Joint getAllRooms getAllContacts
  else if flagIs flag "contact" "c" then Alone getAllContacts
  else if flagIs flag "room" "r" then Alone getAllRooms
  else
    Alone
      (log [VStr ("Invalid flag " ++ orElse flag EmptyString)] ;;
       log [VStr (usages "ls")])%proc.

(** [CLI.processCommand(line)] *)
Definition processCommand (line : string) : Command :=
  let args := commandLineParser (JsString.trim line) in
  match args with
  | [] => Alone (Ret tt)
  | arg0 :: rest =>
      let command := value arg0 in
      if isStr command "send" then Alone (sendCommand rest)
      else if isStr command "help" then Alone (helpCommand (nth_error rest 0))
      else if isStr command "ls" then lsCommand (nth_error rest 0)
      else if isStr command "search" then Alone (searchCommand rest)
      else Alone (log [VStr "Unknown command:"; valOf command])
  end.

(** *** The line listener and the event loop

    [setupListeners] registers
    [async (line) => { try { await this.processCommand(line) }
    catch (error) { this.log(error) } this.rl.prompt() }]
    on the [line] event of the readline interface.  The emitter calls
    the listener when a line arrives and does not wait for the promise
    the listener returns; the Console has no queue, lock or pause of
    its own.  A listener runs until its next [await] of the
    collaborator and is resumed when that call settles.  The two
    closures of [ls] without a flag are suspended each in its own call,
    and either call may settle first. *)

(** What happens at the Console, tagged with the number of the line
    whose listener does it. *)
Inductive ConsoleEvent : Type :=
| Dispatched (n : nat) (line : string)
| Written (n : nat) (o : Output)
| Issued (n : nat) {X : Type} (c : Call X)
| Settled (n : nat) {X : Type} (c : Call X) (r : Exn + X)
| Returned (n : nat)
| Prompted (n : nat).

Definition lineOf (e : ConsoleEvent) : nat :=
  match e with
  | Dispatched n _ | Written n _ | Issued n _ | Settled n _ _
  | Returned n | Prompted n => n
  end.

(** A listener suspended in an [await] inside [processCommand]
    ([Waiting]), or a closure of the [Promise.all] of line [n] suspended
    in its own [await] ([Listing]). *)
Inductive Suspended : Type :=
| Waiting (n : nat) {X : Type} (c : Call X) (k : Exn + X -> Proc unit)
| Listing (n : nat) {X : Type} (c : Call X) (k : Exn + X -> Proc unit).

Definition suspendedLine (s : Suspended) : nat :=
  match s with Waiting n _ _ | Listing n _ _ => n end.

Definition isListing (s : Suspended) : bool :=
  match s with
  | Listing _ _ _ => true
  | Waiting _ _ _ => false
  end.

(** The listener of line [n] from the point [p] of the
    [processCommand] it awaits, up to its next suspension.  When
    [processCommand] has returned ([Returned]) or thrown (the error is
    logged), the listener calls [this.rl.prompt()] ([Prompted]). *)
Fixpoint lineListener (n : nat) (p : Proc unit)
  : list ConsoleEvent * option Suspended :=
  match p with
  | Ret _ => ([Returned n; Prompted n], None)
  | Throw error =>
      ([Returned n; Written n (Log [VExn error]); Prompted n], None)
  | Out o k =>
      let (es, s) := lineListener n k in (Written n o :: es, s)
  | Await c k => ([Issued n c], Some (Waiting n c k))
  end.

(** A closure of the [Promise.all] of line [n] from the point [p], up
    to its next suspension or to its end: how it is suspended, or how it
    ended. *)
Fixpoint closure (n : nat) (p : Proc unit)
  : list ConsoleEvent * (Suspended + (Exn + unit)) :=
  match p with
  | Ret _ => ([], inr (inr tt))
  | Throw error => ([], inr (inl error))
  | Out o k =>
      let (es, s) := closure n k in (Written n o :: es, s)
  | Await c k => ([Issued n c], inl (Listing n c k))
  end.

Definition pendingOf (s : Suspended + (Exn + unit)) : list Suspended :=
  match s with
  | inl w => [w]
  | inr _ => []
  end.

(** [Promise.all] of two closures right after both were called:
    rejected with the reason of the first that has thrown, fulfilled when
    both have returned, pending otherwise. *)
Definition promiseAll (sa sb : Suspended + (Exn + unit))
  : option (Exn + unit) :=
  match sa, sb with
  | inr (inl error), _ => Some (inl error)
  | _, inr (inl error) => Some (inl error)
  | inr (inr _), inr (inr _) => Some (inr tt)
  | _, _ => None
  end.

(** The listener of line [n] once the [Promise.all] it awaits through
    [processCommand] has settled: [processCommand] returns or throws,
    the error is logged, and the listener calls [this.rl.prompt()]. *)
Definition afterAll (n : nat) (r : Exn + unit) : list ConsoleEvent :=
  match r with
  | inr _ => [Returned n; Prompted n]
  | inl error => [Returned n; Written n (Log [VExn error]); Prompted n]
  end.

(** The Console: how many lines were dispatched, what is suspended, the
    lines whose [Promise.all] is pending, and what has happened. *)
Record Console : Type := mkConsole {
  dispatched : nat;
  suspended : list Suspended;
  awaitingAll : list nat;
  trace : list ConsoleEvent
}.

Definition initial : Console := mkConsole 0 [] [] [].

Definition optList {A : Type} (o : option A) : list A :=
  match o with Some a => [a] | None => [] end.

(** A line arrives: its listener is called at once.  For [ls] without
    a flag the first closure runs to its first [await], then the
    second. *)
Definition submit (line : string) (st : Console) : Console :=
  let n := dispatched st in
  match processCommand line with
  | Alone p =>
      let (es, s) := lineListener n p in
      mkConsole (S n) (suspended st ++ optList s) (awaitingAll st)
                (trace st ++ Dispatched n line :: es)
  | Joint a b =>
      let (ea, sa) := closure n a in
      let (eb, sb) := closure n b in
      match promiseAll sa sb with
      | Some r =>
          mkConsole (S n) (suspended st ++ pendingOf sa ++ pendingOf sb)
                    (awaitingAll st)
                    (trace st ++ Dispatched n line :: ea ++ eb
                       ++ afterAll n r)
      | None =>
          mkConsole (S n) (suspended st ++ pendingOf sa ++ pendingOf sb)
                    (n :: awaitingAll st)
                    (trace st ++ Dispatched n line :: ea ++ eb)
      end
  end.

(** The lines other than [n]. *)
Definition without (n : nat) (lines : list nat) : list nat :=
  filter (fun m => negb (m =? n)) lines.

(** A closure of line [n] suspended in [others]. *)
Definition listingOf (n : nat) (s : Suspended) : bool :=
  isListing s && (suspendedLine s =? n).

(** A closure of line [n] is over with [over] while [others] are
    suspended: when the [Promise.all] of the line is pending, it is
    rejected if the closure has thrown and fulfilled if the closure has
    returned and the other closure is not among [others]; when it has
    settled before, how the closure ended has no effect. *)
Definition closureOver (n : nat) (over : Exn + unit)
           (others : list Suspended) (awaiting : list nat)
  : list ConsoleEvent * list nat :=
  if existsb (Nat.eqb n) awaiting then
    match over with
    | inl error =>
        (afterAll n (inl error), without n awaiting)
    | inr _ =>
        if existsb (listingOf n) others then ([], awaiting)
        else (afterAll n (inr tt), without n awaiting)
    end
  else ([], awaiting).

(** The call awaited by the [i]-th suspended listener or closure settles
    with the answer of [env]; nothing happens when there is no such
    listener or closure. *)
Definition settle (i : nat) (env : forall X : Type, Call X -> Exn + X)
           (st : Console) : Console :=
  match nth_error (suspended st) i with
  | None => st
  | Some (Waiting n c k) =>
      let r := env _ c in
      let (es, s) := lineListener n (k r) in
      mkConsole (dispatched st)
                (firstn i (suspended st) ++ optList s
                   ++ skipn (S i) (suspended st))
                (awaitingAll st)
                (trace st ++ Settled n c r :: es)
  | Some (Listing n c k) =>
      let r := env _ c in
      let (es, s) := closure n (k r) in
      let others :=
        (firstn i (suspended st) ++ skipn (S i) (suspended st))%list in
      match s with
      | inl w =>
          mkConsole (dispatched st)
                    (firstn i (suspended st) ++ w
                       :: skipn (S i) (suspended st))
                    (awaitingAll st)
                    (trace st ++ Settled n c r :: es)
      | inr over =>
          let (after, awaiting) :=
            closureOver n over others (awaitingAll st) in
          mkConsole (dispatched st) others awaiting
                    (trace st ++ Settled n c r :: es ++ after)
      end
  end.

Inductive Action : Type :=
| Submit (line : string)
| Settle (i : nat) (env : forall X : Type, Call X -> Exn + X).

Definition act (st : Console) (a : Action) : Console :=
  match a with
  | Submit line => submit line st
  | Settle i env => settle i env st
  end.

(** The Console after a sequence of arrivals and settlements. *)
Definition runConsole (actions : list Action) : Console :=
  fold_left act actions initial.

End Console.

End Index.

(** ** src/cli_chat.ts *)

Module CliChat.
Import RegExpEngine.

(** The pattern of [commandLineParser] in [cli_chat.ts], flags [gm]. *)
Definition regex : Regex :=
  Seq (Quant 0 None true (Chr " "))
 (Seq (Quant 0 (Some 1) true
         (Seq (Quant 1 None true (Chr "-"))
         (Seq (Group 1 (Quant 1 None true
                          (CharSet true ["="; " "; "'"; dquote]%char)))
              (Quant 0 (Some 1) true (CharSet false ["="; " "]%char)))))
      (Quant 0 (Some 1) true
         (Disj (Seq (Group 2 (CharSet false ["'"; dquote]%char))
               (Seq (Group 3 (Quant 1 None false
                                (CharSet true ["002"]%char)))
                    (BackRef 2)))
               (Group 4 (Quant 1 None true
                           (CharSet true ["-"; " "; dquote; "'"]%char)))))).

Definition argOfMatch (m : MatchResult) : list Arg :=
  let wholeMatch := whole m in
  if String.eqb wholeMatch EmptyString then []
  else
    let flag := group 1 m in
    let quote := group 2 m in
    let quotedContent := group 3 m in
    let unquotedContent := group 4 m in
    [mkArg flag (if truthy quote then quotedContent else unquotedContent)].

Definition commandLineParser (command : string) : list Arg :=
  flat_map argOfMatch (matchAll command regex).

(** [respond(ctx, response)] *)
Definition respond (ctx : Message) (response : string) : Proc unit :=
  match room ctx with
  | Some r => await (Say (ToRoom r) response)
  | None =>
      if self ctx then
        match listener ctx with
        | None => Throw (Error "Message target cannot be resolved")
        | Some l => await (Say (ToContact l) response)
        end
      else await (Say (ToConversation ctx) response)
  end.

End CliChat.


(** ** Vocabulary of the statements *)

(** A reply-target resolver: on a message with a room it says the response
    to the room whatever [self] is; without a room and from self it says
    it to the listener, and without a listener it throws and says nothing;
    without a room and not from self it says it to the conversation of the
    message. *)
Definition ResolvesReplyTarget (respond : Message -> string -> Proc unit)
  : Prop :=
  forall (env : Env) (n : nat) (response body : string) (r : Room)
         (l : Contact) (fromSelf : bool) (anyListener : option Contact),
    fst (run env n (respond (mkMessage (Some r) fromSelf anyListener body)
                            response))
    = [Called (Say (ToRoom r) response)]
    /\ fst (run env n (respond (mkMessage None true (Some l) body) response))
       = [Called (Say (ToContact l) response)]
    /\ run env n (respond (mkMessage None true None body) response)
       = ([], inl (Error "Message target cannot be resolved"))
    /\ fst (run env n (respond (mkMessage None false anyListener body)
                               response))
       = [Called (Say (ToConversation
                         (mkMessage None false anyListener body)) response)].


(** Two continuations agree on the states whose end index lies between
    [e] and the end of [input]. *)
Definition agreeFrom (input : string) (e : nat)
           (c c' : RegExpEngine.Continuation) : Prop :=
  forall y : RegExpEngine.MatchState,
    e <= RegExpEngine.endIndex y ->
    RegExpEngine.endIndex y <= String.length input ->
    c y = c' y.

(** A matcher that, from a state inside [input], consults its continuation
    only on states further on and inside [input]. *)
Definition Progressive (input : string) (m : RegExpEngine.Matcher) : Prop :=
  forall (x : RegExpEngine.MatchState) (c c' : RegExpEngine.Continuation),
    RegExpEngine.endIndex x <= String.length input ->
    agreeFrom input (RegExpEngine.endIndex x) c c' ->
    m x c = m x c'.

(** A matcher whose result is a result of its continuation on a state
    that is not behind the state it started from. *)
Definition Advancing (m : RegExpEngine.Matcher) : Prop :=
  forall (x z : RegExpEngine.MatchState) (c : RegExpEngine.Continuation),
    m x c = Some z ->
    exists y : RegExpEngine.MatchState,
      RegExpEngine.endIndex x <= RegExpEngine.endIndex y /\ c y = Some z.

(** [regex.test(s)] for a [RegExp] whose pattern text lies in the literal
    fragment; [None] for a text outside it. *)
Definition regexTest (r : RegExp) (s : string) : option bool :=
  option_map (fun re => RegExpEngine.test (ignoreCase r) re s)
             (RegExpEngine.parseLiteral (pattern r)).

(** The pattern that matches the characters of [p], one after the other. *)
Fixpoint literal (p : string) : RegExpEngine.Regex :=
  match p with
  | EmptyString => RegExpEngine.Empty
  | String c t => RegExpEngine.Seq (RegExpEngine.Chr c) (literal t)
  end.






(** The tokens the loop of the [send] branch reports: a token that is
    neither a [-t] nor a [-m] flag and that carries a flag or arrives when
    a target is already set. *)
Definition reportedBySend (st : Index.SendVars) (arg : Arg) : bool :=
  negb (Index.flagIs (flag arg) "t" "targetType")
  && negb (Index.flagIs (flag arg) "m" "message")
  && (truthy (flag arg) || truthy (Index.target st)).

(** The two lines written for a reported token. *)
Definition sendWarning (arg : Arg) : list Output :=
  [Log [VStr "Unknown option or too many targets:"; valOf (value arg)];
   Log [VStr (Index.usages "send")]].


(** How many calls line [n] has issued in a trace, and how many of its
    calls have settled. *)
Definition isIssuedBy (n : nat) (e : Index.ConsoleEvent) : bool :=
  match e with
  | Index.Issued m _ => m =? n
  | _ => false
  end.

Definition isSettledFor (n : nat) (e : Index.ConsoleEvent) : bool :=
  match e with
  | Index.Settled m _ _ => m =? n
  | _ => false
  end.

Definition issued (n : nat) (t : list Index.ConsoleEvent) : nat :=
  length (filter (isIssuedBy n) t).

Definition settled (n : nat) (t : list Index.ConsoleEvent) : nat :=
  length (filter (isSettledFor n) t).

(** The lines with a suspended listener, and the lines with a suspended
    closure. *)
Definition suspendedLines (st : Index.Console) : list nat :=
  map Index.suspendedLine (Index.suspended st).

Definition waitingLines (st : Index.Console) : list nat :=
  map Index.suspendedLine
      (filter (fun s => negb (Index.isListing s)) (Index.suspended st)).

Definition listingLines (st : Index.Console) : list nat :=
  map Index.suspendedLine (filter Index.isListing (Index.suspended st)).

(** In the trace [t] line [n] is a command that runs one procedure, or
    one that runs its two listings jointly. *)
Definition runsAlone (syntaxOk : string -> bool)
           (t : list Index.ConsoleEvent) (n : nat) : Prop :=
  forall line : string,
    In (Index.Dispatched n line) t ->
    isJoint (Index.processCommand syntaxOk line) = false.

Definition runsJointly (syntaxOk : string -> bool)
           (t : list Index.ConsoleEvent) (n : nat) : Prop :=
  exists line : string,
    In (Index.Dispatched n line) t
    /\ isJoint (Index.processCommand syntaxOk line) = true.

(** What holds of every Console the event loop reaches.  The lines of
    the trace have been dispatched, each once.  A listener is suspended
    at most once; its line runs one procedure, has one call pending and
    has not prompted.  A suspended closure belongs to a line that runs
    its listings jointly.  A line that runs one procedure and is not
    suspended has all its calls settled.  A line whose [Promise.all] is
    pending has a closure suspended and has not prompted.  Every line
    dispatched is suspended, awaits its [Promise.all] or has prompted.
    Where the trace has the prompt of a line, [processCommand] has
    returned for that line before and the line has no other prompt;
    when the line runs one procedure, its calls were all settled before
    and the line does nothing after. *)
Record Reachable (syntaxOk : string -> bool) (st : Index.Console)
  : Prop := mkReachable {
  lines_bounded :
    Forall (fun e => Index.lineOf e < Index.dispatched st) (Index.trace st);
  dispatched_once :
    forall (n : nat) (line line' : string),
      In (Index.Dispatched n line) (Index.trace st) ->
      In (Index.Dispatched n line') (Index.trace st) ->
      line = line';
  waiting_once : NoDup (waitingLines st);
  waiting_open :
    forall n : nat, In n (waitingLines st) ->
      n < Index.dispatched st
      /\ runsAlone syntaxOk (Index.trace st) n
      /\ issued n (Index.trace st) = S (settled n (Index.trace st))
      /\ ~ In (Index.Prompted n) (Index.trace st);
  listing_joint :
    forall n : nat, In n (listingLines st) ->
      runsJointly syntaxOk (Index.trace st) n;
  alone_settled :
    forall n : nat,
      runsAlone syntaxOk (Index.trace st) n ->
      ~ In n (waitingLines st) ->
      issued n (Index.trace st) = settled n (Index.trace st);
  awaiting_once : NoDup (Index.awaitingAll st);
  awaiting_open :
    forall n : nat, In n (Index.awaitingAll st) ->
      In n (listingLines st)
      /\ ~ In (Index.Prompted n) (Index.trace st);
  served :
    forall n : nat, n < Index.dispatched st ->
      In n (waitingLines st) \/ In n (Index.awaitingAll st)
      \/ In (Index.Prompted n) (Index.trace st);
  prompt_closes :
    forall (n : nat) (t1 t2 : list Index.ConsoleEvent),
      Index.trace st = (t1 ++ Index.Prompted n :: t2)%list ->
      In (Index.Returned n) t1
      /\ ~ In (Index.Prompted n) t1
      /\ ~ In (Index.Prompted n) t2
      /\ (runsAlone syntaxOk (Index.trace st) n ->
          issued n t1 = settled n t1
          /\ Forall (fun e => Index.lineOf e <> n) t2)
}.

(** Whether [new RegExp] returned. *)
Definition compiles {A : Type} (r : Exn + A) : bool :=
  match r with inr _ => true | inl _ => false end.

(** [pattern.startsWith('/') && pattern.endsWith('/')] *)
Definition slashDelimited (pattern : string) : bool :=
  JsString.startsWith "/" pattern && JsString.endsWith "/" pattern.


(** ** Sample environments *)

(** A directory over given contacts and rooms: [find] resolves to the
    first entry whose name or topic is the given text, [findAll] to the
    entries whose field the pattern matches ([regexTest], so a pattern
    outside the literal fragment matches nothing here), [say] resolves. *)
Definition fieldMatches (query : option RegExp) (field : option string)
  : bool :=
  match query, field with
  | None, _ => true
  | Some regex, Some s =>
      match regexTest regex s with
      | Some b => b
      | None => false
      end
  | Some _, None => false
  end.

Fixpoint directory (contacts : list Contact) (rooms : list Room)
         {X : Type} (c : Call X) : Exn + X :=
  match c in Call X return Exn + X with
  | RoomFind topic =>
      inr (find (fun r => String.eqb (roomTopic r) topic) rooms)
  | ContactFind name =>
      inr (find (fun k => String.eqb (contactName k) name) contacts)
  | RoomFindAll query =>
      inr (filter (fun r => fieldMatches query (Some (roomTopic r))) rooms)
  | ContactFindAll None => inr contacts
  | ContactFindAll (Some (ByName, regex)) =>
      inr (filter (fun k => fieldMatches (Some regex) (Some (contactName k)))
                  contacts)
  | ContactFindAll (Some (ByAlias, regex)) =>
      inr (filter (fun k => fieldMatches (Some regex) (contactAlias k))
                  contacts)
  | Say _ _ => inr tt
  | All2 a b =>
      match directory contacts rooms a, directory contacts rooms b with
      | inr x, inr y => inr (x, y)
      | inl e, _ => inl e
      | _, inl e => inl e
      end
  end.

Definition directoryEnv (contacts : list Contact) (rooms : list Room)
  : Env := fun _ X c => directory contacts rooms c.

(** The empty directory. *)
Definition emptyEnv : Env := directoryEnv [] [].

(** A directory without contacts and with one room, whose topic contains
    a dot followed by a star. *)
Definition dotStarRoom : Room := mkRoom 7 "@@7" "notes.*draft".
Definition oneRoomEnv : Env := directoryEnv [] [dotStarRoom].

(** A directory of two contacts, neither with a slash in a field. *)
Definition adam : Contact := mkContact 1 "@1" None "Adam".
Definition bob : Contact := mkContact 2 "@2" (Some "Bobby") "Bob".
Definition twoContactsEnv : Env := directoryEnv [adam; bob] [].

(** A host that accepts every pattern text; used where a statement is
    evaluated. *)
Definition acceptAll : string -> bool := fun _ => true.

(** A host whose every call is rejected. *)
Definition unavailable : forall X : Type, Call X -> Exn + X :=
  fun _ _ => inl (Error "unavailable").

(** ** src/cli_chat.ts: the Console *)

Module CliChatConsole.

(** [sendMessage(bot, targetType, target, message)] of [cli_chat.ts]: as
    in [index.ts], and the success line after the [say]. *)
Definition sendMessage (targetType target message : string) : Proc unit :=
  (targetInstance <-
     (if String.eqb targetType "room"
      then (r <- await (RoomFind target) ;; Ret (option_map ToRoom r))
      else (c <- await (ContactFind target) ;;
            Ret (option_map ToContact c))) ;;
   match targetInstance with
   | None =>
       log [VStr ("Error: " ++ targetType ++ " " ++ JsString.quoted target
                   ++ " not found.")]
   | Some t =>
       await (Say t message) ;;
       log [VStr ("Message sent to " ++ targetType ++ " "
                   ++ JsString.quoted target ++ ": " ++ message)]
   end)%proc.

(** One iteration of the loop of the [send] branch: one line is written
    for a token that is not taken. *)
Definition sendStep (st : Index.SendVars) (arg : Arg)
  : Index.SendVars * list Output :=
  if Index.flagIs (flag arg) "t" "targetType" then
    (Index.mkSendVars (Index.target st) (orElse (value arg) "contact")
                      (Index.message st), [])
  else if Index.flagIs (flag arg) "m" "message" then
    (Index.mkSendVars (Index.target st) (Index.targetType st)
                      (Some (orElse (value arg) EmptyString)), [])
  else if negb (truthy (flag arg)) && negb (truthy (Index.target st)) then
    (Index.mkSendVars (Some (orElse (value arg) EmptyString))
                      (Index.targetType st) (Index.message st), [])
  else
    (st, [Log [VStr "Unknown option or too many targets:";
               valOf (value arg)]]).

Fixpoint sendLoop (st : Index.SendVars) (args : list Arg)
  : Index.SendVars * list Output :=
  match args with
  | [] => (st, [])
  | arg :: rest =>
      let (st1, o1) := sendStep st arg in
      let (st2, o2) := sendLoop st1 rest in
      (st2, (o1 ++ o2)%list)
  end.

(** The [send] branch of [processCommand], on [args[1..]]. *)
Definition sendCommand (args : list Arg) : Proc unit :=
  let (st, written) := sendLoop Index.sendInit args in
  outs written
    (if negb (truthy (Index.target st)) || negb (truthy (Index.message st))
     then log [VStr "Usage: send <target> -t <room|contact> -m <message>"]
     else
       tryCatch
         (sendMessage (Index.targetType st)
                      (orElse (Index.target st) EmptyString)
                      (orElse (Index.message st) EmptyString))
         (fun err => log [VStr "Error sending message:"; VExn err])).

(** [CLI.processCommand(line)] of [cli_chat.ts]: [send] is its only
    command. *)
Definition processCommand (line : string) : Proc unit :=
  let args := CliChat.commandLineParser (JsString.trim line) in
  match args with
  | [] => Ret tt
  | arg0 :: rest =>
      let command := value arg0 in
      if Index.isStr command "send" then sendCommand rest
      else log [VStr "Unknown command:"; valOf command]
  end.

End CliChatConsole.

(** ** More vocabulary *)

(** Every character of a string satisfies [P]. *)
Fixpoint allChars (P : ascii -> bool) (s : string) : bool :=
  match s with
  | EmptyString => true
  | String c t => P c && allChars P t
  end.

(** A procedure without a [Throw] on any path. *)
Inductive NeverThrows {A : Type} : Proc A -> Prop :=
| NeverThrows_Ret (a : A) : NeverThrows (Ret a)
| NeverThrows_Out (o : Output) (k : Proc A) :
    NeverThrows k -> NeverThrows (Out o k)
| NeverThrows_Await (X : Type) (c : Call X) (k : Exn + X -> Proc A) :
    (forall r : Exn + X, NeverThrows (k r)) -> NeverThrows (Await c k).

(** A procedure all of whose writes satisfy [P] and all of whose calls
    satisfy [Q], on every path. *)
Inductive Always {A : Type} (P : Output -> Prop)
          (Q : forall X : Type, Call X -> Prop) : Proc A -> Prop :=
| Always_Ret (a : A) : Always P Q (Ret a)
| Always_Throw (e : Exn) : Always P Q (Throw e)
| Always_Out (o : Output) (k : Proc A) :
    P o -> Always P Q k -> Always P Q (Out o k)
| Always_Await (X : Type) (c : Call X) (k : Exn + X -> Proc A) :
    Q X c -> (forall r : Exn + X, Always P Q (k r)) ->
    Always P Q (Await c k).

(** What an event of a run has to satisfy under [Always P Q]. *)
Definition eventIs (P : Output -> Prop) (Q : forall X : Type, Call X -> Prop)
           (e : Event) : Prop :=
  match e with
  | Wrote o => P o
  | Called c => Q _ c
  end.

(** The calls of [search]: a joint query of the contacts by name and by
    alias with one pattern, and a query of the rooms by topic. *)
Definition queriedBy (f : ContactField) {X : Type} (c : Call X)
  : option RegExp :=
  match c with
  | ContactFindAll (Some (ByName, regex)) =>
      match f with ByName => Some regex | ByAlias => None end
  | ContactFindAll (Some (ByAlias, regex)) =>
      match f with ByAlias => Some regex | ByName => None end
  | _ => None
  end.

Definition isContactQuery (X : Type) (c : Call X) : Prop :=
  match c with
  | All2 a b =>
      exists regex : RegExp,
        queriedBy ByName a = Some regex /\ queriedBy ByAlias b = Some regex
  | _ => False
  end.

Definition isRoomQuery (X : Type) (c : Call X) : Prop :=
  match c with
  | RoomFindAll (Some _) => True
  | _ => False
  end.

(** No call at all, and any write. *)
Definition noCall (X : Type) (c : Call X) : Prop := False.
Definition anyWrite (o : Output) : Prop := True.

(** Every cell of a table is at most [maxTableColumnCharNum] wide. *)
Definition cellsFit (o : Output) : Prop :=
  match o with
  | Log _ => True
  | Table rows =>
      Forall (Forall (fun cell : string * string =>
                        String.length (snd cell)
                        <= Index.maxTableColumnCharNum)) rows
  end.

(** The command of a line: the value of its first token. *)
Definition commandOf (line : string) : option string :=
  match Index.commandLineParser (JsString.trim line) with
  | [] => None
  | arg0 :: _ => value arg0
  end.

(** The calls of a run, in order. *)
Definition calls (tr : list Event) : list Event := filter isCalled tr.

(** ** What the groups of a pattern can capture *)

(** The 256 code units. *)
Definition allAscii : list ascii := map ascii_of_nat (seq 0 256).

(** [runOf ic P r]: the pattern [r] is a character class all of whose
    members satisfy [P], or such a class repeated at least once without an
    upper bound; it has no group inside. *)
Fixpoint runOf (ic : bool) (P : ascii -> bool) (r : RegExpEngine.Regex)
  : bool :=
  match r with
  | RegExpEngine.CharSet neg cs =>
      forallb (fun ch => implb (xorb neg (RegExpEngine.inSet ic ch cs))
                               (P ch)) allAscii
  | RegExpEngine.Quant (S _) None _ a => runOf ic P a
  | _ => false
  end.

(** [groupsRunOf ic P r]: every group [n] of [r] is a [runOf] of the
    class [P n]. *)
Fixpoint groupsRunOf (ic : bool) (P : nat -> ascii -> bool)
         (r : RegExpEngine.Regex) : bool :=
  match r with
  | RegExpEngine.Empty | RegExpEngine.CharSet _ _
  | RegExpEngine.BackRef _ => true
  | RegExpEngine.Seq a b | RegExpEngine.Disj a b =>
      groupsRunOf ic P a && groupsRunOf ic P b
  | RegExpEngine.Quant _ _ _ a => groupsRunOf ic P a
  | RegExpEngine.Group n a => runOf ic (P n) a
  end.

(** The characters of [input] from index [s] up to index [e] are at least
    one, lie inside [input] and all satisfy [P]. *)
Definition spans (P : ascii -> bool) (input : string) (s e : nat) : Prop :=
  s < e /\ e <= String.length input
  /\ forall i : nat, s <= i -> i < e ->
       exists ch : ascii, String.get i input = Some ch /\ P ch = true.

(** Every capture of a state spans characters of the class of its
    group. *)
Definition capturesSpan (P : nat -> ascii -> bool) (input : string)
           (caps : list (option (nat * nat))) : Prop :=
  forall (n s e : nat),
    nth n caps None = Some (s, e) -> spans (P n) input s e.

(** The classes of the four groups of the tokenizer: the flag name has no
    equals sign, space or quote; the quote is one of the two quotes; the
    quoted content has no U+0002; the bare value has no dash, space or
    quote. *)
Definition tokenClass (n : nat) (c : ascii) : bool :=
  match n with
  | 1 => negb (RegExpEngine.inSet false c ["="; " "; "'"; dquote]%char)
  | 2 => RegExpEngine.inSet false c ["'"; dquote]%char
  | 3 => negb (RegExpEngine.inSet false c ["002"]%char)
  | 4 => negb (RegExpEngine.inSet false c ["-"; " "; dquote; "'"]%char)
  | _ => true
  end.

(** What a matcher of a run does: it continues on a state further on,
    with the captures it was given, over characters of the class. *)
Definition RunMatcher (input : string) (P : ascii -> bool)
           (m : RegExpEngine.Matcher) : Prop :=
  forall (x z : RegExpEngine.MatchState) (c : RegExpEngine.Continuation),
    m x c = Some z ->
    exists y : RegExpEngine.MatchState,
      c y = Some z
      /\ RegExpEngine.captures y = RegExpEngine.captures x
      /\ spans P input (RegExpEngine.endIndex x) (RegExpEngine.endIndex y).

(** What every matcher of a pattern with good groups does: it continues
    on a state not behind, inside the input, whose captures span
    characters of their classes. *)
Definition GroupMatcher (input : string) (P : nat -> ascii -> bool)
           (m : RegExpEngine.Matcher) : Prop :=
  forall (x z : RegExpEngine.MatchState) (c : RegExpEngine.Continuation),
    RegExpEngine.endIndex x <= String.length input ->
    capturesSpan P input (RegExpEngine.captures x) ->
    m x c = Some z ->
    exists y : RegExpEngine.MatchState,
      c y = Some z
      /\ RegExpEngine.endIndex x <= RegExpEngine.endIndex y
      /\ RegExpEngine.endIndex y <= String.length input
      /\ capturesSpan P input (RegExpEngine.captures y).

(** ** The text of a list of tokens *)

(** [suffixAt input i body]: [body] is what [input] holds from index [i]
    on. *)
Definition suffixAt (input : string) (i : nat) (body : string) : Prop :=
  exists pre : string, input = pre ++ body /\ String.length pre = i.

(** The first character of a string is there and satisfies [P]. *)
Definition headIn (P : ascii -> bool) (s : string) : bool :=
  match s with
  | String ch _ => P ch
  | EmptyString => false
  end.

(** Membership in a character class of a pattern without the [i] flag. *)
Definition cls (neg : bool) (cs : list ascii) (ch : ascii) : bool :=
  xorb neg (RegExpEngine.inSet false ch cs).

(** A value is written bare when it has no dash, space or quote, and
    between single quotes otherwise. *)
Definition renderValue (v : string) : string :=
  if allChars (tokenClass 4) v then v else "'" ++ v ++ "'".

(** A flag is written after one dash, and its value after one space. *)
Definition renderArg (a : Arg) : string :=
  match flag a, value a with
  | Some f, Some v => "-" ++ f ++ " " ++ renderValue v
  | Some f, None => "-" ++ f
  | None, Some v => renderValue v
  | None, None => EmptyString
  end.

(** The line of a list of tokens: their texts, one space between two. *)
Definition render (args : list Arg) : string :=
  JsString.join " " (map renderArg args).

(** A flag name that can be written: not empty, not starting with a dash
    and without an equals sign, a space or a quote. *)
Definition isFlagName (f : string) : bool :=
  match f with
  | EmptyString => false
  | String c _ => negb (Ascii.eqb c "-") && allChars (tokenClass 1) f
  end.

(** A character that can stand between single quotes: not the single
    quote and not U+0002. *)
Definition quotableChar (c : ascii) : bool :=
  negb (Ascii.eqb c "'") && tokenClass 3 c.

(** A value that can be written: not empty, and either bare or made of
    characters that can stand between single quotes. *)
Definition isValue (v : string) : bool :=
  negb (String.eqb v EmptyString)
  && (allChars (tokenClass 4) v || allChars quotableChar v).

(** A list of tokens that can be written: every token has a flag or a
    value, flag names and values can be written, and a flag without a
    value is the last token or stands before another flag. *)
Fixpoint writable (args : list Arg) : bool :=
  match args with
  | [] => true
  | a :: rest =>
      match flag a, value a with
      | None, None => false
      | Some f, None =>
          isFlagName f
          && match rest with
             | [] => true
             | b :: _ => match flag b with Some _ => true | None => false end
             end
      | Some f, Some v => isFlagName f && isValue v
      | None, Some v => isValue v
      end && writable rest
  end.
(** * Properties *)

(** ** The tokenizer *)

(** C3: [commandLineParser] on the line
    send 'John Doe' -t contact -m 'hi there'
    returns exactly four tokens, in order: the value send, the value
    John Doe, the flag t with value contact, the flag m with value
    hi there; the field a token does not set is undefined. *)
Theorem tokenize_send_example :
  Index.commandLineParser "send 'John Doe' -t contact -m 'hi there'"
  = [ mkArg None (Some "send");
      mkArg None (Some "John Doe");
      mkArg (Some "t") (Some "contact");
      mkArg (Some "m") (Some "hi there") ].
Proof. vm_compute. reflexivity. Qed.

(** C9: the tokenizer of [cli_chat.ts] and the tokenizer of [index.ts]
    return the same sequence of tokens on every input. *)
Theorem tokenizers_agree :
  forall command : string,
    CliChat.commandLineParser command = Index.commandLineParser command.
Proof.
  intros command.
  unfold CliChat.commandLineParser, Index.commandLineParser.
  f_equal.
Qed.

(** C7: the tokenizer emits a token with neither flag nor value: a match
    that consists of spaces only is not empty, so the guard on the whole
    match keeps it.  On the line [send Bob -] the third token has no flag
    and no value, and a string of one space yields one such token instead
    of the empty sequence. *)
Theorem tokenize_emits_blank_token :
  Index.commandLineParser "send Bob -"
  = [ mkArg None (Some "send"); mkArg None (Some "Bob"); mkArg None None ]
  /\ Index.commandLineParser " " = [ mkArg None None ].
Proof. split; vm_compute; reflexivity. Qed.

(** The empty string has no token. *)
Lemma tokenize_empty : Index.commandLineParser EmptyString = [].
Proof. vm_compute. reflexivity. Qed.

(** ** The procedures *)

Lemma run_outs {A : Type} (env : Env) (n : nat) (os : list Output)
      (k : Proc A) :
  run env n (outs os k)
  = ((map Wrote os ++ fst (run env n k))%list, snd (run env n k)).
Proof.
  induction os as [|o os IH]; simpl.
  - destruct (run env n k); reflexivity.
  - rewrite IH. reflexivity.
Qed.

Lemma anyCall_map_Wrote (os : list Output) : anyCall (map Wrote os) = false.
Proof. induction os; simpl; auto. Qed.

Lemma writes_map_Wrote (os : list Output) : writes (map Wrote os) = os.
Proof. induction os; simpl; congruence. Qed.

(** ** The reply target *)

(** C1: [respond], in [index.ts] and in [cli_chat.ts]: with a room the
    reply is said to the room whatever [self()] is; without a room and
    from self it is said to the listener, and when there is no listener
    the error is thrown and nothing is said; without a room and not from
    self it is said to the conversation of the message. *)
Theorem respond_reply_target :
  ResolvesReplyTarget Index.respond /\ ResolvesReplyTarget CliChat.respond.
Proof.
  split; intros env n response body r l fromSelf anyListener;
    repeat split; simpl;
    try (destruct (env n unit _) as [e|[]]; reflexivity).
Qed.

(** ** The send command *)

(** C4: a [send] line whose tokens leave the target or the message unset
    or empty: the usage line is written last, after the warnings of the
    loop, and the collaborator is not called at all (no [find], no
    [say]). *)
Theorem send_without_target_or_message :
  forall (syntaxOk : string -> bool)
         (line : string) (arg0 : Arg) (rest : list Arg)
         (env : Env) (n : nat),
    Index.commandLineParser (JsString.trim line) = arg0 :: rest ->
    value arg0 = Some "send" ->
    truthy (Index.target (fst (Index.sendLoop Index.sendInit rest))) = false
    \/ truthy (Index.message (fst (Index.sendLoop Index.sendInit rest)))
       = false ->
    exists p : Proc unit,
      Index.processCommand syntaxOk line = Alone p
      /\ let tr := fst (run env n p) in
         anyCall tr = false
         /\ writes tr
            = (snd (Index.sendLoop Index.sendInit rest)
                 ++ [Log [VStr (Index.usages "send")]])%list.
Proof.
  intros syntaxOk line arg0 rest env n Htok Hcmd Hmiss.
  exists (Index.sendCommand rest). split.
  { unfold Index.processCommand. rewrite Htok. cbv zeta.
    rewrite Hcmd. reflexivity. }
  cbv zeta. unfold Index.sendCommand.
  destruct (Index.sendLoop Index.sendInit rest) as [st written] eqn:Hloop.
  cbn [fst snd] in *.
  assert (Husage : (negb (truthy (Index.target st))
                    || negb (truthy (Index.message st)))%bool = true).
  { destruct Hmiss as [H|H]; rewrite H; cbn; auto using orb_true_r. }
  rewrite Husage, run_outs. cbn [run log fst snd].
  change (map Wrote written ++ [Wrote (Log [VStr (Index.usages "send")])])%list
    with (map Wrote written
            ++ map Wrote [Log [VStr (Index.usages "send")]])%list.
  rewrite <- map_app. split.
  - apply anyCall_map_Wrote.
  - apply writes_map_Wrote.
Qed.

(** The line [send Bob -t contact] of the specification. *)
Lemma send_without_message_example :
  truthy (Index.message
            (fst (Index.sendLoop Index.sendInit
                    [mkArg None (Some "Bob");
                     mkArg (Some "t") (Some "contact")]))) = false
  /\ exists p : Proc unit,
       Index.processCommand acceptAll "send Bob -t contact" = Alone p
       /\ let tr := fst (run emptyEnv 0 p) in
          anyCall tr = false
          /\ writes tr
             = (snd (Index.sendLoop Index.sendInit
                       [mkArg None (Some "Bob");
                        mkArg (Some "t") (Some "contact")])
                  ++ [Log [VStr (Index.usages "send")]])%list.
Proof.
  split; [reflexivity|].
  apply (send_without_target_or_message acceptAll
           "send Bob -t contact" (mkArg None (Some "send"))
           [mkArg None (Some "Bob"); mkArg (Some "t") (Some "contact")]
           emptyEnv 0).
  - vm_compute. reflexivity.
  - reflexivity.
  - right. reflexivity.
Defined.

Lemma sendLoop_app (st : Index.SendVars) (l1 l2 : list Arg) :
  Index.sendLoop st (l1 ++ l2)
  = (fst (Index.sendLoop (fst (Index.sendLoop st l1)) l2),
     (snd (Index.sendLoop st l1)
        ++ snd (Index.sendLoop (fst (Index.sendLoop st l1)) l2))%list).
Proof.
  revert st. induction l1 as [|a l1 IH]; intros st; cbn [app Index.sendLoop].
  - cbn [fst snd app]. destruct (Index.sendLoop st l2); reflexivity.
  - destruct (Index.sendStep st a) as [st1 o1].
    rewrite IH.
    destruct (Index.sendLoop st1 l1) as [st2 o2]. cbn [fst snd].
    destruct (Index.sendLoop st2 l2) as [st3 o3]. cbn [fst snd].
    rewrite app_assoc. reflexivity.
Qed.

Lemma sendStep_reported (st : Index.SendVars) (arg : Arg) :
  reportedBySend st arg = true ->
  Index.sendStep st arg = (st, sendWarning arg).
Proof.
  unfold reportedBySend, Index.sendStep, sendWarning. intros H.
  apply andb_prop in H as [H Hpos]. apply andb_prop in H as [Ht Hm].
  apply negb_true_iff in Ht, Hm. rewrite Ht, Hm.
  destruct (truthy (flag arg)); cbn in *; [reflexivity|].
  rewrite Hpos. reflexivity.
Qed.

Lemma sendStep_unreported (st : Index.SendVars) (arg : Arg) :
  reportedBySend st arg = false ->
  snd (Index.sendStep st arg) = [].
Proof.
  unfold reportedBySend, Index.sendStep. intros H.
  destruct (Index.flagIs (flag arg) "t" "targetType"); [reflexivity|].
  destruct (Index.flagIs (flag arg) "m" "message"); [reflexivity|].
  cbn in H. apply orb_false_iff in H as [Hf Ht]. rewrite Hf, Ht.
  reflexivity.
Qed.

Lemma flag_m_is_not_t (f : option string) :
  Index.flagIs f "m" "message" = true ->
  Index.flagIs f "t" "targetType" = false.
Proof.
  destruct f as [s|]; [|discriminate]. cbn [Index.flagIs]. intros H.
  apply orb_prop in H as [H|H]; apply String.eqb_eq in H; subst s;
    reflexivity.
Qed.

(** C8, as the code has it: in the loop of the [send] branch a token that
    carries an unrecognized flag, or a positional token that arrives when
    a target is already set, is reported by two written lines and leaves
    the variables as they were; every other token is taken without any
    report.  In both cases the tokens after it are processed from the
    resulting variables.  A [-t] or [-m] token is never reported, repeated
    or not: its value replaces the target type or the message. *)
Theorem send_reports_and_continues :
  forall (st : Index.SendVars) (before : list Arg) (arg : Arg)
         (after : list Arg),
    let st1 := fst (Index.sendLoop st before) in
    (reportedBySend st1 arg = true ->
     Index.sendLoop st (before ++ arg :: after)
     = (fst (Index.sendLoop st1 after),
        (snd (Index.sendLoop st before) ++ sendWarning arg
           ++ snd (Index.sendLoop st1 after))%list))
    /\ (reportedBySend st1 arg = false ->
        let st2 := fst (Index.sendStep st1 arg) in
        Index.sendLoop st (before ++ arg :: after)
        = (fst (Index.sendLoop st2 after),
           (snd (Index.sendLoop st before)
              ++ snd (Index.sendLoop st2 after))%list))
    /\ (Index.flagIs (flag arg) "t" "targetType" = true ->
        reportedBySend st1 arg = false
        /\ Index.targetType (fst (Index.sendStep st1 arg))
           = orElse (value arg) "contact")
    /\ (Index.flagIs (flag arg) "m" "message" = true ->
        reportedBySend st1 arg = false
        /\ Index.message (fst (Index.sendStep st1 arg))
           = Some (orElse (value arg) EmptyString)).
Proof.
  intros st before arg after st1. split; [|split; [|split]]; intros H.
  - rewrite sendLoop_app. fold st1. cbn [Index.sendLoop].
    rewrite (sendStep_reported _ _ H).
    destruct (Index.sendLoop st1 after) as [st3 o3]. reflexivity.
  - intros st2. rewrite sendLoop_app. fold st1. cbn [Index.sendLoop].
    pose proof (sendStep_unreported _ _ H) as Hout. subst st2.
    destruct (Index.sendStep st1 arg) as [st2 o2]. cbn [fst snd] in *.
    subst o2. destruct (Index.sendLoop st2 after) as [st3 o3]. reflexivity.
  - unfold reportedBySend, Index.sendStep. rewrite H. split; reflexivity.
  - unfold reportedBySend, Index.sendStep.
    rewrite (flag_m_is_not_t _ H), H. split; reflexivity.
Qed.

(** A second positional token is reported and the [-m] after it is still
    read; a second [-m] is not reported and replaces the first; a second
    [-t] is not reported and replaces the first. *)
Lemma send_reports_and_continues_example :
  (reportedBySend
     (fst (Index.sendLoop Index.sendInit [mkArg None (Some "Bob")]))
     (mkArg None (Some "Eve")) = true
   /\ Index.sendLoop Index.sendInit
        ([mkArg None (Some "Bob")] ++ mkArg None (Some "Eve")
           :: [mkArg (Some "m") (Some "hi")])
      = (Index.mkSendVars (Some "Bob") "contact" (Some "hi"),
         sendWarning (mkArg None (Some "Eve"))))
  /\ (reportedBySend
        (fst (Index.sendLoop Index.sendInit
                [mkArg None (Some "Bob"); mkArg (Some "m") (Some "hi")]))
        (mkArg (Some "m") (Some "there")) = false
      /\ Index.sendLoop Index.sendInit
           ([mkArg None (Some "Bob"); mkArg (Some "m") (Some "hi")]
              ++ mkArg (Some "m") (Some "there") :: [])
         = (Index.mkSendVars (Some "Bob") "contact" (Some "there"), []))
  /\ (Index.flagIs (flag (mkArg (Some "t") (Some "room"))) "t" "targetType"
      = true
      /\ Index.targetType
           (fst (Index.sendStep
                   (fst (Index.sendLoop Index.sendInit
                           [mkArg (Some "t") (Some "contact")]))
                   (mkArg (Some "t") (Some "room"))))
         = orElse (Some "room") "contact")
  /\ (Index.flagIs (flag (mkArg (Some "m") (Some "there"))) "m" "message"
      = true
      /\ Index.message
           (fst (Index.sendStep
                   (fst (Index.sendLoop Index.sendInit
                           [mkArg (Some "m") (Some "hi")]))
                   (mkArg (Some "m") (Some "there"))))
         = Some (orElse (Some "there") EmptyString)).
Proof.
  split; [|split; [|split]]; (split; [reflexivity|]).
  - apply (proj1 (send_reports_and_continues Index.sendInit
                    [mkArg None (Some "Bob")] (mkArg None (Some "Eve"))
                    [mkArg (Some "m") (Some "hi")])).
    reflexivity.
  - apply (proj1 (proj2 (send_reports_and_continues Index.sendInit
                    [mkArg None (Some "Bob"); mkArg (Some "m") (Some "hi")]
                    (mkArg (Some "m") (Some "there")) []))).
    reflexivity.
  - apply (proj1 (proj2 (proj2 (send_reports_and_continues Index.sendInit
                    [mkArg (Some "t") (Some "contact")]
                    (mkArg (Some "t") (Some "room")) [])))).
    reflexivity.
  - apply (proj2 (proj2 (proj2 (send_reports_and_continues Index.sendInit
                    [mkArg (Some "m") (Some "hi")]
                    (mkArg (Some "m") (Some "there")) [])))).
    reflexivity.
Defined.

(** C8 as stated fails: on the line [send Bob -m hi -m there] the second
    [-m] is a duplicate token, and the loop writes nothing for it; the
    message becomes the later value and the lookup goes ahead. *)
Lemma send_repeated_message_not_reported :
  Index.commandLineParser "send Bob -m hi -m there"
  = [ mkArg None (Some "send"); mkArg None (Some "Bob");
      mkArg (Some "m") (Some "hi"); mkArg (Some "m") (Some "there") ]
  /\ Index.sendLoop Index.sendInit
       [ mkArg None (Some "Bob"); mkArg (Some "m") (Some "hi");
         mkArg (Some "m") (Some "there") ]
     = (Index.mkSendVars (Some "Bob") "contact" (Some "there"), [])
  /\ exists p : Proc unit,
       Index.processCommand acceptAll "send Bob -m hi -m there" = Alone p
       /\ fst (run emptyEnv 0 p)
          = [ Called (ContactFind "Bob");
              Wrote (Log [VStr ("Error: contact " ++ JsString.quoted "Bob"
                                  ++ " not found.")]) ].
Proof.
  split; [vm_compute; reflexivity|]. split; [vm_compute; reflexivity|].
  eexists. split; [reflexivity|vm_compute; reflexivity].
Qed.

(** ** Pattern compilation *)

(** The characters [search] escapes are exactly the syntax characters of
    the pattern grammar. *)
Lemma isEscaped_isSyntaxCharacter (c : ascii) :
  Index.isEscaped c = RegExpEngine.isSyntaxCharacter c.
Proof.
  destruct c as [[] [] [] [] [] [] [] []]; reflexivity.
Qed.

Lemma parseLiteral_plain (c : ascii) (t : string) :
  RegExpEngine.isSyntaxCharacter c = false ->
  RegExpEngine.parseLiteral (String c t)
  = option_map (RegExpEngine.Seq (RegExpEngine.Chr c))
               (RegExpEngine.parseLiteral t).
Proof.
  destruct c as [[] [] [] [] [] [] [] []]; intros H;
    try discriminate H; reflexivity.
Qed.

Lemma parseLiteral_escaped (c : ascii) (t : string) :
  RegExpEngine.isSyntaxCharacter c = true ->
  RegExpEngine.parseLiteral (String "\" (String c t))
  = option_map (RegExpEngine.Seq (RegExpEngine.Chr c))
               (RegExpEngine.parseLiteral t).
Proof.
  intros H. cbn [RegExpEngine.parseLiteral]. rewrite H. reflexivity.
Qed.

(** The escaped text always parses, to the pattern that matches the
    characters of the raw text one after the other. *)
Lemma parseLiteral_escapePattern (p : string) :
  RegExpEngine.parseLiteral (Index.escapePattern p) = Some (literal p).
Proof.
  induction p as [|c t IH]; [reflexivity|].
  cbn [Index.escapePattern literal].
  destruct (Index.isEscaped c) eqn:E; rewrite isEscaped_isSyntaxCharacter in E.
  - rewrite (parseLiteral_escaped _ _ E), IH. reflexivity.
  - rewrite (parseLiteral_plain _ _ E), IH. reflexivity.
Qed.

Lemma newRegExp_escapePattern (syntaxOk : string -> bool) (p : string) :
  Index.newRegExp syntaxOk (Index.escapePattern p)
  = inr (mkRegExp (Index.escapePattern p) true).
Proof.
  unfold Index.newRegExp. rewrite parseLiteral_escapePattern. reflexivity.
Qed.

(** What the first statement of [search] does, by the two cases of its
    test. *)
Lemma compilePattern_cases (syntaxOk : string -> bool) (p : string) :
  Index.compilePattern syntaxOk p
  = if slashDelimited p then
      match Index.newRegExp syntaxOk (JsString.slice1m1 p) with
      | inr regex => Ret (Some regex)
      | inl _ => Out (Log [VStr "Invalid regular expression."]) (Ret None)
      end
    else Ret (Some (mkRegExp (Index.escapePattern p) true)).
Proof.
  unfold Index.compilePattern, slashDelimited.
  destruct (JsString.startsWith "/" p && JsString.endsWith "/" p)%bool;
    [reflexivity|].
  rewrite newRegExp_escapePattern. reflexivity.
Qed.

(** ** The search command *)

(** When both contact queries resolve to nothing, [search] returns right
    after reporting it, whatever the target type: with the target type
    unset the room query is never issued. *)
Lemma search_returns_when_no_contact (syntaxOk : string -> bool)
      (p : string) (regex : RegExp) (env : Env) (n : nat) :
  Index.compilePattern syntaxOk p = Ret (Some regex) ->
  env n _ (All2 (ContactFindAll (Some (ByName, regex)))
                (ContactFindAll (Some (ByAlias, regex)))) = inr ([], []) ->
  run env n (Index.search syntaxOk p None)
  = ([ Wrote (Log [VSource "Searching contacts using " regex " ..."]);
       Called (All2 (ContactFindAll (Some (ByName, regex)))
                    (ContactFindAll (Some (ByAlias, regex))));
       Wrote (Log [VStr "No matching contacts found :("]) ],
     inr tt).
Proof.
  intros Hc Henv. unfold Index.search. rewrite Hc.
  cbn. rewrite Henv. reflexivity.
Qed.

(** C2: the line [search .*] against a directory that has no contact and
    one room whose topic contains the two characters: the pattern handed
    to the directory matches that topic, yet the run ends with the report
    about contacts; the room query is not issued and nothing about rooms
    is written. *)
Theorem search_skips_rooms_after_no_contact :
  regexTest (mkRegExp "\.\*" true) (roomTopic dotStarRoom) = Some true
  /\ exists p : Proc unit,
       Index.processCommand acceptAll "search .*" = Alone p
       /\ run oneRoomEnv 0 p
          = ([ Wrote (Log [VSource "Searching contacts using "
                                   (mkRegExp "\.\*" true) " ..."]);
               Called (All2
                         (ContactFindAll
                            (Some (ByName, mkRegExp "\.\*" true)))
                         (ContactFindAll
                            (Some (ByAlias, mkRegExp "\.\*" true))));
               Wrote (Log [VStr "No matching contacts found :("]) ],
             inr tt).
Proof.
  split; [vm_compute; reflexivity|].
  eexists. split; [reflexivity|vm_compute; reflexivity].
Qed.

(** C10, as the code has it: a [search] line whose tokens give a
    non-empty pattern and, as the target type, a non-empty value that is
    neither room nor contact: the collaborator is not called and nothing
    is written, except the one line about an invalid regular expression
    when the pattern is slash-delimited and its interior does not
    compile. *)
Theorem search_unknown_target_type :
  forall (syntaxOk : string -> bool)
         (line : string) (arg0 : Arg) (rest : list Arg)
         (pattern targetType : string) (env : Env) (n : nat),
    Index.commandLineParser (JsString.trim line) = arg0 :: rest ->
    value arg0 = Some "search" ->
    Index.searchLoop None None rest
    = Index.Parsed (Some pattern) (Some targetType) ->
    pattern <> EmptyString ->
    targetType <> EmptyString ->
    targetType <> "room" ->
    targetType <> "contact" ->
    exists p : Proc unit,
      Index.processCommand syntaxOk line = Alone p
      /\ run env n p
         = (if slashDelimited pattern
               && negb (compiles (Index.newRegExp syntaxOk
                                                  (JsString.slice1m1 pattern)))
            then [Wrote (Log [VStr "Invalid regular expression."])]
            else [],
            inr tt).
Proof.
  intros syntaxOk line arg0 rest pattern targetType env n
         Htok Hcmd Hloop Hp Ht Hroom Hcontact.
  exists (Index.searchCommand syntaxOk rest). split.
  { unfold Index.processCommand. rewrite Htok. cbv zeta. rewrite Hcmd.
    reflexivity. }
  unfold Index.searchCommand. rewrite Hloop.
  apply String.eqb_neq in Hp, Ht, Hroom, Hcontact.
  unfold truthy, orElse, truthy. rewrite Hp. cbn [negb].
  unfold Index.search. rewrite compilePattern_cases.
  assert (Hwc : Index.wants (Some targetType) "contact" = false).
  { unfold Index.wants, truthy. rewrite Ht, Hcontact. reflexivity. }
  assert (Hwr : Index.wants (Some targetType) "room" = false).
  { unfold Index.wants, truthy. rewrite Ht, Hroom. reflexivity. }
  destruct (slashDelimited pattern); cbn [andb].
  - destruct (Index.newRegExp syntaxOk (JsString.slice1m1 pattern));
      cbn [compiles negb bind tryCatch run].
    + reflexivity.
    + rewrite Hwc, Hwr. reflexivity.
  - cbn [bind]. rewrite Hwc, Hwr. reflexivity.
Qed.

(** The line [search Adam -t group]. *)
Lemma search_unknown_target_type_example :
  (Index.commandLineParser (JsString.trim "search Adam -t group")
   = mkArg None (Some "search")
       :: [mkArg None (Some "Adam"); mkArg (Some "t") (Some "group")]
   /\ Index.searchLoop None None
        [mkArg None (Some "Adam"); mkArg (Some "t") (Some "group")]
      = Index.Parsed (Some "Adam") (Some "group"))
  /\ exists p : Proc unit,
       Index.processCommand acceptAll "search Adam -t group" = Alone p
       /\ run oneRoomEnv 0 p
          = (if slashDelimited "Adam"
                && negb (compiles (Index.newRegExp acceptAll
                                                   (JsString.slice1m1 "Adam")))
             then [Wrote (Log [VStr "Invalid regular expression."])]
             else [],
             inr tt).
Proof.
  split; [split; vm_compute; reflexivity|].
  apply (search_unknown_target_type acceptAll "search Adam -t group"
           (mkArg None (Some "search"))
           [mkArg None (Some "Adam"); mkArg (Some "t") (Some "group")]
           "Adam" "group" oneRoomEnv 0).
  - vm_compute. reflexivity.
  - reflexivity.
  - reflexivity.
  - discriminate.
  - discriminate.
  - discriminate.
  - discriminate.
Defined.

(** C10 as stated fails: on the line [search -t group] the flag carries a
    value that is neither room nor contact, and a usage error is
    written. *)
Lemma search_unknown_target_type_usage_error :
  Index.commandLineParser "search -t group"
  = [ mkArg None (Some "search"); mkArg (Some "t") (Some "group") ]
  /\ exists p : Proc unit,
       Index.processCommand acceptAll "search -t group" = Alone p
       /\ run emptyEnv 0 p
          = ([ Wrote (Log [VStr "Please provide a search pattern."]);
               Wrote (Log [VStr (Index.usages "search")]) ],
             inr tt).
Proof.
  split; [vm_compute; reflexivity|].
  eexists. split; [reflexivity|vm_compute; reflexivity].
Qed.

(** ** The engine on an escaped pattern *)

Section LiteralMatching.
Import RegExpEngine.

Variable ic : bool.











End LiteralMatching.

Lemma in_allAscii (ch : ascii) : In ch allAscii.
Proof.
  unfold allAscii. rewrite <- (ascii_nat_embedding ch).
  apply in_map, in_seq. pose proof (nat_ascii_bounded ch). lia.
Qed.




(** ** Slash-delimited and literal patterns *)














(** ** The engine: the bounds of its recursions are enough *)

Section Fuel.
Import RegExpEngine.
Local Open Scope list_scope.

Variable ic : bool.
Variable input : string.

Lemma setCapture_endIndex (n : nat) (v : option (nat * nat))
      (x : MatchState) :
  endIndex (setCapture n v x) = endIndex x.
Proof. reflexivity. Qed.

Lemma clearCaptures_endIndex (ns : list nat) (x : MatchState) :
  endIndex (clearCaptures ns x) = endIndex x.
Proof.
  unfold clearCaptures. revert x.
  induction ns as [|n ns IH]; intros x; cbn [fold_left]; [reflexivity|].
  rewrite IH. reflexivity.
Qed.

Lemma agreeFrom_later (e e' : nat) (c c' : Continuation) :
  e <= e' -> agreeFrom input e c c' -> agreeFrom input e' c c'.
Proof. intros Hle H y Hy Hlen. apply H; [lia|exact Hlen]. Qed.

(** RepeatMatcher does not depend on its fuel once the fuel covers the
    required iterations and the input that is left. *)
Lemma repeatMatcher_fuel (m : Matcher) (clear : MatchState -> MatchState)
      (greedy : bool) :
  Progressive input m ->
  (forall x : MatchState, endIndex (clear x) = endIndex x) ->
  forall (fuel fuel' min : nat) (max : option nat) (x : MatchState)
         (c c' : Continuation),
    endIndex x <= String.length input ->
    min + (String.length input - endIndex x) + 1 <= fuel ->
    min + (String.length input - endIndex x) + 1 <= fuel' ->
    agreeFrom input (endIndex x) c c' ->
    repeatMatcher m clear greedy fuel min max x c
    = repeatMatcher m clear greedy fuel' min max x c'.
Proof.
  intros Hm Hclear. induction fuel as [|fuel IH];
    intros fuel' min max x c c' Hx Hf Hf' Hc; [lia|].
  destruct fuel' as [|fuel']; [lia|]. cbn [repeatMatcher].
  assert (Hcx : c x = c' x) by (apply Hc; [lia|exact Hx]).
  destruct (maxIsZero max); [exact Hcx|].
  set (d := fun y : MatchState =>
              if (min =? 0) && (endIndex y =? endIndex x) then None
              else repeatMatcher m clear greedy fuel (pred min)
                                 (option_map pred max) y c).
  set (d' := fun y : MatchState =>
               if (min =? 0) && (endIndex y =? endIndex x) then None
               else repeatMatcher m clear greedy fuel' (pred min)
                                  (option_map pred max) y c').
  assert (Hd : m (clear x) d = m (clear x) d').
  { apply Hm; rewrite Hclear; [exact Hx|].
    intros y Hy Hlen. unfold d, d'.
    destruct ((min =? 0) && (endIndex y =? endIndex x)) eqn:E;
      [reflexivity|].
    apply IH; [exact Hlen| | |].
    - apply andb_false_iff in E as [E|E].
      + apply Nat.eqb_neq in E. lia.
      + apply Nat.eqb_neq in E. lia.
    - apply andb_false_iff in E as [E|E].
      + apply Nat.eqb_neq in E. lia.
      + apply Nat.eqb_neq in E. lia.
    - apply (agreeFrom_later (endIndex x)); [exact Hy|exact Hc]. }
  rewrite Hd, Hcx. reflexivity.
Qed.

Lemma get_some_length (s : string) (i : nat) (ch : ascii) :
  String.get i s = Some ch -> S i <= String.length s.
Proof.
  revert i. induction s as [|a s IH]; intros i H; [discriminate|].
  destruct i as [|i]; cbn in *; [lia|]. apply IH in H. lia.
Qed.

(** Every pattern is matched by a progressive matcher. *)
Lemma matcher_progressive (r : Regex) :
  Progressive input (matcher ic input r).
Proof.
  induction r as [|neg cs|a IHa b IHb|a IHa b IHb|min max greedy a IHa
                 |n a IHa|n]; intros x c c' Hx Hc; cbn [matcher].
  - apply Hc; [lia|exact Hx].
  - destruct (String.get (endIndex x) input) as [ch|] eqn:G; [|reflexivity].
    destruct (xorb neg (inSet ic ch cs)); [|reflexivity].
    apply get_some_length in G. apply Hc; cbn; lia.
  - apply IHa; [exact Hx|]. intros y Hy Hlen.
    apply IHb; [exact Hlen|].
    apply (agreeFrom_later (endIndex x)); assumption.
  - rewrite (IHa x c c' Hx Hc), (IHb x c c' Hx Hc). reflexivity.
  - apply repeatMatcher_fuel; try assumption; try lia.
    apply clearCaptures_endIndex.
  - apply IHa; [exact Hx|]. intros y Hy Hlen.
    apply Hc; rewrite setCapture_endIndex; assumption.
  - destruct (getCapture n x) as [[s e]|]; [|apply Hc; [lia|exact Hx]].
    destruct (endIndex x + (e - s) <=? String.length input) eqn:L;
      [|reflexivity].
    cbn [andb].
    destruct (String.eqb _ _); [|reflexivity].
    apply Nat.leb_le in L. apply Hc; cbn; lia.
Qed.

(** A quantifier gives the same result with any fuel above the bound; the
    fuel of [matcher] is one such. *)
Lemma quantifier_fuel (min : nat) (max : option nat) (greedy : bool)
      (a : Regex) (fuel : nat) (x : MatchState) (c : Continuation) :
  endIndex x <= String.length input ->
  min + (String.length input - endIndex x) + 1 <= fuel ->
  matcher ic input (Quant min max greedy a) x c
  = repeatMatcher (matcher ic input a) (clearCaptures (groups a)) greedy
                  fuel min max x c.
Proof.
  intros Hx Hf. cbn [matcher].
  apply repeatMatcher_fuel.
  - apply matcher_progressive.
  - apply clearCaptures_endIndex.
  - exact Hx.
  - lia.
  - exact Hf.
  - intros y _ _. reflexivity.
Qed.

(** The result of RepeatMatcher is a result of the continuation, on a
    state that is not behind. *)
Lemma repeatMatcher_advancing (m : Matcher)
      (clear : MatchState -> MatchState) (greedy : bool) :
  Advancing m ->
  (forall x : MatchState, endIndex (clear x) = endIndex x) ->
  forall (fuel min : nat) (max : option nat),
    Advancing (repeatMatcher m clear greedy fuel min max).
Proof.
  intros Hm Hclear. induction fuel as [|fuel IH];
    intros min max x z c H; [discriminate H|].
  cbn [repeatMatcher] in H.
  assert (Hself : c x = Some z ->
                  exists y, endIndex x <= endIndex y /\ c y = Some z)
    by (intros E; exists x; split; [lia|exact E]).
  assert (Hiter :
            m (clear x)
              (fun y : MatchState =>
                 if (min =? 0) && (endIndex y =? endIndex x) then None
                 else repeatMatcher m clear greedy fuel (pred min)
                                    (option_map pred max) y c) = Some z ->
            exists y, endIndex x <= endIndex y /\ c y = Some z).
  { intros E. apply Hm in E as (y1 & Hy1 & E). rewrite Hclear in Hy1.
    destruct ((min =? 0) && (endIndex y1 =? endIndex x));
      [discriminate E|].
    apply IH in E as (y & Hy & E). exists y. split; [lia|exact E]. }
  destruct (maxIsZero max); [auto|].
  destruct (negb (min =? 0)); [auto|].
  destruct greedy.
  - destruct (m (clear x) _) eqn:E; [|auto].
    injection H as ->. auto.
  - destruct (c x) eqn:E; [|auto].
    injection H as ->. exists x. split; [lia|exact E].
Qed.

Lemma matcher_advancing (r : Regex) : Advancing (matcher ic input r).
Proof.
  induction r as [|neg cs|a IHa b IHb|a IHa b IHb|min max greedy a IHa
                 |n a IHa|n]; intros x z c H; cbn [matcher] in H.
  - exists x. split; [lia|exact H].
  - destruct (String.get (endIndex x) input) as [ch|]; [|discriminate H].
    destruct (xorb neg (inSet ic ch cs)); [|discriminate H].
    eexists. split; [|exact H]. cbn. lia.
  - apply IHa in H as (y1 & Hy1 & H). apply IHb in H as (y & Hy & H).
    exists y. split; [lia|exact H].
  - destruct (matcher ic input a x c) eqn:E.
    + injection H as ->. apply IHa in E. exact E.
    + apply IHb in H. exact H.
  - apply repeatMatcher_advancing in H; auto.
    apply clearCaptures_endIndex.
  - apply IHa in H as (y & Hy & H). eexists. split; [|exact H].
    rewrite setCapture_endIndex. exact Hy.
  - destruct (getCapture n x) as [[s e]|].
    + destruct (_ && _); [|discriminate H].
      eexists. split; [|exact H]. cbn. lia.
    + exists x. split; [lia|exact H].
Qed.

(** A match found from [lastIndex] starts there or later and does not
    end before it starts. *)
Lemma execFrom_bounds (r : Regex) :
  forall (fuel lastIndex : nat) (m : MatchResult),
    execFrom fuel ic input r lastIndex = Some m ->
    lastIndex <= matchIndex m /\ matchIndex m <= matchEnd m.
Proof.
  induction fuel as [|fuel IH]; intros lastIndex m H; [discriminate H|].
  cbn [execFrom] in H.
  destruct (String.length input <? lastIndex); [discriminate H|].
  destruct (matchAt ic input r lastIndex) as [y|] eqn:E.
  - injection H as <-. cbn [matchIndex matchEnd].
    unfold matchAt in E. apply matcher_advancing in E as (y' & Hy & E).
    injection E as ->. cbn in Hy. lia.
  - apply IH in H. lia.
Qed.

(** The scan of [exec] does not depend on its fuel once the fuel covers
    the start indices that are left. *)
Lemma execFrom_fuel (r : Regex) :
  forall (fuel fuel' lastIndex : nat),
    String.length input + 2 - lastIndex <= fuel ->
    String.length input + 2 - lastIndex <= fuel' ->
    execFrom fuel ic input r lastIndex
    = execFrom fuel' ic input r lastIndex.
Proof.
  induction fuel as [|fuel IH]; intros fuel' lastIndex Hf Hf'.
  - destruct fuel' as [|fuel']; [reflexivity|]. cbn [execFrom].
    destruct (String.length input <? lastIndex) eqn:L; [reflexivity|].
    apply Nat.ltb_ge in L. lia.
  - cbn [execFrom].
    destruct (String.length input <? lastIndex) eqn:L.
    + destruct fuel'; cbn [execFrom]; [|rewrite L]; reflexivity.
    + pose proof L as L'. apply Nat.ltb_ge in L'.
      destruct fuel' as [|fuel']; [lia|].
      cbn [execFrom]. rewrite L.
      destruct (matchAt ic input r lastIndex); [reflexivity|].
      apply IH; lia.
Qed.

End Fuel.

(** The iteration of [matchAll] does not depend on its fuel once the fuel
    covers the indices that are left: every step moves [lastIndex] on. *)
Lemma matchAllFrom_fuel (input : string) (r : RegExpEngine.Regex) :
  forall (fuel fuel' lastIndex : nat),
    String.length input + 2 - lastIndex <= fuel ->
    String.length input + 2 - lastIndex <= fuel' ->
    RegExpEngine.matchAllFrom fuel input r lastIndex
    = RegExpEngine.matchAllFrom fuel' input r lastIndex.
Proof.
  assert (Hstop : forall lastIndex : nat,
             String.length input + 2 <= lastIndex ->
             RegExpEngine.exec false input r lastIndex = None).
  { intros lastIndex H. unfold RegExpEngine.exec.
    replace (String.length input + 2 - lastIndex) with 0 by lia.
    reflexivity. }
  induction fuel as [|fuel IH]; intros fuel' lastIndex Hf Hf'.
  - destruct fuel' as [|fuel']; [reflexivity|].
    cbn [RegExpEngine.matchAllFrom]. rewrite Hstop; [reflexivity|lia].
  - cbn [RegExpEngine.matchAllFrom].
    destruct (RegExpEngine.exec false input r lastIndex) as [m|] eqn:E.
    + destruct fuel' as [|fuel'].
      * rewrite Hstop in E; [discriminate E|lia].
      * cbn [RegExpEngine.matchAllFrom]. rewrite E. f_equal.
        apply execFrom_bounds in E as [Hstart Hend].
        destruct (RegExpEngine.matchEnd m =? RegExpEngine.matchIndex m)
                 eqn:Q; apply IH; try lia.
        -- apply Nat.eqb_neq in Q. lia.
        -- apply Nat.eqb_neq in Q. lia.
    + destruct fuel'; cbn [RegExpEngine.matchAllFrom];
        [|rewrite E]; reflexivity.
Qed.

(** The tokenizer with more fuel for the iteration of [matchAll] returns
    the same tokens. *)
Lemma commandLineParser_fuel (command : string) (extra : nat) :
  flat_map Index.argOfMatch
           (RegExpEngine.matchAllFrom (String.length command + 2 + extra)
                                      command Index.regex 0)
  = Index.commandLineParser command.
Proof.
  unfold Index.commandLineParser, RegExpEngine.matchAll.
  f_equal. apply matchAllFrom_fuel; lia.
Qed.

(** ** The line listener and the event loop *)

Section EventLoop.
Import Index.
Local Open Scope list_scope.

Variable syntaxOk : string -> bool.

Lemma issued_app (n : nat) (t u : list ConsoleEvent) :
  issued n (t ++ u) = issued n t + issued n u.
Proof. unfold issued. rewrite filter_app, length_app. reflexivity. Qed.

Lemma settled_app (n : nat) (t u : list ConsoleEvent) :
  settled n (t ++ u) = settled n t + settled n u.
Proof. unfold settled. rewrite filter_app, length_app. reflexivity. Qed.

(** Events of other lines do not count for line [m]. *)
Lemma other_line_counts (n m : nat) (es : list ConsoleEvent) :
  Forall (fun e => lineOf e = n) es -> m <> n ->
  issued m es = 0 /\ settled m es = 0 /\ ~ In (Prompted m) es
  /\ Forall (fun e => lineOf e <> m) es
  /\ forall line : string, ~ In (Dispatched m line) es.
Proof.
  intros H Hmn. induction H as [|e es He _ IH].
  - repeat split; auto.
  - destruct IH as (Hi & Hs & Hp & Hf & Hd).
    assert (Hne : (lineOf e =? m) = false)
      by (apply Nat.eqb_neq; congruence).
    split; [|split; [|split; [|split]]].
    + unfold issued in *. cbn [filter].
      destruct e; cbn in *; try rewrite Hne; assumption.
    + unfold settled in *. cbn [filter].
      destruct e; cbn in *; try rewrite Hne; assumption.
    + intros [E|E]; [subst e; cbn in He; congruence|contradiction].
    + constructor; [congruence|assumption].
    + intros line [E|E]; [subst e; cbn in He; congruence|].
      exact (Hd line E).
Qed.

Lemma fresh_line_counts (n : nat) (t : list ConsoleEvent) :
  Forall (fun e => lineOf e < n) t ->
  issued n t = 0 /\ settled n t = 0 /\ ~ In (Prompted n) t
  /\ forall line : string, ~ In (Dispatched n line) t.
Proof.
  intros H. induction H as [|e t He _ IH].
  - repeat split; auto.
  - destruct IH as (Hi & Hs & Hp & Hd).
    assert (Hne : (lineOf e =? n) = false) by (apply Nat.eqb_neq; lia).
    split; [|split; [|split]].
    + unfold issued in *. cbn [filter].
      destruct e; cbn in *; try rewrite Hne; assumption.
    + unfold settled in *. cbn [filter].
      destruct e; cbn in *; try rewrite Hne; assumption.
    + intros [E|E]; [subst e; cbn in He; lia|contradiction].
    + intros line [E|E]; [subst e; cbn in He; lia|].
      exact (Hd line E).
Qed.

(** One run of a listener up to its suspension or its end. *)
Lemma lineListener_spec (n : nat) (p : Proc unit) :
  Forall (fun e => lineOf e = n) (fst (lineListener n p))
  /\ settled n (fst (lineListener n p)) = 0
  /\ (forall (m : nat) (line : string),
         ~ In (Dispatched m line) (fst (lineListener n p)))
  /\ match snd (lineListener n p) with
     | Some w =>
         suspendedLine w = n
         /\ isListing w = false
         /\ issued n (fst (lineListener n p)) = 1
         /\ ~ In (Prompted n) (fst (lineListener n p))
     | None =>
         exists es' : list ConsoleEvent,
           fst (lineListener n p) = es' ++ [Prompted n]
           /\ In (Returned n) es'
           /\ ~ In (Prompted n) es'
           /\ issued n es' = 0
     end.
Proof.
  induction p as [a|e|o k IH|X c k IH]; cbn [lineListener].
  - cbn [fst snd]. split; [|split; [|split]]; auto.
    + intros m line [H|[H|[]]]; discriminate H.
    + exists [Returned n]. repeat split; cbn; auto.
      intros [H|[]]; discriminate H.
  - cbn [fst snd]. split; [|split; [|split]]; auto.
    + intros m line [H|[H|[H|[]]]]; discriminate H.
    + exists [Returned n; Written n (Log [VExn e])].
      repeat split; cbn; auto.
      intros [H|[H|[]]]; discriminate H.
  - destruct (lineListener n k) as [es s]. cbn [fst snd] in *.
    destruct IH as (Hall & Hset & Hd & Hend).
    split; [|split; [|split]]; auto.
    + intros m line [H|H]; [discriminate H|exact (Hd m line H)].
    + destruct s as [w|].
      * destruct Hend as (Hw & Hl & Hi & Hp). repeat split; auto.
        intros [H|H]; [discriminate H|auto].
      * destruct Hend as (es' & -> & Hr & Hp & Hi).
        exists (Written n o :: es'). repeat split; cbn; auto.
        intros [H|H]; [discriminate H|auto].
  - cbn [fst snd]. split; [|split; [|split]]; auto.
    + intros m line [H|[]]; discriminate H.
    + repeat split; auto.
      * unfold issued. cbn. rewrite Nat.eqb_refl. reflexivity.
      * intros [H|[]]; discriminate H.
Qed.

(** One run of a closure up to its suspension or its end. *)
Lemma closure_spec (n : nat) (p : Proc unit) :
  Forall (fun e => lineOf e = n) (fst (closure n p))
  /\ (forall m : nat, ~ In (Prompted m) (fst (closure n p)))
  /\ (forall (m : nat) (line : string),
         ~ In (Dispatched m line) (fst (closure n p)))
  /\ match snd (closure n p) with
     | inl w => suspendedLine w = n /\ isListing w = true
     | inr _ => True
     end.
Proof.
  induction p as [a|e|o k IH|X c k IH]; cbn [closure].
  - cbn [fst snd]. repeat split; auto.
  - cbn [fst snd]. repeat split; auto.
  - destruct (closure n k) as [es s]. cbn [fst snd] in *.
    destruct IH as (Hall & Hp & Hd & Hend).
    split; [|split; [|split]]; auto.
    + intros m [H|H]; [discriminate H|exact (Hp m H)].
    + intros m line [H|H]; [discriminate H|exact (Hd m line H)].
  - cbn [fst snd]. split; [|split; [|split]]; auto.
    + intros m [H|[]]; discriminate H.
    + intros m line [H|[]]; discriminate H.
Qed.

(** The listener once its [Promise.all] has settled. *)
Lemma afterAll_spec (n : nat) (r : Exn + unit) :
  Forall (fun e => lineOf e = n) (afterAll n r)
  /\ (forall (m : nat) (line : string),
         ~ In (Dispatched m line) (afterAll n r))
  /\ exists pre : list ConsoleEvent,
       afterAll n r = pre ++ [Prompted n]
       /\ In (Returned n) pre
       /\ ~ In (Prompted n) pre.
Proof.
  destruct r as [e|u]; cbn [afterAll].
  - split; [|split].
    + repeat constructor.
    + intros m line [H|[H|[H|[]]]]; discriminate H.
    + exists [Returned n; Written n (Log [VExn e])].
      repeat split; cbn; auto.
      intros [H|[H|[]]]; discriminate H.
  - split; [|split].
    + repeat constructor.
    + intros m line [H|[H|[]]]; discriminate H.
    + exists [Returned n]. repeat split; cbn; auto.
      intros [H|[]]; discriminate H.
Qed.

(** Splitting a list at an element that occurs last and only there. *)
Lemma split_at_last {A : Type} (a : A) (l1 l2 r : list A) :
  ~ In a l1 -> l1 ++ [a] = l2 ++ a :: r -> l2 = l1 /\ r = [].
Proof.
  revert l2. induction l1 as [|x l1 IH]; intros l2 Hn E.
  - destruct l2 as [|y l2]; cbn in E.
    + injection E as <-. auto.
    + injection E as _ E. destruct l2; discriminate E.
  - destruct l2 as [|y l2]; cbn in E.
    + injection E as -> _. exfalso. apply Hn. left. reflexivity.
    + injection E as -> E. apply IH in E as [-> ->]; auto.
      intros H. apply Hn. right. exact H.
Qed.

(** Where an element of two lists put together lies. *)
Lemma split_app {A : Type} (a : A) (t es t1 t2 : list A) :
  t ++ es = t1 ++ a :: t2 ->
  (exists l : list A, t = t1 ++ a :: l /\ t2 = l ++ es)
  \/ (exists l : list A, t1 = t ++ l /\ es = l ++ a :: t2).
Proof.
  intros E. apply app_eq_app in E as [l [[E1 E2]|[E1 E2]]].
  - destruct l as [|x l]; cbn in E2.
    + right. exists []. rewrite app_nil_r in E1. split; [|auto].
      rewrite E1, app_nil_r. reflexivity.
    + injection E2 as <- ->. left. exists l. split; [exact E1|reflexivity].
  - right. exists l. split; [exact E1|exact E2].
Qed.

Lemma alone_not_joint (t : list ConsoleEvent) (n : nat) :
  runsAlone syntaxOk t n -> runsJointly syntaxOk t n -> False.
Proof.
  intros Ha (line & Hin & Hj). rewrite (Ha line Hin) in Hj.
  discriminate Hj.
Qed.

Lemma runsAlone_same (t t' : list ConsoleEvent) (n : nat) :
  (forall line : string,
      In (Dispatched n line) t' -> In (Dispatched n line) t) ->
  runsAlone syntaxOk t n -> runsAlone syntaxOk t' n.
Proof. intros H Ha line Hin. apply Ha, H, Hin. Qed.

Lemma runsJointly_more (t t' : list ConsoleEvent) (n : nat) :
  (forall line : string,
      In (Dispatched n line) t -> In (Dispatched n line) t') ->
  runsJointly syntaxOk t n -> runsJointly syntaxOk t' n.
Proof.
  intros H (line & Hin & Hj). exists line. split; [apply H, Hin|exact Hj].
Qed.

(** One step of the event loop: the trace grows by events of line [n],
    and what is suspended or awaited changes for line [n] only.  What
    the step has to show is what holds of line [n] after it. *)
Lemma step_reachable (st st' : Console) (n : nat)
      (es : list ConsoleEvent) :
  Reachable syntaxOk st ->
  trace st' = trace st ++ es ->
  Forall (fun e => lineOf e = n) es ->
  n < dispatched st' ->
  (forall m : nat, m <> n -> m < dispatched st' <-> m < dispatched st) ->
  (forall m : nat, m <> n ->
      In m (waitingLines st') <-> In m (waitingLines st)) ->
  (forall m : nat, m <> n ->
      In m (listingLines st') <-> In m (listingLines st)) ->
  (forall m : nat, m <> n ->
      In m (awaitingAll st') <-> In m (awaitingAll st)) ->
  NoDup (waitingLines st') ->
  NoDup (awaitingAll st') ->
  (forall line line' : string,
      In (Dispatched n line) (trace st') ->
      In (Dispatched n line') (trace st') -> line = line') ->
  (In n (waitingLines st') ->
   runsAlone syntaxOk (trace st') n
   /\ issued n (trace st') = S (settled n (trace st'))
   /\ ~ In (Prompted n) (trace st')) ->
  (In n (listingLines st') -> runsJointly syntaxOk (trace st') n) ->
  (runsAlone syntaxOk (trace st') n -> ~ In n (waitingLines st') ->
   issued n (trace st') = settled n (trace st')) ->
  (In n (awaitingAll st') ->
   In n (listingLines st') /\ ~ In (Prompted n) (trace st')) ->
  (In n (waitingLines st') \/ In n (awaitingAll st')
   \/ In (Prompted n) (trace st')) ->
  (forall t1 t2 : list ConsoleEvent,
      trace st' = t1 ++ Prompted n :: t2 ->
      In (Returned n) t1
      /\ ~ In (Prompted n) t1
      /\ ~ In (Prompted n) t2
      /\ (runsAlone syntaxOk (trace st') n ->
          issued n t1 = settled n t1
          /\ Forall (fun e => lineOf e <> n) t2)) ->
  Reachable syntaxOk st'.
Proof.
  intros [HA HB HC HD HE HF HG HH HI HJ] Ht Hes Hn Hdis Hwait Hlist Hawait
         Hnd1 Hnd2 Nonce Nwait Nlist Nalone Nawait Nserved Nprompt.
  assert (Hdisp : forall (m : nat) (line : string),
             m <> n ->
             In (Dispatched m line) (trace st')
             <-> In (Dispatched m line) (trace st)).
  { intros m line Hmn. rewrite Ht, in_app_iff.
    destruct (other_line_counts n m es Hes Hmn) as (_ & _ & _ & _ & Hd).
    split; [intros [H|H]; [exact H|destruct (Hd line H)]|auto]. }
  assert (Halone : forall m : nat,
             m <> n ->
             runsAlone syntaxOk (trace st') m
             <-> runsAlone syntaxOk (trace st) m).
  { intros m Hmn. split; apply runsAlone_same; intros line;
      apply Hdisp; exact Hmn. }
  constructor.
  - rewrite Ht. apply Forall_app. split.
    + rewrite Forall_forall in *. intros e He.
      destruct (Nat.eq_dec (lineOf e) n) as [E|E]; [lia|].
      apply Hdis; [exact E|]. apply HA, He.
    + eapply Forall_impl; [|exact Hes]. cbn. intros e He. lia.
  - intros m line line' H1 H2. destruct (Nat.eq_dec m n) as [->|Hmn].
    + exact (Nonce line line' H1 H2).
    + apply (HB m); apply Hdisp; assumption.
  - exact Hnd1.
  - intros m Hm. destruct (Nat.eq_dec m n) as [->|Hmn].
    + destruct (Nwait Hm) as (H1 & H2 & H3). auto.
    + apply Hwait in Hm; [|exact Hmn].
      destruct (HD m Hm) as (Hlt & Hra & Hcount & Hp).
      destruct (other_line_counts n m es Hes Hmn)
        as (Hi0 & Hs0 & Hp0 & _ & _).
      split; [apply Hdis; assumption|].
      split; [apply Halone; assumption|].
      rewrite Ht, issued_app, settled_app, Hi0, Hs0, !Nat.add_0_r.
      split; [exact Hcount|].
      intros H. apply in_app_or in H as [H|H]; auto.
  - intros m Hm. destruct (Nat.eq_dec m n) as [->|Hmn].
    + exact (Nlist Hm).
    + apply Hlist in Hm; [|exact Hmn].
      apply (runsJointly_more (trace st)); [|exact (HE m Hm)].
      intros line. apply Hdisp. exact Hmn.
  - intros m Hra Hm. destruct (Nat.eq_dec m n) as [->|Hmn].
    + exact (Nalone Hra Hm).
    + destruct (other_line_counts n m es Hes Hmn)
        as (Hi0 & Hs0 & _ & _ & _).
      rewrite Ht, issued_app, settled_app, Hi0, Hs0, !Nat.add_0_r.
      apply HF; [apply Halone; assumption|].
      intros H. apply Hm, Hwait; assumption.
  - exact Hnd2.
  - intros m Hm. destruct (Nat.eq_dec m n) as [->|Hmn].
    + exact (Nawait Hm).
    + apply Hawait in Hm; [|exact Hmn].
      destruct (HH m Hm) as (Hl & Hp).
      destruct (other_line_counts n m es Hes Hmn)
        as (_ & _ & Hp0 & _ & _).
      split; [apply Hlist; assumption|].
      rewrite Ht. intros H. apply in_app_or in H as [H|H]; auto.
  - intros m Hm. destruct (Nat.eq_dec m n) as [->|Hmn].
    + exact Nserved.
    + apply Hdis in Hm; [|exact Hmn].
      destruct (HI m Hm) as [H|[H|H]].
      * left. apply Hwait; assumption.
      * right. left. apply Hawait; assumption.
      * right. right. rewrite Ht. apply in_or_app. left. exact H.
  - intros m t1 t2 E. destruct (Nat.eq_dec m n) as [->|Hmn].
    + exact (Nprompt t1 t2 E).
    + destruct (other_line_counts n m es Hes Hmn)
        as (_ & _ & Hp0 & Hf0 & _).
      rewrite Ht in E. apply split_app in E as [(l & E1 & ->)|(l & _ & E2)].
      * destruct (HJ m t1 l E1) as (Hr & Hp1 & Hp2 & Hal).
        split; [exact Hr|]. split; [exact Hp1|].
        split.
        -- intros H. apply in_app_or in H as [H|H]; auto.
        -- intros Hra. apply Halone in Hra; [|exact Hmn].
           destruct (Hal Hra) as (Hc & Hf). split; [exact Hc|].
           apply Forall_app. split; assumption.
      * exfalso. apply Hp0. rewrite E2. apply in_or_app. right.
        left. reflexivity.
Qed.

Local Notation "'waitingOf' l" :=
  (map suspendedLine (filter (fun s => negb (isListing s)) l))
    (at level 10, l at level 9).
Local Notation "'listingsOf' l" :=
  (map suspendedLine (filter isListing l)) (at level 10, l at level 9).

Lemma waitingOf_app (a b : list Suspended) :
  waitingOf (a ++ b) = waitingOf a ++ waitingOf b.
Proof. rewrite filter_app, map_app. reflexivity. Qed.

Lemma listingsOf_app (a b : list Suspended) :
  listingsOf (a ++ b) = listingsOf a ++ listingsOf b.
Proof. rewrite filter_app, map_app. reflexivity. Qed.

Lemma initial_reachable : Reachable syntaxOk initial.
Proof.
  constructor; cbn.
  - constructor.
  - intros n line line' [].
  - constructor.
  - intros n [].
  - intros n [].
  - reflexivity.
  - constructor.
  - intros n [].
  - intros n H. lia.
  - intros n t1 t2 E. destruct t1; discriminate E.
Qed.

(** A line that has not been dispatched is not suspended and awaits
    nothing. *)
Lemma fresh_line (st : Console) :
  Reachable syntaxOk st ->
  ~ In (dispatched st) (waitingLines st)
  /\ ~ In (dispatched st) (listingLines st)
  /\ ~ In (dispatched st) (awaitingAll st)
  /\ issued (dispatched st) (trace st) = 0
  /\ settled (dispatched st) (trace st) = 0
  /\ ~ In (Prompted (dispatched st)) (trace st)
  /\ forall line : string, ~ In (Dispatched (dispatched st) line) (trace st).
Proof.
  intros [HA HB HC HD HE HF HG HH HI HJ].
  destruct (fresh_line_counts (dispatched st) (trace st) HA)
    as (Hi0 & Hs0 & Hp0 & Hd0).
  assert (Hl : ~ In (dispatched st) (listingLines st)).
  { intros H. apply HE in H as (line & Hin & _). exact (Hd0 line Hin). }
  split; [|split; [|split]]; auto.
  - intros H. apply HD in H as (H & _). lia.
  - intros H. apply HH in H as (H & _). exact (Hl H).
Qed.

Lemma submit_alone_reachable (line : string) (p : Proc unit)
      (st : Console) :
  processCommand syntaxOk line = Alone p ->
  Reachable syntaxOk st ->
  Reachable syntaxOk (submit syntaxOk line st).
Proof.
  intros Hcmd Hst.
  destruct (fresh_line st Hst) as (Fw & Fl & Fa & Fi & Fs & Fp & Fd).
  pose proof Hst as [HA HB HC HD HE HF HG HH HI HJ].
  set (n := dispatched st) in *.
  pose proof (lineListener_spec n p) as (Lall & Lset & Ldis & Lend).
  unfold submit. rewrite Hcmd. fold n.
  destruct (lineListener n p) as [les s] eqn:El. cbn [fst snd] in *.
  assert (Hsing : waitingOf (optList s)
                  = match s with Some _ => [n] | None => [] end
                  /\ listingsOf (optList s) = []).
  { destruct s as [w|]; cbn [optList filter map]; [|auto].
    destruct Lend as (Hw & Hl & _). rewrite Hl. cbn. rewrite Hw. auto. }
  destruct Hsing as [Hws Hls].
  assert (Hin : forall l : string,
             In (Dispatched n l) (trace st ++ Dispatched n line :: les) ->
             l = line).
  { intros l H. apply in_app_or in H as [H|[H|H]].
    - destruct (Fd l H).
    - congruence.
    - destruct (Ldis n l H). }
  assert (Hra : runsAlone syntaxOk
                  (trace st ++ Dispatched n line :: les) n).
  { intros l H. apply Hin in H. subst l. rewrite Hcmd. reflexivity. }
  apply (step_reachable st _ n (Dispatched n line :: les) Hst);
    unfold waitingLines, listingLines;
    cbn [trace dispatched suspended awaitingAll].
  - reflexivity.
  - constructor; [reflexivity|exact Lall].
  - lia.
  - intros m Hm. unfold n. lia.
  - intros m Hm. rewrite waitingOf_app, in_app_iff, Hws.
    split; [|auto]. intros [H|H]; [exact H|].
    destruct s; cbn in H; [destruct H as [H|[]]; congruence|contradiction].
  - intros m Hm. rewrite listingsOf_app, Hls, app_nil_r. reflexivity.
  - reflexivity.
  - rewrite waitingOf_app, Hws. apply NoDup_app; [exact HC| |].
    + destruct s; repeat constructor. intros [].
    + intros a Ha H. destruct s; cbn in H; [|exact H].
      destruct H as [H|[]]. subst a. exact (Fw Ha).
  - exact HG.
  - intros l l' H1 H2. apply Hin in H1, H2. congruence.
  - rewrite waitingOf_app, in_app_iff, Hws. intros [H|H]; [destruct (Fw H)|].
    destruct s as [w|]; [|destruct H].
    destruct Lend as (_ & _ & Hi1 & Hp1).
    split; [exact Hra|]. split.
    + change (trace st ++ Dispatched n line :: les)
        with (trace st ++ [Dispatched n line] ++ les).
      rewrite !issued_app, !settled_app, Fi, Fs, Hi1, Lset. reflexivity.
    + intros H'. apply in_app_or in H' as [H'|[H'|H']];
        [exact (Fp H')|discriminate H'|exact (Hp1 H')].
  - rewrite listingsOf_app, Hls, app_nil_r. intros H. destruct (Fl H).
  - intros _. rewrite waitingOf_app, in_app_iff, Hws. intros Hnot.
    destruct s as [w|]; [exfalso; apply Hnot; right; left; reflexivity|].
    destruct Lend as (es' & Ees & _ & _ & Hi0).
    change (trace st ++ Dispatched n line :: les)
      with (trace st ++ [Dispatched n line] ++ les).
    rewrite !issued_app, !settled_app, Fi, Fs, Lset.
    rewrite Ees, issued_app, Hi0. reflexivity.
  - intros H. destruct (Fa H).
  - destruct s as [w|].
    + left. rewrite waitingOf_app, in_app_iff, Hws. right. left.
      reflexivity.
    + right. right. destruct Lend as (es' & -> & _).
      apply in_or_app. right. right. apply in_or_app. right. left.
      reflexivity.
  - intros t1 t2 E.
    apply split_app in E as [(l & E1 & _)|(l & E1 & E2)].
    { exfalso. apply Fp. rewrite E1. apply in_or_app. right. left.
      reflexivity. }
    destruct l as [|x l]; cbn in E2; [discriminate E2|].
    injection E2 as <- E2.
    destruct s as [w|].
    { exfalso. destruct Lend as (_ & _ & _ & Hp1). apply Hp1.
      rewrite E2. apply in_or_app. right. left. reflexivity. }
    destruct Lend as (es' & Ees & Hr & Hp & Hi0).
    rewrite Ees in E2. apply split_at_last in E2 as [-> ->]; [|exact Hp].
    subst t1. split; [|split; [|split]].
    + apply in_or_app. right. right. exact Hr.
    + intros H. apply in_app_or in H as [H|[H|H]];
        [exact (Fp H)|discriminate H|exact (Hp H)].
    + intros [].
    + intros _. split; [|constructor].
      change (trace st ++ Dispatched n line :: es')
        with (trace st ++ [Dispatched n line] ++ es').
      rewrite !issued_app, !settled_app, Fi, Fs, Hi0.
      rewrite Ees, settled_app in Lset. cbn. lia.
Qed.

Lemma pendingOf_spec (n : nat) (p : Proc unit) :
  waitingOf (pendingOf (snd (closure n p))) = []
  /\ listingsOf (pendingOf (snd (closure n p)))
     = match snd (closure n p) with inl _ => [n] | inr _ => [] end.
Proof.
  destruct (closure_spec n p) as (_ & _ & _ & H).
  destruct (snd (closure n p)) as [w|r]; cbn [pendingOf filter map];
    [|auto].
  destruct H as [Hw Hl]. rewrite Hl. cbn. rewrite Hw. auto.
Qed.

Lemma submit_joint_reachable (line : string) (a b : Proc unit)
      (st : Console) :
  processCommand syntaxOk line = Joint a b ->
  Reachable syntaxOk st ->
  Reachable syntaxOk (submit syntaxOk line st).
Proof.
  intros Hcmd Hst.
  destruct (fresh_line st Hst) as (Fw & Fl & Fa & Fi & Fs & Fp & Fd).
  pose proof Hst as [HA HB HC HD HE HF HG HH HI HJ].
  set (n := dispatched st) in *.
  pose proof (closure_spec n a) as (Aall & Ap & Adis & _).
  pose proof (closure_spec n b) as (Ball & Bp & Bdis & _).
  pose proof (pendingOf_spec n a) as (Aw & Al).
  pose proof (pendingOf_spec n b) as (Bw & Bl).
  unfold submit. rewrite Hcmd. fold n.
  destruct (closure n a) as [ea sa] eqn:Ea.
  destruct (closure n b) as [eb sb] eqn:Eb. cbn [fst snd] in *.
  assert (Hw : waitingOf (pendingOf sa ++ pendingOf sb) = []).
  { rewrite waitingOf_app, Aw, Bw. reflexivity. }
  assert (Hl : forall m : nat,
             In m (listingsOf (pendingOf sa ++ pendingOf sb)) -> m = n).
  { intros m. rewrite listingsOf_app, Al, Bl, in_app_iff.
    intros [H|H]; [destruct sa|destruct sb]; cbn in H;
      try contradiction; destruct H as [H|[]]; congruence. }
  assert (Hin : forall (after : list ConsoleEvent) (l : string),
             (forall (m : nat) (l' : string),
                 ~ In (Dispatched m l') after) ->
             In (Dispatched n l)
                (trace st ++ Dispatched n line :: ea ++ eb ++ after) ->
             l = line).
  { intros after l Hafter H. apply in_app_or in H as [H|[H|H]].
    - destruct (Fd l H).
    - congruence.
    - apply in_app_or in H as [H|H]; [destruct (Adis n l H)|].
      apply in_app_or in H as [H|H]; [destruct (Bdis n l H)|].
      destruct (Hafter n l H). }
  assert (Hjoint : forall t : list ConsoleEvent,
             runsJointly syntaxOk (trace st ++ Dispatched n line :: t) n).
  { intros t. exists line. split.
    - apply in_or_app. right. left. reflexivity.
    - rewrite Hcmd. reflexivity. }
  assert (Hnot : forall t : list ConsoleEvent,
             runsAlone syntaxOk (trace st ++ Dispatched n line :: t) n ->
             False).
  { intros t H. exact (alone_not_joint _ _ H (Hjoint t)). }
  assert (Hbatch : forall after : list ConsoleEvent,
             Forall (fun e => lineOf e = n) after ->
             Forall (fun e => lineOf e = n)
                    (Dispatched n line :: ea ++ eb ++ after)).
  { intros after H. constructor; [reflexivity|].
    apply Forall_app. split; [exact Aall|].
    apply Forall_app. split; [exact Ball|exact H]. }
  assert (Hother : forall m : nat,
             m <> n ->
             (In m (waitingOf (suspended st
                                 ++ pendingOf sa ++ pendingOf sb))
              <-> In m (waitingLines st))
             /\ (In m (listingsOf (suspended st
                                     ++ pendingOf sa ++ pendingOf sb))
                 <-> In m (listingLines st))).
  { intros m Hm. rewrite waitingOf_app, listingsOf_app, Hw, app_nil_r.
    split; [reflexivity|]. rewrite in_app_iff. split; [|auto].
    intros [H|H]; [exact H|]. apply Hl in H. congruence. }
  assert (Hwno : ~ In n (waitingOf (suspended st
                                      ++ pendingOf sa ++ pendingOf sb))).
  { rewrite waitingOf_app, Hw, app_nil_r. exact Fw. }
  assert (Hnd : NoDup (waitingOf (suspended st
                                    ++ pendingOf sa ++ pendingOf sb))).
  { rewrite waitingOf_app, Hw, app_nil_r. exact HC. }
  destruct (promiseAll sa sb) as [r|] eqn:Ep.
  - destruct (afterAll_spec n r) as (Rall & Rdis & pre & Er & Rr & Rp).
    apply (step_reachable st _ n
             (Dispatched n line :: ea ++ eb ++ afterAll n r) Hst);
      unfold waitingLines, listingLines;
      cbn [trace dispatched suspended awaitingAll].
    + reflexivity.
    + apply Hbatch. exact Rall.
    + lia.
    + intros m Hm. unfold n. lia.
    + intros m Hm. apply Hother. exact Hm.
    + intros m Hm. apply Hother. exact Hm.
    + reflexivity.
    + exact Hnd.
    + exact HG.
    + intros l l' H1 H2. apply (Hin _ _ Rdis) in H1.
      apply (Hin _ _ Rdis) in H2. congruence.
    + intros H. destruct (Hwno H).
    + intros _. apply Hjoint.
    + intros H. destruct (Hnot _ H).
    + intros H. destruct (Fa H).
    + right. right. apply in_or_app. right. right.
      apply in_or_app. right. apply in_or_app. right.
      rewrite Er. apply in_or_app. right. left. reflexivity.
    + intros t1 t2 E.
      assert (Hpre : ~ In (Prompted n)
                       (trace st ++ Dispatched n line :: ea ++ eb ++ pre)).
      { intros H. apply in_app_or in H as [H|[H|H]];
          [exact (Fp H)|discriminate H|].
        apply in_app_or in H as [H|H]; [exact (Ap n H)|].
        apply in_app_or in H as [H|H]; [exact (Bp n H)|exact (Rp H)]. }
      replace (trace st ++ Dispatched n line :: ea ++ eb ++ afterAll n r)
        with ((trace st ++ Dispatched n line :: ea ++ eb ++ pre)
                ++ [Prompted n]) in E.
      2:{ rewrite Er, <- !app_assoc. cbn [app].
          rewrite <- !app_assoc. reflexivity. }
      apply split_at_last in E as [-> ->]; [|exact Hpre].
      split; [|split; [|split]].
      * apply in_or_app. right. right. apply in_or_app. right.
        apply in_or_app. right. exact Rr.
      * exact Hpre.
      * intros [].
      * intros H. destruct (Hnot _ H).
  - assert (Hpend : In n (listingsOf (suspended st
                                        ++ pendingOf sa ++ pendingOf sb))).
    { rewrite !listingsOf_app, Al, Bl, !in_app_iff. right.
      destruct sa as [wa|[ea'|[]]], sb as [wb|[eb'|[]]];
        cbn in Ep; try discriminate Ep; cbn; auto. }
    assert (Hnop : ~ In (Prompted n)
                     (trace st ++ Dispatched n line :: ea ++ eb)).
    { intros H. apply in_app_or in H as [H|[H|H]];
        [exact (Fp H)|discriminate H|].
      apply in_app_or in H as [H|H]; [exact (Ap n H)|exact (Bp n H)]. }
    assert (Hin0 : forall l : string,
               In (Dispatched n l)
                  (trace st ++ Dispatched n line :: ea ++ eb) ->
               l = line).
    { intros l H. apply (Hin [] l); [intros m l' []|].
      rewrite app_nil_r. exact H. }
    apply (step_reachable st _ n (Dispatched n line :: ea ++ eb) Hst);
      unfold waitingLines, listingLines;
      cbn [trace dispatched suspended awaitingAll].
    + reflexivity.
    + specialize (Hbatch [] (Forall_nil _)). rewrite app_nil_r in Hbatch.
      exact Hbatch.
    + lia.
    + intros m Hm. unfold n. lia.
    + intros m Hm. apply Hother. exact Hm.
    + intros m Hm. apply Hother. exact Hm.
    + intros m Hm. cbn [In]. split; [|auto].
      intros [H|H]; [congruence|exact H].
    + exact Hnd.
    + constructor; [exact Fa|exact HG].
    + intros l l' H1 H2. apply Hin0 in H1, H2. congruence.
    + intros H. destruct (Hwno H).
    + intros _. apply Hjoint.
    + intros H. destruct (Hnot _ H).
    + intros _. split; [exact Hpend|exact Hnop].
    + right. left. left. reflexivity.
    + intros t1 t2 E. exfalso. apply Hnop. rewrite E.
      apply in_or_app. right. left. reflexivity.
Qed.

Lemma submit_reachable (line : string) (st : Console) :
  Reachable syntaxOk st -> Reachable syntaxOk (submit syntaxOk line st).
Proof.
  destruct (processCommand syntaxOk line) as [p|a b] eqn:E.
  - apply (submit_alone_reachable line p). exact E.
  - apply (submit_joint_reachable line a b). exact E.
Qed.

Lemma firstn_skipn_split {A : Type} (a : A) (l1 l2 : list A) :
  firstn (length l1) (l1 ++ a :: l2) = l1
  /\ skipn (S (length l1)) (l1 ++ a :: l2) = l2.
Proof.
  induction l1 as [|x l1 [IH1 IH2]]; cbn; [auto|].
  rewrite IH1. split; [reflexivity|exact IH2].
Qed.

Lemma settle_waiting_reachable (st : Console) (l1 l2 : list Suspended)
      (n : nat) (X : Type) (c : Call X) (k : Exn + X -> Proc unit)
      (r : Exn + X) :
  Reachable syntaxOk st ->
  suspended st = l1 ++ Waiting n c k :: l2 ->
  Reachable syntaxOk
    (let (es, s) := lineListener n (k r) in
     mkConsole (dispatched st) (l1 ++ optList s ++ l2) (awaitingAll st)
               (trace st ++ Settled n c r :: es)).
Proof.
  intros Hst Esus. pose proof Hst as [HA HB HC HD HE HF HG HH HI HJ].
  assert (Hwl : waitingLines st = waitingOf l1 ++ n :: waitingOf l2).
  { unfold waitingLines. rewrite Esus, waitingOf_app. reflexivity. }
  assert (Hll : listingLines st = listingsOf l1 ++ listingsOf l2).
  { unfold listingLines. rewrite Esus, listingsOf_app. reflexivity. }
  assert (Hn : In n (waitingLines st)).
  { rewrite Hwl. apply in_or_app. right. left. reflexivity. }
  destruct (HD n Hn) as (Hlt & Hra & Hcount & Hp).
  rewrite Hwl in HC.
  pose proof (NoDup_remove_1 _ _ _ HC) as Hnd.
  pose proof (NoDup_remove_2 _ _ _ HC) as Hnot.
  pose proof (lineListener_spec n (k r)) as (Lall & Lset & Ldis & Lend).
  destruct (lineListener n (k r)) as [les s] eqn:El. cbn [fst snd] in *.
  assert (Hsing : waitingOf (optList s)
                  = match s with Some _ => [n] | None => [] end
                  /\ listingsOf (optList s) = []).
  { destruct s as [w|]; cbn [optList filter map]; [|auto].
    destruct Lend as (Hw & Hl & _). rewrite Hl. cbn. rewrite Hw. auto. }
  destruct Hsing as [Hws Hls].
  assert (Hin : forall l : string,
             In (Dispatched n l) (trace st ++ Settled n c r :: les) ->
             In (Dispatched n l) (trace st)).
  { intros l H. apply in_app_or in H as [H|[H|H]];
      [exact H|discriminate H|destruct (Ldis n l H)]. }
  assert (Hra' : runsAlone syntaxOk (trace st ++ Settled n c r :: les) n).
  { apply (runsAlone_same (trace st)); assumption. }
  assert (Hone : issued n [Settled n c r] = 0
                 /\ settled n [Settled n c r] = 1).
  { unfold issued, settled. cbn. rewrite Nat.eqb_refl. auto. }
  destruct Hone as [Hi1 Hs1].
  apply (step_reachable st _ n (Settled n c r :: les) Hst);
    unfold waitingLines, listingLines;
    cbn [trace dispatched suspended awaitingAll].
  - reflexivity.
  - constructor; [reflexivity|exact Lall].
  - exact Hlt.
  - reflexivity.
  - intros m Hm. rewrite Esus, !waitingOf_app, Hws.
    cbn [filter isListing negb map]. rewrite !in_app_iff. cbn [In].
    split.
    + intros [H|[H|H]]; auto.
      destruct s; cbn in H; [destruct H as [H|[]]; congruence|destruct H].
    + intros [H|[H|H]]; auto. cbn in H. congruence.
  - intros m Hm. rewrite Esus, !listingsOf_app, Hls.
    cbn [filter isListing map app]. reflexivity.
  - reflexivity.
  - rewrite !waitingOf_app, Hws. destruct s; cbn [app]; assumption.
  - exact HG.
  - intros l l' H1 H2. apply (HB n); apply Hin; assumption.
  - rewrite !waitingOf_app, Hws. intros H.
    destruct s as [w|].
    + destruct Lend as (_ & _ & Hi & Hp1).
      split; [exact Hra'|]. split.
      * change (trace st ++ Settled n c r :: les)
          with (trace st ++ [Settled n c r] ++ les).
        rewrite !issued_app, !settled_app, Hi1, Hs1, Hi, Lset, Hcount. lia.
      * intros H'. apply in_app_or in H' as [H'|[H'|H']];
          [exact (Hp H')|discriminate H'|exact (Hp1 H')].
    + exfalso. apply Hnot. cbn [app] in H. exact H.
  - rewrite !listingsOf_app, Hls. cbn [app]. intros H.
    apply (runsJointly_more (trace st)).
    + intros l Hl. apply in_or_app. left. exact Hl.
    + apply HE. rewrite Hll. exact H.
  - intros _. rewrite !waitingOf_app, Hws. intros Hno.
    destruct s as [w|].
    { exfalso. apply Hno. apply in_or_app. right. left. reflexivity. }
    destruct Lend as (es' & Ees & _ & _ & Hi0).
    change (trace st ++ Settled n c r :: les)
      with (trace st ++ [Settled n c r] ++ les).
    rewrite !issued_app, !settled_app, Hi1, Hs1, Lset, Hcount.
    rewrite Ees, issued_app, Hi0. cbn. lia.
  - intros H. exfalso. apply HH in H as (H & _).
    exact (alone_not_joint _ _ Hra (HE n H)).
  - destruct s as [w|].
    + left. rewrite !waitingOf_app, Hws. apply in_or_app. right. left.
      reflexivity.
    + right. right. destruct Lend as (es' & -> & _).
      apply in_or_app. right. right. apply in_or_app. right. left.
      reflexivity.
  - intros t1 t2 E.
    apply split_app in E as [(l & E1 & _)|(l & E1 & E2)].
    { exfalso. apply Hp. rewrite E1. apply in_or_app. right. left.
      reflexivity. }
    destruct l as [|x l]; cbn in E2; [discriminate E2|].
    injection E2 as <- E2.
    destruct s as [w|].
    { exfalso. destruct Lend as (_ & _ & _ & Hp1). apply Hp1.
      rewrite E2. apply in_or_app. right. left. reflexivity. }
    destruct Lend as (es' & Ees & Hr & Hp1 & Hi0).
    rewrite Ees in E2. apply split_at_last in E2 as [-> ->]; [|exact Hp1].
    subst t1. split; [|split; [|split]].
    + apply in_or_app. right. right. exact Hr.
    + intros H. apply in_app_or in H as [H|[H|H]];
        [exact (Hp H)|discriminate H|exact (Hp1 H)].
    + intros [].
    + intros _. split; [|constructor].
      change (trace st ++ Settled n c r :: es')
        with (trace st ++ [Settled n c r] ++ es').
      rewrite !issued_app, !settled_app, Hi1, Hs1, Hi0, Hcount.
      rewrite Ees, settled_app in Lset. cbn. lia.
Qed.

Lemma in_without (n m : nat) (lines : list nat) :
  In m (without n lines) <-> In m lines /\ m <> n.
Proof.
  unfold without. rewrite filter_In, negb_true_iff, Nat.eqb_neq.
  reflexivity.
Qed.

(** A step of a closure of line [n]: the line goes on awaiting its
    [Promise.all], or the [Promise.all] settles and the listener
    prompts. *)
Lemma closure_step_reachable (st st' : Console) (l1 l2 : list Suspended)
      (n : nat) (X : Type) (c : Call X) (k : Exn + X -> Proc unit)
      (es : list ConsoleEvent) :
  Reachable syntaxOk st ->
  suspended st = l1 ++ Listing n c k :: l2 ->
  dispatched st' = dispatched st ->
  trace st' = trace st ++ es ->
  Forall (fun e => lineOf e = n) es ->
  (forall (m : nat) (line : string), ~ In (Dispatched m line) es) ->
  waitingLines st' = waitingOf l1 ++ waitingOf l2 ->
  (forall m : nat, m <> n ->
      In m (listingLines st') <-> In m (listingsOf l1 ++ listingsOf l2)) ->
  (awaitingAll st' = awaitingAll st
   /\ ~ In (Prompted n) es
   /\ (In n (awaitingAll st) -> In n (listingLines st')))
  \/ (awaitingAll st' = without n (awaitingAll st)
      /\ In n (awaitingAll st)
      /\ exists pre : list ConsoleEvent,
           es = pre ++ [Prompted n]
           /\ In (Returned n) pre /\ ~ In (Prompted n) pre) ->
  Reachable syntaxOk st'.
Proof.
  intros Hst Esus Edis Etr Hall Hnod Ewl Hlist Hcase.
  pose proof Hst as [HA HB HC HD HE HF HG HH HI HJ].
  assert (Hwl : waitingLines st = waitingOf l1 ++ waitingOf l2).
  { unfold waitingLines. rewrite Esus, waitingOf_app. reflexivity. }
  assert (Hll : listingLines st = listingsOf l1 ++ n :: listingsOf l2).
  { unfold listingLines. rewrite Esus, listingsOf_app. reflexivity. }
  assert (Hn : In n (listingLines st)).
  { rewrite Hll. apply in_or_app. right. left. reflexivity. }
  pose proof (HE n Hn) as Hjoint.
  assert (Hlt : n < dispatched st).
  { destruct Hjoint as (line & Hin & _).
    rewrite Forall_forall in HA. exact (HA _ Hin). }
  assert (Hnw : ~ In n (waitingLines st)).
  { intros H. apply HD in H as (_ & H & _).
    exact (alone_not_joint _ _ H Hjoint). }
  assert (Hjoint' : runsJointly syntaxOk (trace st') n).
  { apply (runsJointly_more (trace st)); [|exact Hjoint].
    intros l Hl. rewrite Etr. apply in_or_app. left. exact Hl. }
  assert (Hnot : runsAlone syntaxOk (trace st') n -> False).
  { intros H. exact (alone_not_joint _ _ H Hjoint'). }
  apply (step_reachable st st' n es Hst).
  - exact Etr.
  - exact Hall.
  - rewrite Edis. exact Hlt.
  - intros m _. rewrite Edis. reflexivity.
  - intros m _. rewrite Ewl, Hwl. reflexivity.
  - intros m Hm. rewrite (Hlist m Hm), Hll, !in_app_iff. cbn [In].
    split; [intros [H|H]; auto|intros [H|[H|H]]; auto; congruence].
  - intros m Hm. destruct Hcase as [(-> & _)|(-> & _)]; [reflexivity|].
    rewrite in_without. split; [intros [H _]; exact H|auto].
  - rewrite Ewl, <- Hwl. exact HC.
  - destruct Hcase as [(-> & _)|(-> & _)]; [exact HG|].
    apply NoDup_filter. exact HG.
  - intros line line' H1 H2. rewrite Etr in H1, H2.
    apply (HB n); [apply in_app_or in H1 as [H1|H1]
                  |apply in_app_or in H2 as [H2|H2]];
      try assumption; [destruct (Hnod n line H1)|destruct (Hnod n line' H2)].
  - rewrite Ewl, <- Hwl. intros H. destruct (Hnw H).
  - intros _. exact Hjoint'.
  - intros H. destruct (Hnot H).
  - destruct Hcase as [(-> & Hp & Hl)|(-> & _)].
    + intros H. split; [exact (Hl H)|].
      rewrite Etr. intros H'. apply in_app_or in H' as [H'|H'];
        [|exact (Hp H')].
      apply HH in H as (_ & H). exact (H H').
    + intros H. apply in_without in H as [_ H]. congruence.
  - destruct Hcase as [(E & Hp & Hl)|(E & Hin & pre & -> & _)].
    + destruct (HI n Hlt) as [H|[H|H]]; [destruct (Hnw H)| |].
      * right. left. rewrite E. exact H.
      * right. right. rewrite Etr. apply in_or_app. left. exact H.
    + right. right. rewrite Etr. apply in_or_app. right.
      apply in_or_app. right. left. reflexivity.
  - intros t1 t2 E. rewrite Etr in E.
    destruct Hcase as [(_ & Hp & _)|(_ & Hin & pre & Ees & Hr & Hpre)].
    + apply split_app in E as [(l & E1 & ->)|(l & _ & E2)].
      * destruct (HJ n t1 l E1) as (Hr & Hp1 & Hp2 & _).
        split; [exact Hr|]. split; [exact Hp1|]. split.
        -- intros H. apply in_app_or in H as [H|H]; auto.
        -- intros H. destruct (Hnot H).
      * exfalso. apply Hp. rewrite E2. apply in_or_app. right. left.
        reflexivity.
    + apply HH in Hin as (_ & Hold). subst es.
      rewrite app_assoc in E.
      apply split_at_last in E as [-> ->].
      * split; [apply in_or_app; right; exact Hr|].
        split; [|split; [intros []|intros H; destruct (Hnot H)]].
        intros H. apply in_app_or in H as [H|H]; auto.
      * intros H. apply in_app_or in H as [H|H]; auto.
Qed.

Lemma settle_listing_reachable (st : Console) (l1 l2 : list Suspended)
      (n : nat) (X : Type) (c : Call X) (k : Exn + X -> Proc unit)
      (r : Exn + X) :
  Reachable syntaxOk st ->
  suspended st = l1 ++ Listing n c k :: l2 ->
  Reachable syntaxOk
    (let (es, s) := closure n (k r) in
     match s with
     | inl w =>
         mkConsole (dispatched st) (l1 ++ w :: l2) (awaitingAll st)
                   (trace st ++ Settled n c r :: es)
     | inr over =>
         let (after, awaiting) :=
           closureOver n over (l1 ++ l2) (awaitingAll st) in
         mkConsole (dispatched st) (l1 ++ l2) awaiting
                   (trace st ++ Settled n c r :: es ++ after)
     end).
Proof.
  intros Hst Esus.
  pose proof (closure_spec n (k r)) as (Call & Cp & Cdis & Cend).
  destruct (closure n (k r)) as [es s]. cbn [fst snd] in *.
  assert (Hhead : forall after : list ConsoleEvent,
             Forall (fun e => lineOf e = n) after ->
             (forall (m : nat) (line : string),
                 ~ In (Dispatched m line) after) ->
             Forall (fun e => lineOf e = n) (Settled n c r :: es ++ after)
             /\ forall (m : nat) (line : string),
                  ~ In (Dispatched m line) (Settled n c r :: es ++ after)).
  { intros after Ha Hd. split.
    - constructor; [reflexivity|]. apply Forall_app. split; assumption.
    - intros m line [H|H]; [discriminate H|].
      apply in_app_or in H as [H|H]; [exact (Cdis m line H)|].
      exact (Hd m line H). }
  assert (Hquiet : ~ In (Prompted n) (Settled n c r :: es)).
  { intros [H|H]; [discriminate H|exact (Cp n H)]. }
  destruct s as [w|over].
  - destruct Cend as [Hw Hl].
    destruct (Hhead [] (Forall_nil _) (fun m line H => H)) as [H1 H2].
    rewrite app_nil_r in H1, H2.
    apply (closure_step_reachable st _ l1 l2 n X c k
             (Settled n c r :: es) Hst Esus);
      unfold waitingLines, listingLines;
      cbn [trace dispatched suspended awaitingAll]; auto.
    + rewrite waitingOf_app. cbn [filter]. rewrite Hl. reflexivity.
    + intros m Hm. rewrite listingsOf_app. cbn [filter]. rewrite Hl.
      cbn [map]. rewrite Hw, !in_app_iff. cbn [In].
      split; [intros [H|[H|H]]; auto; congruence|intros [H|H]; auto].
    + left. split; [reflexivity|]. split; [exact Hquiet|].
      intros _. rewrite listingsOf_app. cbn [filter]. rewrite Hl.
      cbn [map]. rewrite Hw. apply in_or_app. right. left. reflexivity.
  - unfold closureOver.
    assert (Hplain : forall m : nat, m <> n ->
               In m (listingsOf (l1 ++ l2))
               <-> In m (listingsOf l1 ++ listingsOf l2)).
    { intros m _. rewrite listingsOf_app. reflexivity. }
    assert (Hsettles : forall r' : Exn + unit,
               In n (awaitingAll st) ->
               Reachable syntaxOk
                 (mkConsole (dispatched st) (l1 ++ l2)
                            (without n (awaitingAll st))
                            (trace st ++ Settled n c r :: es
                               ++ afterAll n r'))).
    { intros r' Hin.
      destruct (afterAll_spec n r') as (Rall & Rdis & pre & Er & Rr & Rp).
      destruct (Hhead _ Rall Rdis) as [H1 H2].
      apply (closure_step_reachable st _ l1 l2 n X c k
               (Settled n c r :: es ++ afterAll n r') Hst Esus);
        unfold waitingLines, listingLines;
        cbn [trace dispatched suspended awaitingAll]; auto.
      - rewrite waitingOf_app. reflexivity.
      - right. split; [reflexivity|]. split; [exact Hin|].
        exists (Settled n c r :: es ++ pre). split; [|split].
        + rewrite Er. cbn [app]. rewrite <- app_assoc. reflexivity.
        + right. apply in_or_app. right. exact Rr.
        + intros [H|H]; [discriminate H|].
          apply in_app_or in H as [H|H]; [exact (Cp n H)|exact (Rp H)]. }
    assert (Hsilent : (In n (awaitingAll st) ->
                       In n (listingsOf (l1 ++ l2))) ->
               Reachable syntaxOk
                 (mkConsole (dispatched st) (l1 ++ l2) (awaitingAll st)
                            (trace st ++ Settled n c r :: es ++ []))).
    { intros Hl.
      destruct (Hhead [] (Forall_nil _) (fun m line H => H)) as [H1 H2].
      apply (closure_step_reachable st _ l1 l2 n X c k
               (Settled n c r :: es ++ []) Hst Esus);
        unfold waitingLines, listingLines;
        cbn [trace dispatched suspended awaitingAll]; auto.
      - rewrite waitingOf_app. reflexivity.
      - left. split; [reflexivity|]. split; [|exact Hl].
        rewrite app_nil_r. exact Hquiet. }
    destruct (existsb (Nat.eqb n) (awaitingAll st)) eqn:Ex.
    + apply existsb_exists in Ex as (m & Hm & Em).
      apply Nat.eqb_eq in Em. subst m.
      destruct over as [e|u]; [apply Hsettles; exact Hm|].
      destruct (existsb (listingOf n) (l1 ++ l2)) eqn:Eo;
        [|apply Hsettles; exact Hm].
      apply Hsilent. intros _.
      apply existsb_exists in Eo as (w & Hw & Ew).
      unfold listingOf in Ew. apply andb_true_iff in Ew as [Ew1 Ew2].
      apply Nat.eqb_eq in Ew2. rewrite <- Ew2.
      apply in_map, filter_In. split; assumption.
    + apply Hsilent. intros H. exfalso.
      assert (E : existsb (Nat.eqb n) (awaitingAll st) = true).
      { apply existsb_exists. exists n. split; [exact H|].
        apply Nat.eqb_refl. }
      congruence.
Qed.

Lemma settle_reachable (i : nat) (env : forall X : Type, Call X -> Exn + X)
      (st : Console) :
  Reachable syntaxOk st -> Reachable syntaxOk (settle i env st).
Proof.
  intros Hst. unfold settle.
  destruct (nth_error (suspended st) i) as [[n X c k|n X c k]|] eqn:E;
    [| |exact Hst];
    apply nth_error_split in E as (l1 & l2 & Esus & <-).
  - destruct (firstn_skipn_split (Waiting n c k) l1 l2) as [Ef Es].
    rewrite Esus, Ef, Es.
    apply settle_waiting_reachable; assumption.
  - destruct (firstn_skipn_split (Listing n c k) l1 l2) as [Ef Es].
    rewrite Esus, Ef, Es.
    apply (settle_listing_reachable st l1 l2 n X c k (env X c));
      assumption.
Qed.

(** Every Console the event loop reaches is [Reachable]. *)
Lemma runConsole_reachable (actions : list Action) :
  Reachable syntaxOk (runConsole syntaxOk actions).
Proof.
  unfold runConsole.
  induction actions as [|a actions IH] using rev_ind.
  - exact initial_reachable.
  - rewrite fold_left_app. cbn [fold_left].
    destruct a as [line|i env]; cbn [act].
    + apply submit_reachable. exact IH.
    + apply settle_reachable. exact IH.
Qed.



End EventLoop.




(** An [ls] without a flag whose room lookup is rejected while its
    contact lookup is pending, then a [help]: the listener logs the
    error and prompts, the [help] is dispatched, and the contact listing
    of the [ls] settles and writes its table afterwards. *)
Lemma ls_listing_outlives_prompt :
  Index.processCommand acceptAll "ls"
  = Joint Index.getAllRooms Index.getAllContacts
  /\ Index.trace
       (Index.runConsole acceptAll
          [ Index.Submit "ls";
            Index.Settle 0 unavailable;
            Index.Submit "help";
            Index.Settle 0 (fun X c => directory [adam; bob] [] c) ])
     = [ Index.Dispatched 0 "ls";
         Index.Written 0 (Log [VStr "Getting the list of all rooms..."]);
         Index.Issued 0 (RoomFindAll None);
         Index.Written 0 (Log [VStr "Getting the list of all contacts..."]);
         Index.Issued 0 (ContactFindAll None);
         Index.Settled 0 (RoomFindAll None) (inl (Error "unavailable"));
         Index.Returned 0;
         Index.Written 0 (Log [VExn (Error "unavailable")]);
         Index.Prompted 0;
         Index.Dispatched 1 "help";
         Index.Written 1 (Log [VStr (Index.usages "help")]);
         Index.Returned 1;
         Index.Prompted 1;
         Index.Settled 0 (ContactFindAll None) (inr [adam; bob]);
         Index.Written 0 (Log [VStr "- List of Contacts:"]);
         Index.Written 0
           (Table (map Index.contactRow [adam; bob])) ].
Proof.
  split; vm_compute; reflexivity.
Qed.


(** * Further properties *)

(** ** Procedures that never throw, and what a procedure always does *)

Lemma NeverThrows_bind {A B : Type} (p : Proc A) (f : A -> Proc B) :
  NeverThrows p -> (forall a : A, NeverThrows (f a)) ->
  NeverThrows (bind p f).
Proof.
  intros Hp Hf. induction Hp; cbn [bind]; auto using @NeverThrows.
Qed.

Lemma NeverThrows_tryCatch {A : Type} (p : Proc A) (h : Exn -> Proc A) :
  (forall e : Exn, NeverThrows (h e)) -> NeverThrows (tryCatch p h).
Proof.
  intros Hh. induction p; cbn [tryCatch]; auto using @NeverThrows.
Qed.

Lemma NeverThrows_outs {A : Type} (os : list Output) (k : Proc A) :
  NeverThrows k -> NeverThrows (outs os k).
Proof.
  intros Hk. induction os; cbn [outs]; auto using @NeverThrows.
Qed.

Lemma NeverThrows_log (args : list Val) : NeverThrows (log args).
Proof. repeat constructor. Qed.

Lemma NeverThrows_run {A : Type} (p : Proc A) :
  NeverThrows p ->
  forall (env : Env) (n : nat), exists a : A, snd (run env n p) = inr a.
Proof.
  intros Hp. induction Hp as [a|o k _ IH|X c k _ IH]; intros env n;
    cbn [run].
  - exists a. reflexivity.
  - destruct (IH env n) as [a Ha]. exists a.
    destruct (run env n k). exact Ha.
  - destruct (IH (env n X c) env (S n)) as [a Ha]. exists a.
    destruct (run env (S n) (k (env n X c))). exact Ha.
Qed.

Section AlwaysFacts.

Variable P : Output -> Prop.
Variable Q : forall X : Type, Call X -> Prop.

Lemma Always_bind {A B : Type} (p : Proc A) (f : A -> Proc B) :
  Always P Q p -> (forall a : A, Always P Q (f a)) ->
  Always P Q (bind p f).
Proof.
  intros Hp Hf. induction Hp; cbn [bind]; auto using @Always.
Qed.

Lemma Always_tryCatch {A : Type} (p : Proc A) (h : Exn -> Proc A) :
  Always P Q p -> (forall e : Exn, Always P Q (h e)) ->
  Always P Q (tryCatch p h).
Proof.
  intros Hp Hh. induction Hp; cbn [tryCatch]; auto using @Always.
Qed.

Lemma Always_outs {A : Type} (os : list Output) (k : Proc A) :
  Forall P os -> Always P Q k -> Always P Q (outs os k).
Proof.
  intros Hos Hk. induction Hos; cbn [outs]; auto using @Always.
Qed.

Lemma Always_log (args : list Val) :
  P (Log args) -> Always P Q (log args).
Proof. intros H. repeat constructor. exact H. Qed.

Lemma Always_await {X : Type} (c : Call X) :
  Q X c -> Always P Q (await c).
Proof.
  intros H. unfold await. constructor; [exact H|].
  intros [e|x]; constructor.
Qed.

Lemma Always_run {A : Type} (p : Proc A) :
  Always P Q p ->
  forall (env : Env) (n : nat), Forall (eventIs P Q) (fst (run env n p)).
Proof.
  intros Hp. induction Hp as [a|e|o k Ho _ IH|X c k Hc _ IH];
    intros env n; cbn [run].
  - constructor.
  - constructor.
  - specialize (IH env n). destruct (run env n k). cbn [fst] in *.
    constructor; assumption.
  - specialize (IH (env n X c) env (S n)).
    destruct (run env (S n) (k (env n X c))). cbn [fst] in *.
    constructor; assumption.
Qed.

End AlwaysFacts.

Lemma noCall_anyCall (tr : list Event) :
  Forall (eventIs anyWrite noCall) tr -> anyCall tr = false.
Proof.
  induction 1 as [|e tr He _ IH]; [reflexivity|].
  destruct e as [o|X c]; cbn in *; [exact IH|contradiction].
Qed.

(** ** [truncate] *)

Lemma length_append (a b : string) :
  String.length (a ++ b) = String.length a + String.length b.
Proof. induction a; cbn; congruence. Qed.

Lemma length_substring0 (n : nat) (s : string) :
  String.length (substring 0 n s) = Nat.min n (String.length s).
Proof.
  revert n. induction s as [|c s IH]; intros [|n]; cbn; auto.
Qed.

Lemma substring0_all (n : nat) (s : string) :
  String.length s <= n -> substring 0 n s = s.
Proof.
  revert n. induction s as [|c s IH]; intros [|n] H; cbn in *;
    try reflexivity; try lia.
  rewrite IH; [reflexivity|lia].
Qed.

Lemma substring0_append (n : nat) (a b : string) :
  n <= String.length a -> substring 0 n (a ++ b) = substring 0 n a.
Proof.
  revert n. induction a as [|c a IH]; intros [|n] H; cbn in *;
    try reflexivity; try lia.
  - destruct b; reflexivity.
  - rewrite IH; [reflexivity|lia].
Qed.

Lemma substring0_substring0 (n m : nat) (s : string) :
  n <= m -> substring 0 n (substring 0 m s) = substring 0 n s.
Proof.
  revert n m. induction s as [|c s IH]; intros [|n] [|m] H; cbn;
    try reflexivity; try lia.
  rewrite IH; [reflexivity|lia].
Qed.

(** [truncate] with a width of at least three: the result is as long as
    the shorter of the string and the width, a string within the width is
    returned as it is, the first [maxLength - 3] characters are kept, and
    truncating again changes nothing. *)
Theorem truncate_width :
  forall (str : string) (maxLength : nat),
    3 <= maxLength ->
    String.length (Index.truncate str maxLength)
    = Nat.min (String.length str) maxLength
    /\ (String.length str <= maxLength ->
        Index.truncate str maxLength = str)
    /\ (maxLength < String.length str ->
        Index.truncate str maxLength
        = substring 0 (maxLength - 3) str ++ "...")
    /\ substring 0 (maxLength - 3) (Index.truncate str maxLength)
       = substring 0 (maxLength - 3) str
    /\ Index.truncate (Index.truncate str maxLength) maxLength
       = Index.truncate str maxLength.
Proof.
  intros str maxLength H3. unfold Index.truncate, JsString.substring0.
  destruct (maxLength <? String.length str) eqn:L.
  - apply Nat.ltb_lt in L.
    assert (Hlen : String.length
                     (substring 0 (maxLength - 3) str ++ "...")
                   = maxLength).
    { rewrite length_append, length_substring0. cbn. lia. }
    rewrite Hlen, Nat.ltb_irrefl.
    repeat split; try lia; try reflexivity.
    rewrite substring0_append, substring0_substring0; [reflexivity|lia|].
    rewrite length_substring0. lia.
  - rewrite L. apply Nat.ltb_ge in L.
    repeat split; try lia; try reflexivity.
Qed.

Lemma truncate_width_example :
  3 <= 5
  /\ String.length (Index.truncate "overwatch" 5)
     = Nat.min (String.length "overwatch") 5
  /\ (5 < String.length "overwatch" ->
      Index.truncate "overwatch" 5 = substring 0 (5 - 3) "overwatch" ++ "...").
Proof.
  split; [lia|].
  pose proof (truncate_width "overwatch" 5 ltac:(lia)) as (H1 & _ & H3 & _).
  split; [exact H1|exact H3].
Defined.

(** Below a width of three the ellipsis alone is wider than the width: a
    string longer than the width becomes the three dots. *)
Theorem truncate_narrow :
  forall (str : string) (maxLength : nat),
    maxLength <= 3 -> maxLength < String.length str ->
    Index.truncate str maxLength = "...".
Proof.
  intros str maxLength H3 L. unfold Index.truncate, JsString.substring0.
  apply Nat.ltb_lt in L. rewrite L.
  replace (maxLength - 3) with 0 by lia.
  destruct str; reflexivity.
Qed.

Lemma truncate_narrow_example :
  (2 <= 3 /\ 2 < String.length "abcd")
  /\ Index.truncate "abcd" 2 = "...".
Proof.
  split; [split; cbn; lia|].
  apply truncate_narrow; cbn; lia.
Defined.

Lemma truncateFixed_length (str : string) :
  String.length (Index.truncateFixed str) <= Index.maxTableColumnCharNum.
Proof.
  unfold Index.truncateFixed, Index.truncate, JsString.substring0,
    Index.maxTableColumnCharNum.
  destruct (35 <? String.length str) eqn:L.
  - rewrite length_append, length_substring0.
    change (String.length "...") with 3. change (35 - 3) with 32.
    apply Nat.ltb_lt in L. lia.
  - apply Nat.ltb_ge in L. exact L.
Qed.

(** The rows of the tables: every cell is at most 35 code units wide. *)
Lemma contactRow_fits (c : Contact) :
  Forall (fun cell : string * string =>
            String.length (snd cell) <= Index.maxTableColumnCharNum)
         (Index.contactRow c).
Proof.
  unfold Index.contactRow.
  repeat (apply Forall_cons; [apply truncateFixed_length|]).
  apply Forall_nil.
Qed.

Lemma roomRow_fits (r : Room) :
  Forall (fun cell : string * string =>
            String.length (snd cell) <= Index.maxTableColumnCharNum)
         (Index.roomRow r).
Proof.
  unfold Index.roomRow.
  repeat (apply Forall_cons; [apply truncateFixed_length|]).
  apply Forall_nil.
Qed.

(** ** [dedupe]: the merged list of [search] *)

Lemma existsb_eqb_In (r : nat) (seen : list nat) :
  existsb (Nat.eqb r) seen = true <-> In r seen.
Proof.
  rewrite existsb_exists. split.
  - intros (x & Hx & E). apply Nat.eqb_eq in E. subst. exact Hx.
  - intros H. exists r. split; [exact H|apply Nat.eqb_refl].
Qed.

Lemma dedupe_spec (l : list Contact) :
  forall seen : list nat,
    NoDup (map contactRef (Index.dedupe seen l))
    /\ (forall c : Contact,
           In c (Index.dedupe seen l) ->
           In c l /\ ~ In (contactRef c) seen)
    /\ (forall r : nat,
           In r (map contactRef l) -> ~ In r seen ->
           In r (map contactRef (Index.dedupe seen l))).
Proof.
  induction l as [|c l IH]; intros seen; cbn [Index.dedupe map].
  - split; [constructor|split]; [intros c []|intros r []].
  - destruct (existsb (Nat.eqb (contactRef c)) seen) eqn:E.
    + apply existsb_eqb_In in E.
      destruct (IH seen) as (Hnd & Hin & Hall).
      split; [exact Hnd|split].
      * intros c' H. apply Hin in H as [H1 H2].
        split; [right; exact H1|exact H2].
      * intros r [<-|Hr] Hs; [contradiction|]. apply Hall; assumption.
    + assert (Hc : ~ In (contactRef c) seen).
      { intros H. apply existsb_eqb_In in H. congruence. }
      destruct (IH (contactRef c :: seen)) as (Hnd & Hin & Hall).
      split; [|split].
      * cbn [map]. constructor; [|exact Hnd].
        intros H. apply in_map_iff in H as (c' & Hr & Hc').
        apply Hin in Hc' as [_ Hc']. apply Hc'. left. congruence.
      * intros c' [<-|H]; [split; [left; reflexivity|exact Hc]|].
        apply Hin in H as [H1 H2]. split; [right; exact H1|].
        intros Hs. apply H2. right. exact Hs.
      * intros r Hr Hs. cbn [map].
        destruct (Nat.eq_dec (contactRef c) r) as [->|Hne];
          [left; reflexivity|].
        right. apply Hall.
        -- destruct Hr as [Hr|Hr]; [contradiction|exact Hr].
        -- intros [H|H]; [contradiction|exact (Hs H)].
Qed.

(** The merged list of [search] holds every contact object of the two
    result lists, each once, and nothing else. *)
Theorem dedupe_each_once :
  forall byName byAlias : list Contact,
    NoDup (map contactRef (Index.dedupe [] (byName ++ byAlias)))
    /\ (forall c : Contact,
           In c (Index.dedupe [] (byName ++ byAlias)) ->
           In c byName \/ In c byAlias)
    /\ (forall c : Contact,
           In c byName \/ In c byAlias ->
           In (contactRef c)
              (map contactRef (Index.dedupe [] (byName ++ byAlias)))).
Proof.
  intros byName byAlias.
  destruct (dedupe_spec (byName ++ byAlias) []) as (Hnd & Hin & Hall).
  split; [|split].
  - exact Hnd.
  - intros c H. apply Hin in H as [H _]. apply in_app_or. exact H.
  - intros c H. apply Hall; [|intros []].
    apply in_map. apply in_or_app. exact H.
Qed.

Lemma dedupe_NoDup_id (l : list Contact) :
  forall seen : list nat,
    NoDup (map contactRef l) ->
    (forall c : Contact, In c l -> ~ In (contactRef c) seen) ->
    Index.dedupe seen l = l.
Proof.
  induction l as [|c l IH]; intros seen Hnd Hseen; [reflexivity|].
  cbn [Index.dedupe]. cbn [map] in Hnd.
  apply NoDup_cons_iff in Hnd as [Hc Hnd].
  destruct (existsb (Nat.eqb (contactRef c)) seen) eqn:E.
  - apply existsb_eqb_In in E. exfalso.
    apply (Hseen c); [left; reflexivity|exact E].
  - f_equal. apply IH; [exact Hnd|].
    intros c' Hc' [H|H].
    + apply Hc. rewrite H. apply in_map. exact Hc'.
    + apply (Hseen c'); [right; exact Hc'|exact H].
Qed.

(** A contact found by name and by alias is listed once, where the query
    by name found it: when the query by name has no repeated object and
    the query by alias only finds objects among them, the merged list is
    the list found by name. *)
Theorem dedupe_alias_among_names :
  forall byName byAlias : list Contact,
    NoDup (map contactRef byName) ->
    (forall c : Contact,
        In c byAlias -> In (contactRef c) (map contactRef byName)) ->
    Index.dedupe [] (byName ++ byAlias) = byName.
Proof.
  intros byName byAlias Hnd Hsub.
  assert (H : forall (l : list Contact) (seen : list nat),
             NoDup (map contactRef l) ->
             (forall c, In c l -> ~ In (contactRef c) seen) ->
             (forall c, In c byAlias ->
                        In (contactRef c) (map contactRef l ++ seen)) ->
             Index.dedupe seen (l ++ byAlias) = l).
  { induction l as [|c l IH]; intros seen Hl Hseen Hal.
    - cbn [app]. clear Hl Hseen. cbn [map app] in Hal.
      induction byAlias as [|a al IHa]; [reflexivity|].
      cbn [Index.dedupe].
      assert (E : existsb (Nat.eqb (contactRef a)) seen = true).
      { apply existsb_eqb_In. apply Hal. left. reflexivity. }
      rewrite E. apply IHa.
      + intros c Hc. apply Hsub. right. exact Hc.
      + intros c Hc. apply Hal. right. exact Hc.
    - cbn [app Index.dedupe]. cbn [map] in Hl.
      apply NoDup_cons_iff in Hl as [Hc Hl].
      destruct (existsb (Nat.eqb (contactRef c)) seen) eqn:E.
      + apply existsb_eqb_In in E. exfalso.
        apply (Hseen c); [left; reflexivity|exact E].
      + f_equal. apply IH; [exact Hl| |].
        * intros c' Hc' [H|H].
          -- apply Hc. rewrite H. apply in_map. exact Hc'.
          -- apply (Hseen c'); [right; exact Hc'|exact H].
        * intros a Ha. specialize (Hal a Ha). cbn [map app] in Hal.
          destruct Hal as [Hal|Hal].
          -- apply in_or_app. right. left. exact Hal.
          -- apply in_app_or in Hal as [Hal|Hal]; apply in_or_app;
               [left; exact Hal|right; right; exact Hal]. }
  apply H; [exact Hnd|intros c _ []|].
  intros c Hc. rewrite app_nil_r. apply Hsub. exact Hc.
Qed.

Lemma dedupe_alias_among_names_example :
  (NoDup (map contactRef [adam; bob])
   /\ (forall c : Contact,
          In c [bob] -> In (contactRef c) (map contactRef [adam; bob])))
  /\ Index.dedupe [] ([adam; bob] ++ [bob]) = [adam; bob].
Proof.
  assert (Hnd : NoDup (map contactRef [adam; bob])).
  { repeat constructor; cbn; intuition discriminate. }
  assert (Hsub : forall c : Contact,
             In c [bob] -> In (contactRef c) (map contactRef [adam; bob])).
  { intros c [<-|[]]. right. left. reflexivity. }
  split; [split; assumption|].
  apply dedupe_alias_among_names; assumption.
Defined.

(** ** What [search] reports and whom it queries *)

(** The report of the contact block of [search]: the line about no match
    is written exactly when both queries found nothing; otherwise the
    table is written, with one row per contact object found, and it is
    never empty. *)
Theorem searchContacts_report :
  forall (regex : RegExp) (env : Env) (n : nat)
         (byName byAlias : list Contact),
    env n _ (All2 (ContactFindAll (Some (ByName, regex)))
                  (ContactFindAll (Some (ByAlias, regex))))
    = inr (byName, byAlias) ->
    let out := run env n (Index.searchContacts regex) in
    let searching :=
      Log [VSource "Searching contacts using " regex " ..."] in
    (byName ++ byAlias = [] ->
     writes (fst out)
     = [searching; Log [VStr "No matching contacts found :("]]
     /\ snd out = inr false)%list
    /\ (byName ++ byAlias <> [] ->
        writes (fst out)
        = [searching; Log [VStr "- Matched Contacts:"];
           Table (map Index.contactRow
                      (Index.dedupe [] (byName ++ byAlias)))]
        /\ Index.dedupe [] (byName ++ byAlias) <> []
        /\ snd out = inr true)%list.
Proof.
  intros regex env n byName byAlias Henv out searching. subst out.
  unfold Index.searchContacts. cbn [bind log await run]. rewrite Henv.
  cbn [fst snd bind]. split.
  - intros E. apply app_eq_nil in E as [-> ->]. cbn. split; reflexivity.
  - intros Hne.
    assert (Hd : Index.dedupe [] (byName ++ byAlias) <> []).
    { destruct (byName ++ byAlias)%list as [|c l] eqn:E;
        [contradiction|]. cbn. discriminate. }
    assert (He : (Index.isEmpty byName && Index.isEmpty byAlias)%bool
                 = false).
    { destruct byName; [|reflexivity]. destruct byAlias; [|reflexivity].
      contradiction. }
    rewrite He.
    destruct (Index.dedupe [] (byName ++ byAlias)) as [|c l] eqn:E;
      [contradiction|].
    cbn. repeat split. discriminate.
Qed.

Lemma searchContacts_report_example :
  (directoryEnv [adam; bob] [] 0 _
     (All2 (ContactFindAll (Some (ByName, mkRegExp "Bob" true)))
           (ContactFindAll (Some (ByAlias, mkRegExp "Bob" true))))
   = inr ([bob], [bob])
   /\ ([bob] ++ [bob] <> [])%list)
  /\ writes (fst (run (directoryEnv [adam; bob] [] ) 0
                      (Index.searchContacts (mkRegExp "Bob" true))))
     = [ Log [VSource "Searching contacts using " (mkRegExp "Bob" true)
                      " ..."];
         Log [VStr "- Matched Contacts:"];
         Table (map Index.contactRow (Index.dedupe [] ([bob] ++ [bob]))) ].
Proof.
  split; [split; [vm_compute; reflexivity|discriminate]|].
  apply (proj2 (searchContacts_report (mkRegExp "Bob" true)
                  (directoryEnv [adam; bob] []) 0 [bob] [bob]
                  ltac:(vm_compute; reflexivity))).
  discriminate.
Defined.

Lemma Always_searchContacts (regex : RegExp) :
  Always cellsFit isContactQuery (Index.searchContacts regex).
Proof.
  unfold Index.searchContacts.
  apply Always_bind; [apply Always_log; exact I|]. intros _.
  apply Always_bind.
  - apply Always_await. cbn. exists regex. split; reflexivity.
  - intros [byName byAlias]. cbn [fst snd].
    destruct (Index.isEmpty byName && Index.isEmpty byAlias)%bool.
    + apply Always_bind; [apply Always_log; exact I|].
      intros _. constructor.
    + destruct (0 <? length _).
      * apply Always_bind; [apply Always_log; exact I|]. intros _.
        apply Always_bind; [|intros _; constructor].
        unfold table. repeat constructor. cbn.
        apply Forall_map. apply Forall_forall. intros c _.
        apply contactRow_fits.
      * apply Always_bind; [apply Always_log; exact I|].
        intros _. constructor.
Qed.

Lemma Always_searchRooms (regex : RegExp) :
  Always cellsFit isRoomQuery (Index.searchRooms regex).
Proof.
  unfold Index.searchRooms.
  apply Always_bind; [apply Always_log; exact I|]. intros _.
  apply Always_bind.
  - apply Always_await. exact I.
  - intros rooms. destruct (0 <? length _).
    + apply Always_bind; [apply Always_log; exact I|]. intros _.
      unfold table. repeat constructor. cbn.
      apply Forall_map. apply Forall_forall. intros r _.
      apply roomRow_fits.
    + apply Always_log. exact I.
Qed.

Lemma Always_weaken {A : Type} (P P' : Output -> Prop)
      (Q Q' : forall X : Type, Call X -> Prop) (p : Proc A) :
  (forall o, P o -> P' o) -> (forall X c, Q X c -> Q' X c) ->
  Always P Q p -> Always P' Q' p.
Proof.
  intros HP HQ H. induction H; constructor; auto.
Qed.

Lemma Always_compilePattern (syntaxOk : string -> bool) (p : string)
      (P : Output -> Prop) (Q : forall X : Type, Call X -> Prop) :
  (forall args, P (Log args)) ->
  Always P Q (Index.compilePattern syntaxOk p).
Proof.
  intros HP. rewrite compilePattern_cases.
  destruct (slashDelimited p); [|constructor].
  destruct (Index.newRegExp syntaxOk (JsString.slice1m1 p));
    repeat constructor. apply HP.
Qed.

(** With the target type [room], [search] queries the rooms and nothing
    else; with the target type [contact] it queries the contacts, by name
    and by alias with one pattern, and nothing else.  In every table it
    writes, whatever the target type, each cell is at most 35 code units
    wide. *)
Theorem search_queries_by_target_type :
  forall (syntaxOk : string -> bool) (p : string) (env : Env) (n : nat),
    Forall (eventIs anyWrite isRoomQuery)
           (fst (run env n (Index.search syntaxOk p (Some "room"))))
    /\ Forall (eventIs anyWrite isContactQuery)
              (fst (run env n (Index.search syntaxOk p (Some "contact"))))
    /\ forall targetType : option string,
         Forall (eventIs cellsFit (fun _ _ => True))
                (fst (run env n (Index.search syntaxOk p targetType))).
Proof.
  intros syntaxOk p env n. split; [|split].
  - apply Always_run. unfold Index.search.
    apply Always_bind; [apply Always_compilePattern; intros; exact I|].
    intros [regex|]; [|constructor].
    change (Index.wants (Some "room") "contact") with false.
    change (Index.wants (Some "room") "room") with true.
    cbn [bind].
    apply (Always_weaken cellsFit _ isRoomQuery _);
      [intros; exact I|auto|apply Always_searchRooms].
  - apply Always_run. unfold Index.search.
    apply Always_bind; [apply Always_compilePattern; intros; exact I|].
    intros [regex|]; [|constructor].
    change (Index.wants (Some "contact") "contact") with true.
    change (Index.wants (Some "contact") "room") with false.
    apply Always_bind.
    + apply (Always_weaken cellsFit _ isContactQuery _);
        [intros; exact I|auto|apply Always_searchContacts].
    + intros []; constructor.
  - intros targetType. apply Always_run. unfold Index.search.
    apply Always_bind; [apply Always_compilePattern; intros; exact I|].
    intros [regex|]; [|constructor].
    apply Always_bind.
    + destruct (Index.wants targetType "contact"); [|constructor].
      apply (Always_weaken cellsFit _ isContactQuery _);
        [auto|intros; exact I|apply Always_searchContacts].
    + intros []; [|constructor].
      destruct (Index.wants targetType "room"); [|constructor].
      apply (Always_weaken cellsFit _ isRoomQuery _);
        [auto|intros; exact I|apply Always_searchRooms].
Qed.

(** ** What [processCommand] never does *)

Lemma NeverThrows_sendCommand (args : list Arg) :
  NeverThrows (Index.sendCommand args).
Proof.
  unfold Index.sendCommand. destruct (Index.sendLoop _ _) as [st written].
  apply NeverThrows_outs. destruct (_ || _)%bool.
  - apply NeverThrows_log.
  - apply NeverThrows_tryCatch. intros e. apply NeverThrows_log.
Qed.

Lemma NeverThrows_helpCommand (arg1 : option Arg) :
  NeverThrows (Index.helpCommand arg1).
Proof.
  unfold Index.helpCommand.
  repeat match goal with
         | |- NeverThrows (if ?b then _ else _) => destruct b
         | |- NeverThrows (bind _ _) =>
             apply NeverThrows_bind; [|intros _]
         | |- NeverThrows (log _) => apply NeverThrows_log
         end.
Qed.

Lemma NeverThrows_searchCommand (syntaxOk : string -> bool)
      (args : list Arg) :
  NeverThrows (Index.searchCommand syntaxOk args).
Proof.
  unfold Index.searchCommand.
  destruct (Index.searchLoop None None args) as [p t|written].
  - destruct (negb (truthy p)).
    + apply NeverThrows_bind; [|intros _]; apply NeverThrows_log.
    + apply NeverThrows_tryCatch. intros e. apply NeverThrows_log.
  - apply NeverThrows_outs. constructor.
Qed.

Lemma commandOf_tokens (line : string) (arg0 : Arg) (rest : list Arg) :
  Index.commandLineParser (JsString.trim line) = arg0 :: rest ->
  commandOf line = value arg0.
Proof. intros H. unfold commandOf. rewrite H. reflexivity. Qed.

Lemma isStr_false (v : option string) (s : string) :
  v <> Some s -> Index.isStr v s = false.
Proof.
  destruct v as [v|]; [|reflexivity]. cbn. intros H.
  apply String.eqb_neq. congruence.
Qed.

(** Outside the [ls] branch [processCommand] never rejects: whatever the
    line and whatever the collaborator answers or throws, the promise
    resolves (a failure of a lookup or of a [say] is caught and
    reported). *)
Theorem processCommand_resolves :
  forall (syntaxOk : string -> bool)
         (line : string) (env : Env) (n : nat),
    commandOf line <> Some "ls" ->
    exists p : Proc unit,
      Index.processCommand syntaxOk line = Alone p
      /\ snd (run env n p) = inr tt.
Proof.
  intros syntaxOk line env n Hls.
  assert (H : exists p : Proc unit,
             Index.processCommand syntaxOk line = Alone p
             /\ NeverThrows p).
  { unfold Index.processCommand. unfold commandOf in Hls.
    destruct (Index.commandLineParser (JsString.trim line))
      as [|arg0 rest]; [eexists; split; [reflexivity|constructor]|].
    cbv zeta.
    destruct (Index.isStr (value arg0) "send");
      [eexists; split; [reflexivity|apply NeverThrows_sendCommand]|].
    destruct (Index.isStr (value arg0) "help");
      [eexists; split; [reflexivity|apply NeverThrows_helpCommand]|].
    rewrite (isStr_false _ _ Hls).
    destruct (Index.isStr (value arg0) "search");
      eexists; (split; [reflexivity|]);
      [apply NeverThrows_searchCommand|apply NeverThrows_log]. }
  destruct H as (p & Ep & H). exists p. split; [exact Ep|].
  destruct (NeverThrows_run _ H env n) as [[] Ha]. exact Ha.
Qed.

(** A directory whose every operation fails. *)
Lemma processCommand_resolves_example :
  commandOf "send Bob -m hi" <> Some "ls"
  /\ exists p : Proc unit,
       Index.processCommand acceptAll "send Bob -m hi" = Alone p
       /\ snd (run (fun _ X _ => inl (Error "offline")) 0 p) = inr tt.
Proof.
  assert (H : commandOf "send Bob -m hi" <> Some "ls")
    by (vm_compute; discriminate).
  split; [exact H|].
  apply processCommand_resolves. exact H.
Defined.

Lemma Always_helpCommand (arg1 : option Arg) :
  Always anyWrite noCall (Index.helpCommand arg1).
Proof.
  unfold Index.helpCommand.
  repeat match goal with
         | |- Always _ _ (if ?b then _ else _) => destruct b
         | |- Always _ _ (bind _ _) => apply Always_bind; [|intros _]
         | |- Always _ _ (log _) => apply Always_log; exact I
         end.
Qed.

(** The collaborator is reached from the [send], [ls] and [search]
    branches only: a line with any other command, or with none, or a
    [help] line, makes no call. *)
Theorem processCommand_calls_only_for_three_commands :
  forall (syntaxOk : string -> bool)
         (line : string) (env : Env) (n : nat),
    commandOf line <> Some "send" ->
    commandOf line <> Some "ls" ->
    commandOf line <> Some "search" ->
    exists p : Proc unit,
      Index.processCommand syntaxOk line = Alone p
      /\ anyCall (fst (run env n p)) = false.
Proof.
  intros syntaxOk line env n Hsend Hls Hsearch.
  assert (H : exists p : Proc unit,
             Index.processCommand syntaxOk line = Alone p
             /\ Always anyWrite noCall p).
  { unfold Index.processCommand. unfold commandOf in *.
    destruct (Index.commandLineParser (JsString.trim line))
      as [|arg0 rest]; [eexists; split; [reflexivity|constructor]|].
    cbv zeta.
    rewrite (isStr_false _ _ Hsend), (isStr_false _ _ Hls),
      (isStr_false _ _ Hsearch).
    destruct (Index.isStr (value arg0) "help");
      eexists; (split; [reflexivity|]);
      [apply Always_helpCommand|apply Always_log; exact I]. }
  destruct H as (p & Ep & H). exists p. split; [exact Ep|].
  apply noCall_anyCall, Always_run. exact H.
Qed.

Lemma processCommand_calls_only_for_three_commands_example :
  (commandOf "help search" <> Some "send"
   /\ commandOf "help search" <> Some "ls"
   /\ commandOf "help search" <> Some "search")
  /\ exists p : Proc unit,
       Index.processCommand acceptAll "help search" = Alone p
       /\ anyCall (fst (run twoContactsEnv 0 p)) = false.
Proof.
  assert (H1 : commandOf "help search" <> Some "send")
    by (vm_compute; discriminate).
  assert (H2 : commandOf "help search" <> Some "ls")
    by (vm_compute; discriminate).
  assert (H3 : commandOf "help search" <> Some "search")
    by (vm_compute; discriminate).
  split; [repeat split; assumption|].
  apply processCommand_calls_only_for_three_commands; assumption.
Defined.

(** ** Blank lines *)

Lemma trimStart_blank (s : string) :
  allChars JsString.isWhiteSpace s = true ->
  JsString.trimStart s = EmptyString.
Proof.
  induction s as [|c s IH]; [reflexivity|]. cbn [allChars JsString.trimStart].
  intros H. apply andb_prop in H as [Hc Hs]. rewrite Hc. apply IH, Hs.
Qed.

(** A line of white space only (the empty line among them) does nothing:
    nothing is written, nothing is called, in both files. *)
Theorem blank_line_does_nothing :
  forall (syntaxOk : string -> bool) (line : string),
    allChars JsString.isWhiteSpace line = true ->
    Index.processCommand syntaxOk line = Alone (Ret tt)
    /\ CliChatConsole.processCommand line = Ret tt.
Proof.
  intros syntaxOk line H.
  unfold Index.processCommand, CliChatConsole.processCommand,
    JsString.trim.
  rewrite (trimStart_blank _ H). split; reflexivity.
Qed.

Lemma blank_line_does_nothing_example :
  allChars JsString.isWhiteSpace "   " = true
  /\ Index.processCommand acceptAll "   " = Alone (Ret tt).
Proof.
  split; [reflexivity|].
  apply (proj1 (blank_line_does_nothing acceptAll "   " eq_refl)).
Defined.

(** ** [search] without a usable pattern *)

Lemma searchLoop_rejected (rest : list Arg) :
  forall (p t : option string) (written : list Output),
    Index.searchLoop p t rest = Index.Rejected written ->
    exists v : Val,
      written = [Log [VStr "Unknown option or too many patterns:"; v];
                 Log [VStr (Index.usages "search")]].
Proof.
  induction rest as [|a rest IH]; intros p t written E; cbn in E;
    [discriminate E|].
  destruct (Index.flagIs (flag a) "t" "targetType"); [eauto|].
  destruct (negb (truthy (flag a)) && negb (truthy p))%bool; [eauto|].
  injection E as <-. eauto.
Qed.

(** A [search] line whose tokens are rejected by the loop (a second
    positional token, an unrecognized flag) or leave the pattern unset or
    empty: the usage line is written last and the collaborator is not
    called. *)
Theorem search_without_pattern :
  forall (syntaxOk : string -> bool)
         (line : string) (arg0 : Arg) (rest : list Arg)
         (env : Env) (n : nat),
    Index.commandLineParser (JsString.trim line) = arg0 :: rest ->
    value arg0 = Some "search" ->
    (forall (pattern targetType : option string),
        Index.searchLoop None None rest = Index.Parsed pattern targetType ->
        truthy pattern = false) ->
    exists p : Proc unit,
      Index.processCommand syntaxOk line = Alone p
      /\ let tr := fst (run env n p) in
         anyCall tr = false
         /\ exists before : list Output,
              writes tr
              = (before ++ [Log [VStr (Index.usages "search")]])%list.
Proof.
  intros syntaxOk line arg0 rest env n Htok Hcmd Hloop.
  exists (Index.searchCommand syntaxOk rest). split.
  { unfold Index.processCommand. rewrite Htok. cbv zeta.
    rewrite Hcmd. reflexivity. }
  cbv zeta. unfold Index.searchCommand.
  destruct (Index.searchLoop None None rest) as [p t|written] eqn:E.
  - rewrite (Hloop p t eq_refl). cbn. split; [reflexivity|].
    exists [Log [VStr "Please provide a search pattern."]]. reflexivity.
  - destruct (searchLoop_rejected _ _ _ _ E) as [v Hw].
    rewrite run_outs. cbn [run fst snd]. rewrite app_nil_r.
    split; [apply anyCall_map_Wrote|].
    rewrite writes_map_Wrote.
    rewrite Hw.
    exists [Log [VStr "Unknown option or too many patterns:"; v]].
    reflexivity.
Qed.

Lemma search_without_pattern_example :
  (Index.commandLineParser (JsString.trim "search Adam Bob")
   = mkArg None (Some "search")
       :: [mkArg None (Some "Adam"); mkArg None (Some "Bob")]
   /\ Index.searchLoop None None
        [mkArg None (Some "Adam"); mkArg None (Some "Bob")]
      = Index.Rejected
          [Log [VStr "Unknown option or too many patterns:"; VStr "Bob"];
           Log [VStr (Index.usages "search")]])
  /\ exists p : Proc unit,
       Index.processCommand acceptAll "search Adam Bob" = Alone p
       /\ anyCall (fst (run twoContactsEnv 0 p)) = false.
Proof.
  split; [split; vm_compute; reflexivity|].
  destruct (search_without_pattern acceptAll "search Adam Bob"
              (mkArg None (Some "search"))
              [mkArg None (Some "Adam"); mkArg None (Some "Bob")]
              twoContactsEnv 0) as (p & Ep & Hcalls & _).
  - vm_compute. reflexivity.
  - reflexivity.
  - intros pattern targetType H. vm_compute in H. discriminate H.
  - exists p. split; [exact Ep|exact Hcalls].
Defined.

(** ** The outcomes of [send] *)

(** A [send] line with a target and a message: after the warnings of the
    loop exactly one lookup is made, of a room when the target type is
    [room] and of a contact for any other target type.  When the lookup
    rejects, the error is reported; when it finds nothing, the line about
    the target not found is written and nothing is said; when it finds an
    entity, the message is said to it once, unchanged, and a rejection of
    the [say] is reported.  In every case the command completes. *)
Theorem send_outcomes :
  forall (args : list Arg) (env : Env) (n : nat)
         (st : Index.SendVars) (written : list Output),
    Index.sendLoop Index.sendInit args = (st, written) ->
    truthy (Index.target st) = true ->
    truthy (Index.message st) = true ->
    let name := orElse (Index.target st) EmptyString in
    let content := orElse (Index.message st) EmptyString in
    let kind := Index.targetType st in
    let lookup :=
      if String.eqb kind "room" then Called (RoomFind name)
      else Called (ContactFind name) in
    let found : Exn + option Target :=
      if String.eqb kind "room" then
        match env n _ (RoomFind name) with
        | inl e => inl e
        | inr r => inr (option_map ToRoom r)
        end
      else
        match env n _ (ContactFind name) with
        | inl e => inl e
        | inr c => inr (option_map ToContact c)
        end in
    run env n (Index.sendCommand args)
    = ((map Wrote written
          ++ lookup
          :: match found with
             | inl e =>
                 [Wrote (Log [VStr "Error sending message:"; VExn e])]
             | inr None =>
                 [Wrote (Log [VStr ("Error: " ++ kind ++ " "
                                      ++ JsString.quoted name
                                      ++ " not found.")])]
             | inr (Some t) =>
                 Called (Say t content)
                 :: match env (S n) _ (Say t content) with
                    | inl e =>
                        [Wrote (Log [VStr "Error sending message:";
                                     VExn e])]
                    | inr _ => []
                    end
             end)%list,
       inr tt).
Proof.
  intros args env n st written Hloop Ht Hm name content kind lookup found.
  subst name content kind lookup found.
  unfold Index.sendCommand. rewrite Hloop, Ht, Hm. cbn [negb orb].
  rewrite run_outs. unfold Index.sendMessage.
  destruct (String.eqb (Index.targetType st) "room"); cbn.
  - destruct (env n (option Room) _) as [e|[r|]]; cbn; try reflexivity.
    destruct (env (S n) unit _) as [e|[]]; reflexivity.
  - destruct (env n (option Contact) _) as [e|[c|]]; cbn; try reflexivity.
    destruct (env (S n) unit _) as [e|[]]; reflexivity.
Qed.

Lemma send_outcomes_example :
  (Index.sendLoop Index.sendInit
     [mkArg None (Some "Bob"); mkArg (Some "t") (Some "group");
      mkArg (Some "m") (Some "hi")]
   = (Index.mkSendVars (Some "Bob") "group" (Some "hi"), []))
  /\ run twoContactsEnv 0
         (Index.sendCommand
            [mkArg None (Some "Bob"); mkArg (Some "t") (Some "group");
             mkArg (Some "m") (Some "hi")])
     = ([Called (ContactFind "Bob"); Called (Say (ToContact bob) "hi")],
        inr tt).
Proof.
  split; [reflexivity|].
  apply (send_outcomes
           [mkArg None (Some "Bob"); mkArg (Some "t") (Some "group");
            mkArg (Some "m") (Some "hi")]
           twoContactsEnv 0
           (Index.mkSendVars (Some "Bob") "group" (Some "hi")) []);
    reflexivity.
Defined.

(** ** [ls] *)

Lemma flagIs_truthy (f : option string) (a b : string) :
  a <> EmptyString -> b <> EmptyString ->
  Index.flagIs f a b = true -> truthy f = true.
Proof.
  intros Ha Hb. destruct f as [s|]; [|discriminate]. cbn. intros H.
  apply orb_prop in H as [H|H]; apply String.eqb_eq in H; subst s;
    apply negb_true_iff, String.eqb_neq; assumption.
Qed.

(** [ls] reads its first token only.  A token with a value (a positional
    word, or a flag that took the next word as its value) makes no call.
    Without a value, the flag [contact] or [c] runs the listing of the
    contacts and the flag [room] or [r] the listing of the rooms; any
    other flag makes no call.  The listing of the contacts writes its
    opening line and asks for all contacts, once; when the answer comes
    it writes the heading and one table with a row for each contact of
    the answer, in order; when the call is rejected it writes nothing
    more and rejects with the same error; it never asks for rooms.  The
    listing of the rooms does the same with the rooms.  Every cell of the
    tables is at most 35 code units wide. *)
Theorem ls_by_flag :
  forall (arg : Arg) (env : Env) (n : nat),
    (truthy (value arg) = true ->
     exists p : Proc unit,
       Index.lsCommand (Some arg) = Alone p
       /\ anyCall (fst (run env n p)) = false)
    /\ (truthy (value arg) = false ->
        Index.flagIs (flag arg) "contact" "c" = true ->
        Index.lsCommand (Some arg) = Alone Index.getAllContacts)
    /\ (truthy (value arg) = false ->
        Index.flagIs (flag arg) "room" "r" = true ->
        Index.lsCommand (Some arg) = Alone Index.getAllRooms)
    /\ (truthy (flag arg) = true ->
        Index.flagIs (flag arg) "contact" "c" = false ->
        Index.flagIs (flag arg) "room" "r" = false ->
        exists p : Proc unit,
          Index.lsCommand (Some arg) = Alone p
          /\ anyCall (fst (run env n p)) = false)
    /\ run env n Index.getAllContacts
       = (Wrote (Log [VStr "Getting the list of all contacts..."])
            :: Called (ContactFindAll None)
            :: match env n _ (ContactFindAll None) with
               | inl _ => []
               | inr allContacts =>
                   [Wrote (Log [VStr "- List of Contacts:"]);
                    Wrote (Table (map Index.contactRow allContacts))]
               end,
          match env n _ (ContactFindAll None) with
          | inl error => inl error
          | inr _ => inr tt
          end)
    /\ run env n Index.getAllRooms
       = (Wrote (Log [VStr "Getting the list of all rooms..."])
            :: Called (RoomFindAll None)
            :: match env n _ (RoomFindAll None) with
               | inl _ => []
               | inr allRooms =>
                   [Wrote (Log [VStr "- List of Group Chats (Rooms):"]);
                    Wrote (Table (map Index.roomRow allRooms))]
               end,
          match env n _ (RoomFindAll None) with
          | inl error => inl error
          | inr _ => inr tt
          end)
    /\ (forall allContacts : list Contact,
           cellsFit (Table (map Index.contactRow allContacts)))
    /\ (forall allRooms : list Room,
           cellsFit (Table (map Index.roomRow allRooms))).
Proof.
  intros arg env n.
  assert (Hbad : forall v : string,
             anyCall
               (fst (run env n
                         (bind (log [VStr v])
                               (fun _ => log [VStr (Index.usages "ls")]))))
             = false) by reflexivity.
  unfold Index.lsCommand. repeat split.
  - intros Hv. rewrite Hv. eexists. split; [reflexivity|apply Hbad].
  - intros Hv Hf. rewrite Hv.
    assert (Ht : truthy (flag arg) = true)
      by (apply (flagIs_truthy _ "contact" "c");
          [discriminate|discriminate|exact Hf]).
    rewrite Ht, Hf. reflexivity.
  - intros Hv Hf. rewrite Hv.
    assert (Ht : truthy (flag arg) = true)
      by (apply (flagIs_truthy _ "room" "r");
          [discriminate|discriminate|exact Hf]).
    rewrite Ht, Hf. cbn [negb].
    destruct (Index.flagIs (flag arg) "contact" "c") eqn:Hc; [|reflexivity].
    exfalso. destruct (flag arg) as [s|]; [|discriminate].
    cbn in Hc, Hf.
    apply orb_prop in Hc as [Hc|Hc]; apply String.eqb_eq in Hc; subst s;
      discriminate Hf.
  - intros Ht Hc Hr.
    destruct (truthy (value arg));
      [eexists; split; [reflexivity|apply Hbad]|].
    rewrite Ht, Hc, Hr. eexists. split; [reflexivity|apply Hbad].
  - unfold Index.getAllContacts. cbn.
    destruct (env n (list Contact) (ContactFindAll None)); reflexivity.
  - unfold Index.getAllRooms. cbn.
    destruct (env n (list Room) (RoomFindAll None)); reflexivity.
  - intros l. cbn. apply Forall_map, Forall_forall.
    intros c _. apply contactRow_fits.
  - intros l. cbn. apply Forall_map, Forall_forall.
    intros r _. apply roomRow_fits.
Qed.

(** [ls -c Bob], [ls -c], [ls -r] and [ls -x] over the directory of Adam
    and Bob. *)
Lemma ls_by_flag_example :
  (truthy (value (mkArg (Some "c") (Some "Bob"))) = true
   /\ exists p : Proc unit,
        Index.lsCommand (Some (mkArg (Some "c") (Some "Bob"))) = Alone p
        /\ anyCall (fst (run twoContactsEnv 0 p)) = false)
  /\ ((truthy (value (mkArg (Some "c") None)) = false
       /\ Index.flagIs (flag (mkArg (Some "c") None)) "contact" "c" = true)
      /\ Index.lsCommand (Some (mkArg (Some "c") None))
         = Alone Index.getAllContacts)
  /\ ((truthy (value (mkArg (Some "r") None)) = false
       /\ Index.flagIs (flag (mkArg (Some "r") None)) "room" "r" = true)
      /\ Index.lsCommand (Some (mkArg (Some "r") None))
         = Alone Index.getAllRooms)
  /\ ((truthy (flag (mkArg (Some "x") None)) = true
       /\ Index.flagIs (flag (mkArg (Some "x") None)) "contact" "c" = false
       /\ Index.flagIs (flag (mkArg (Some "x") None)) "room" "r" = false)
      /\ exists p : Proc unit,
           Index.lsCommand (Some (mkArg (Some "x") None)) = Alone p
           /\ anyCall (fst (run twoContactsEnv 0 p)) = false)
  /\ run twoContactsEnv 0 Index.getAllContacts
     = ([Wrote (Log [VStr "Getting the list of all contacts..."]);
         Called (ContactFindAll None);
         Wrote (Log [VStr "- List of Contacts:"]);
         Wrote (Table [[("id", "@1"); ("alias", EmptyString);
                        ("name", "Adam")];
                       [("id", "@2"); ("alias", "Bobby");
                        ("name", "Bob")]])],
        inr tt).
Proof.
  pose proof (ls_by_flag (mkArg (Some "c") (Some "Bob")) twoContactsEnv 0)
    as (H1 & _).
  pose proof (ls_by_flag (mkArg (Some "c") None) twoContactsEnv 0)
    as (_ & H2 & _ & _ & H5 & _).
  pose proof (ls_by_flag (mkArg (Some "r") None) twoContactsEnv 0)
    as (_ & _ & H3 & _).
  pose proof (ls_by_flag (mkArg (Some "x") None) twoContactsEnv 0)
    as (_ & _ & _ & H4 & _).
  split; [split; [reflexivity|apply H1; reflexivity]|].
  split; [split; [split; reflexivity|apply H2; reflexivity]|].
  split; [split; [split; reflexivity|apply H3; reflexivity]|].
  split; [split; [repeat split|apply H4; reflexivity]|].
  rewrite H5. vm_compute. reflexivity.
Defined.

(** ** [cli_chat.ts] and [index.ts] on a [send] line *)

Lemma sendStep_vars_agree (st : Index.SendVars) (arg : Arg) :
  fst (CliChatConsole.sendStep st arg) = fst (Index.sendStep st arg).
Proof.
  unfold CliChatConsole.sendStep, Index.sendStep.
  destruct (Index.flagIs (flag arg) "t" "targetType"); [reflexivity|].
  destruct (Index.flagIs (flag arg) "m" "message"); [reflexivity|].
  destruct (negb (truthy (flag arg)) && negb (truthy (Index.target st)))%bool;
    reflexivity.
Qed.

Lemma sendLoop_vars_agree (args : list Arg) :
  forall st : Index.SendVars,
    fst (CliChatConsole.sendLoop st args) = fst (Index.sendLoop st args).
Proof.
  induction args as [|a args IH]; intros st; [reflexivity|].
  cbn [CliChatConsole.sendLoop Index.sendLoop].
  pose proof (sendStep_vars_agree st a) as Hs.
  destruct (CliChatConsole.sendStep st a) as [st1 o1].
  destruct (Index.sendStep st a) as [st1' o1']. cbn [fst] in Hs. subst st1'.
  specialize (IH st1).
  destruct (CliChatConsole.sendLoop st1 args) as [st2 o2].
  destruct (Index.sendLoop st1 args) as [st2' o2']. exact IH.
Qed.

Lemma calls_app (t u : list Event) : calls (t ++ u) = (calls t ++ calls u)%list.
Proof. apply filter_app. Qed.

Lemma calls_map_Wrote (os : list Output) : calls (map Wrote os) = [].
Proof. induction os; [reflexivity|exact IHos]. Qed.

(** On a [send] line the two files make the same calls of the
    collaborator, with the same arguments and in the same order, whatever
    it answers, and both complete: they differ in what they write only
    (one warning line instead of two, and the line after a successful
    [say]). *)
Theorem send_calls_agree :
  forall (syntaxOk : string -> bool)
         (line : string) (env : Env) (n : nat),
    commandOf line = Some "send" ->
    exists p : Proc unit,
      Index.processCommand syntaxOk line = Alone p
      /\ calls (fst (run env n (CliChatConsole.processCommand line)))
         = calls (fst (run env n p))
      /\ snd (run env n (CliChatConsole.processCommand line)) = inr tt
      /\ snd (run env n p) = inr tt.
Proof.
  intros syntaxOk line env n Hcmd.
  unfold CliChatConsole.processCommand, Index.processCommand.
  change (CliChat.commandLineParser (JsString.trim line))
    with (Index.commandLineParser (JsString.trim line)).
  unfold commandOf in Hcmd.
  destruct (Index.commandLineParser (JsString.trim line))
    as [|arg0 rest]; [discriminate Hcmd|].
  cbv zeta. rewrite Hcmd.
  replace (Index.isStr (Some "send") "send") with true by reflexivity.
  cbv iota. eexists. split; [reflexivity|].
  unfold CliChatConsole.sendCommand, Index.sendCommand.
  pose proof (sendLoop_vars_agree rest Index.sendInit) as Hvars.
  destruct (CliChatConsole.sendLoop Index.sendInit rest) as [st w].
  destruct (Index.sendLoop Index.sendInit rest) as [st' w'].
  cbn [fst] in Hvars. subst st'.
  rewrite !run_outs. cbn [fst snd]. rewrite !calls_app, !calls_map_Wrote.
  cbn [app].
  destruct (negb (truthy (Index.target st))
            || negb (truthy (Index.message st)))%bool;
    [repeat split|].
  unfold CliChatConsole.sendMessage, Index.sendMessage.
  destruct (String.eqb (Index.targetType st) "room"); cbn.
  - destruct (env n (option Room) _) as [e|[r|]]; cbn;
      [repeat split| |repeat split].
    destruct (env (S n) unit _) as [e|[]]; cbn; repeat split.
  - destruct (env n (option Contact) _) as [e|[c|]]; cbn;
      [repeat split| |repeat split].
    destruct (env (S n) unit _) as [e|[]]; cbn; repeat split.
Qed.

Lemma send_calls_agree_example :
  commandOf "send Bob -x -m hi" = Some "send"
  /\ exists p : Proc unit,
       Index.processCommand acceptAll "send Bob -x -m hi" = Alone p
       /\ calls (fst (run twoContactsEnv 0
                          (CliChatConsole.processCommand
                             "send Bob -x -m hi")))
          = calls (fst (run twoContactsEnv 0 p)).
Proof.
  assert (H : commandOf "send Bob -x -m hi" = Some "send")
    by (vm_compute; reflexivity).
  split; [exact H|].
  destruct (send_calls_agree acceptAll "send Bob -x -m hi"
              twoContactsEnv 0 H) as (p & Ep & Hc & _).
  exists p. split; [exact Ep|exact Hc].
Defined.

(** [processCommand] of [cli_chat.ts] never rejects, whatever the line
    and whatever the collaborator answers or throws.  Its listener has
    no [try] around the call, so this is what lets it go on to its
    [rl.prompt()]. *)
Theorem cli_chat_processCommand_resolves :
  forall (line : string) (env : Env) (n : nat),
    snd (run env n (CliChatConsole.processCommand line)) = inr tt.
Proof.
  intros line env n.
  assert (H : NeverThrows (CliChatConsole.processCommand line)).
  { unfold CliChatConsole.processCommand.
    destruct (CliChat.commandLineParser (JsString.trim line))
      as [|arg0 rest]; [constructor|]. cbv zeta.
    destruct (Index.isStr (value arg0) "send"); [|apply NeverThrows_log].
    unfold CliChatConsole.sendCommand.
    destruct (CliChatConsole.sendLoop _ _) as [st written].
    apply NeverThrows_outs. destruct (_ || _)%bool.
    - apply NeverThrows_log.
    - apply NeverThrows_tryCatch. intros e. apply NeverThrows_log. }
  destruct (NeverThrows_run _ H env n) as [[] Ha]. exact Ha.
Qed.

(** ** The event loop: every line gets its prompt *)

Section Liveness.
Import Index.
Local Open Scope list_scope.

Variable syntaxOk : string -> bool.

Lemma dispatched_count (actions : list Action) :
  dispatched (runConsole syntaxOk actions)
  = length (filter (fun a => match a with Submit _ => true | _ => false end)
                   actions).
Proof.
  unfold runConsole.
  induction actions as [|a actions IH] using rev_ind; [reflexivity|].
  rewrite fold_left_app, filter_app, length_app. cbn [fold_left].
  destruct a as [line|i env]; cbn [act filter length].
  - unfold submit. destruct (processCommand syntaxOk line) as [p|a b].
    + destruct (lineListener _ _). cbn [dispatched]. rewrite IH. lia.
    + destruct (closure _ a) as [ea sa]. destruct (closure _ b) as [eb sb].
      destruct (promiseAll sa sb); cbn [dispatched]; rewrite IH; lia.
  - unfold settle.
    destruct (nth_error _ i) as [[n0 X c k|n0 X c k]|];
      [| |rewrite IH; lia].
    + destruct (lineListener _ _). cbn [dispatched]. rewrite IH. lia.
    + destruct (closure _ _) as [es [w|over]];
        [|destruct (closureOver _ _ _ _)];
        cbn [dispatched]; rewrite IH; lia.
Qed.

(** With nothing suspended, every line dispatched has prompted, once. *)
Lemma idle_prompted_once (actions : list Action) (n : nat) :
  suspended (runConsole syntaxOk actions) = [] ->
  n < dispatched (runConsole syntaxOk actions) ->
  exists t1 t2 : list ConsoleEvent,
    trace (runConsole syntaxOk actions) = t1 ++ Prompted n :: t2
    /\ ~ In (Prompted n) t1
    /\ ~ In (Prompted n) t2.
Proof.
  intros Hidle Hn.
  destruct (runConsole_reachable syntaxOk actions)
    as [_ _ _ _ _ _ _ HH HI HJ].
  assert (Hp : In (Prompted n) (trace (runConsole syntaxOk actions))).
  { destruct (HI n Hn) as [H|[H|H]]; [| |exact H].
    - unfold waitingLines in H. rewrite Hidle in H. destruct H.
    - apply HH in H as [H _]. unfold listingLines in H.
      rewrite Hidle in H. destruct H. }
  apply in_split in Hp as (t1 & t2 & E). exists t1, t2.
  split; [exact E|].
  destruct (HJ n t1 t2 E) as (_ & H1 & H2 & _). split; assumption.
Qed.

End Liveness.

(** Whatever lines arrive and however the calls settle, once no listener
    and no listing is left suspended every line submitted so far has had
    its closing [rl.prompt()], exactly once: a line is never left without
    its prompt, not even when [processCommand] throws. *)
Theorem every_line_is_prompted_once :
  forall (syntaxOk : string -> bool)
         (actions : list Index.Action) (n : nat),
    Index.suspended (Index.runConsole syntaxOk actions) = [] ->
    n < length (filter (fun a => match a with
                                 | Index.Submit _ => true
                                 | Index.Settle _ _ => false
                                 end) actions) ->
    exists t1 t2 : list Index.ConsoleEvent,
      Index.trace (Index.runConsole syntaxOk actions)
      = (t1 ++ Index.Prompted n :: t2)%list
      /\ ~ In (Index.Prompted n) t1
      /\ ~ In (Index.Prompted n) t2.
Proof.
  intros syntaxOk actions n Hidle Hn.
  rewrite <- (dispatched_count syntaxOk) in Hn.
  exact (idle_prompted_once syntaxOk actions n Hidle Hn).
Qed.

(** An [ls] whose enumeration is rejected: the error is logged by the
    listener and the prompt comes. *)
Lemma every_line_is_prompted_once_example :
  (Index.suspended
     (Index.runConsole acceptAll
        [ Index.Submit "ls -c";
          Index.Settle 0 (fun _ _ => inl (Error "offline")) ]) = []
   /\ 0 < length (filter (fun a => match a with
                                   | Index.Submit _ => true
                                   | Index.Settle _ _ => false
                                   end)
                         [ Index.Submit "ls -c";
                           Index.Settle 0
                             (fun _ _ => inl (Error "offline")) ]))
  /\ exists t1 t2 : list Index.ConsoleEvent,
       Index.trace
         (Index.runConsole acceptAll
            [ Index.Submit "ls -c";
              Index.Settle 0 (fun _ _ => inl (Error "offline")) ])
       = (t1 ++ Index.Prompted 0 :: t2)%list
       /\ ~ In (Index.Prompted 0) t1
       /\ ~ In (Index.Prompted 0) t2.
Proof.
  assert (H1 : Index.suspended
                 (Index.runConsole acceptAll
                    [ Index.Submit "ls -c";
                      Index.Settle 0 (fun _ _ => inl (Error "offline")) ])
               = []) by (vm_compute; reflexivity).
  split; [split; [exact H1|cbn; lia]|].
  apply every_line_is_prompted_once; [exact H1|cbn; lia].
Defined.

(** ** Escaping a pattern *)

Lemma literal_injective (p : string) :
  forall q : string, literal p = literal q -> p = q.
Proof.
  induction p as [|c p IH]; intros [|d q] H; try discriminate H;
    [reflexivity|].
  cbn [literal] in H. unfold RegExpEngine.Chr in H.
  injection H as Hc Hl. f_equal; [exact Hc|apply IH, Hl].
Qed.

Lemma escapePattern_length (p : string) :
  String.length p <= String.length (Index.escapePattern p).
Proof.
  induction p as [|c p IH]; [reflexivity|]. cbn [Index.escapePattern].
  destruct (Index.isEscaped c); cbn [String.length]; lia.
Qed.

(** Escaping loses nothing: the escaped text parses back to the
    characters of the raw text, two raw texts with the same escaped text
    are the same, and the escaped text is the raw text exactly when the
    raw text has none of the escaped characters. *)
Theorem escapePattern_round_trip :
  forall p : string,
    RegExpEngine.parseLiteral (Index.escapePattern p) = Some (literal p)
    /\ (forall q : string,
           Index.escapePattern p = Index.escapePattern q -> p = q)
    /\ (Index.escapePattern p = p
        <-> allChars (fun c => negb (Index.isEscaped c)) p = true).
Proof.
  intros p. split; [apply parseLiteral_escapePattern|split].
  - intros q H. apply literal_injective.
    pose proof (parseLiteral_escapePattern p) as Hp.
    pose proof (parseLiteral_escapePattern q) as Hq.
    rewrite H in Hp. congruence.
  - induction p as [|c p IH]; [split; reflexivity|].
    cbn [Index.escapePattern allChars].
    destruct (Index.isEscaped c) eqn:E; cbn [negb andb].
    + split; [|discriminate]. intros H. injection H as _ H.
      pose proof (escapePattern_length p) as Hl.
      apply (f_equal String.length) in H. cbn [String.length] in H. lia.
    + rewrite <- IH. split; intros H; [injection H as H|f_equal]; exact H.
Qed.

Lemma escapePattern_round_trip_example :
  Index.escapePattern "a.b" = Index.escapePattern "a.b"
  /\ "a.b" = "a.b"
  /\ allChars (fun c => negb (Index.isEscaped c)) "Bob" = true
  /\ Index.escapePattern "Bob" = "Bob".
Proof.
  split; [reflexivity|]. split.
  - apply (proj1 (proj2 (escapePattern_round_trip "a.b")) "a.b").
    reflexivity.
  - split; [reflexivity|].
    apply (proj2 (proj2 (escapePattern_round_trip "Bob"))). reflexivity.
Defined.

(** ** What the groups of a pattern capture *)

Section Captures.
Import RegExpEngine.
Local Open Scope list_scope.

Variable ic : bool.
Variable input : string.

Lemma nth_setNth (m n : nat) (v : option (nat * nat)) :
  forall l : list (option (nat * nat)),
    nth m (setNth n v None l) None
    = if m =? n then v else nth m l None.
Proof.
  revert m. induction n as [|n IH]; intros m l.
  - destruct l, m as [|m]; cbn; try reflexivity. destruct m; reflexivity.
  - destruct l as [|h l], m as [|m]; cbn [setNth nth Nat.eqb];
      try reflexivity.
    + rewrite IH. destruct (m =? n); [reflexivity|]. destruct m; reflexivity.
    + apply IH.
Qed.

Lemma runOf_no_group (P : ascii -> bool) (r : Regex) :
  runOf ic P r = true -> groups r = [].
Proof.
  induction r as [|neg cs|a IHa b IHb|a IHa b IHb|min max greedy a IHa
                 |n a IHa|n]; cbn; try discriminate; auto.
  destruct min; [discriminate|]. destruct max; [discriminate|]. exact IHa.
Qed.

Lemma spans_join (P : ascii -> bool) (a b c : nat) :
  spans P input a b -> spans P input b c -> spans P input a c.
Proof.
  intros (Hab & _ & H1) (Hbc & Hc & H2). repeat split; [lia|exact Hc|].
  intros i Hi Hic. destruct (Nat.lt_ge_cases i b); [apply H1|apply H2]; lia.
Qed.

Lemma repeat_run (P : ascii -> bool) (m : Matcher) (greedy : bool) :
  RunMatcher input P m ->
  forall (fuel min : nat) (x z : MatchState) (c : Continuation),
    repeatMatcher m (clearCaptures []) greedy fuel min None x c = Some z ->
    exists y : MatchState,
      c y = Some z /\ captures y = captures x
      /\ (spans P input (endIndex x) (endIndex y)
          \/ (min = 0 /\ endIndex y = endIndex x)).
Proof.
  intros Hm. induction fuel as [|fuel IH]; intros min x z c H;
    [discriminate H|].
  cbn [repeatMatcher maxIsZero option_map] in H.
  change (clearCaptures [] x) with x in H.
  set (d := fun y : MatchState =>
              if (min =? 0) && (endIndex y =? endIndex x) then None
              else repeatMatcher m (clearCaptures []) greedy fuel (pred min)
                                 None y c) in H.
  assert (Hiter : m x d = Some z ->
                  exists y, c y = Some z /\ captures y = captures x
                            /\ spans P input (endIndex x) (endIndex y)).
  { intros E. apply Hm in E as (y1 & E & Hc1 & Hs1). unfold d in E.
    destruct ((min =? 0) && (endIndex y1 =? endIndex x)); [discriminate E|].
    apply IH in E as (y & E & Hc & Hs). exists y.
    split; [exact E|]. split; [congruence|].
    destruct Hs as [Hs|[_ Hs]].
    - apply (spans_join P _ (endIndex y1)); assumption.
    - rewrite Hs. exact Hs1. }
  assert (Hstop : min = 0 -> c x = Some z ->
                  exists y, c y = Some z /\ captures y = captures x
                            /\ (spans P input (endIndex x) (endIndex y)
                                \/ (min = 0 /\ endIndex y = endIndex x))).
  { intros H0 E. exists x. repeat split; auto. }
  destruct min as [|min]; cbn [Nat.eqb negb] in H.
  - destruct greedy.
    + destruct (m x d) eqn:E.
      * injection H as ->. destruct (Hiter eq_refl) as (y & ? & ? & ?).
        exists y. auto.
      * auto.
    + destruct (c x) eqn:E.
      * injection H as ->. auto.
      * destruct (Hiter H) as (y & ? & ? & ?). exists y. auto.
  - destruct (Hiter H) as (y & ? & ? & ?). exists y. auto.
Qed.

Lemma runOf_sound (P : ascii -> bool) (r : Regex) :
  runOf ic P r = true -> RunMatcher input P (matcher ic input r).
Proof.
  induction r as [|neg cs|a IHa b IHb|a IHa b IHb|min max greedy a IHa
                 |n a IHa|n]; cbn [runOf]; try discriminate; intros HP.
  - intros x z c H. cbn [matcher] in H.
    destruct (String.get (endIndex x) input) as [ch|] eqn:G;
      [|discriminate H].
    destruct (xorb neg (inSet ic ch cs)) eqn:E; [|discriminate H].
    eexists. split; [exact H|]. split; [reflexivity|].
    cbn [endIndex]. repeat split; [lia|apply get_some_length in G; lia|].
    intros i Hi Hi'. assert (i = endIndex x) by lia. subst i.
    exists ch. split; [exact G|].
    rewrite forallb_forall in HP. specialize (HP ch (in_allAscii ch)).
    rewrite E in HP. exact HP.
  - destruct min as [|min]; [discriminate|].
    destruct max; [discriminate|].
    intros x z c H. cbn [matcher] in H.
    rewrite (runOf_no_group _ _ HP) in H.
    apply (repeat_run P _ greedy (IHa HP)) in H as (y & E & Hc & Hs).
    exists y. split; [exact E|]. split; [exact Hc|].
    destruct Hs as [Hs|[H0 _]]; [exact Hs|discriminate H0].
Qed.

Variable P : nat -> ascii -> bool.

Lemma clearCaptures_span (ns : list nat) :
  forall x : MatchState,
    capturesSpan P input (captures x) ->
    capturesSpan P input (captures (clearCaptures ns x)).
Proof.
  unfold clearCaptures.
  induction ns as [|n ns IH]; intros x Hx; cbn [fold_left]; [exact Hx|].
  apply IH. intros k s e Hk. cbn [setCapture captures] in Hk.
  rewrite nth_setNth in Hk. destruct (k =? n); [discriminate Hk|].
  apply Hx, Hk.
Qed.

Lemma repeat_groups (m : Matcher) (ns : list nat) (greedy : bool) :
  GroupMatcher input P m ->
  forall (fuel min : nat) (max : option nat),
    GroupMatcher input P
      (repeatMatcher m (clearCaptures ns) greedy fuel min max).
Proof.
  intros Hm. induction fuel as [|fuel IH]; intros min max x z c Hx Hcx H;
    [discriminate H|].
  cbn [repeatMatcher] in H.
  assert (Hstop : c x = Some z ->
                  exists y, c y = Some z /\ endIndex x <= endIndex y
                            /\ endIndex y <= String.length input
                            /\ capturesSpan P input (captures y)).
  { intros E. exists x. split; [exact E|]. split; [lia|].
    split; [exact Hx|exact Hcx]. }
  set (d := fun y : MatchState =>
              if (min =? 0) && (endIndex y =? endIndex x) then None
              else repeatMatcher m (clearCaptures ns) greedy fuel (pred min)
                                 (option_map pred max) y c) in H.
  assert (Hiter : m (clearCaptures ns x) d = Some z ->
                  exists y, c y = Some z /\ endIndex x <= endIndex y
                            /\ endIndex y <= String.length input
                            /\ capturesSpan P input (captures y)).
  { intros E. apply Hm in E as (y1 & E & Hle & Hlen & Hc1).
    - rewrite clearCaptures_endIndex in Hle. unfold d in E.
      destruct ((min =? 0) && (endIndex y1 =? endIndex x));
        [discriminate E|].
      apply IH in E as (y & E & Hle' & Hlen' & Hc); auto.
      exists y. split; [exact E|]. split; [lia|].
      split; [exact Hlen'|exact Hc].
    - rewrite clearCaptures_endIndex. exact Hx.
    - apply clearCaptures_span, Hcx. }
  destruct (maxIsZero max); [auto|].
  destruct (negb (min =? 0)); [auto|].
  destruct greedy.
  - destruct (m (clearCaptures ns x) d) eqn:E; [|auto].
    injection H as ->. auto.
  - destruct (c x) eqn:E; [|auto]. injection H as ->. auto.
Qed.

Lemma groupsRunOf_sound (r : Regex) :
  groupsRunOf ic P r = true -> GroupMatcher input P (matcher ic input r).
Proof.
  induction r as [|neg cs|a IHa b IHb|a IHa b IHb|min max greedy a IHa
                 |n a IHa|n]; cbn [groupsRunOf]; intros HP x z c Hx Hcx H;
    cbn [matcher] in H.
  - exists x. split; [exact H|]. split; [lia|].
    split; [exact Hx|exact Hcx].
  - destruct (String.get (endIndex x) input) as [ch|] eqn:G;
      [|discriminate H].
    destruct (xorb neg (inSet ic ch cs)); [|discriminate H].
    apply get_some_length in G.
    eexists. split; [exact H|]. cbn [endIndex captures].
    split; [lia|]. split; [lia|exact Hcx].
  - apply andb_prop in HP as [Ha Hb].
    apply (IHa Ha) in H as (y1 & H & Hle1 & Hlen1 & Hc1); auto.
    apply (IHb Hb) in H as (y & H & Hle & Hlen & Hc); auto.
    exists y. split; [exact H|]. split; [lia|].
    split; [exact Hlen|exact Hc].
  - apply andb_prop in HP as [Ha Hb].
    destruct (matcher ic input a x c) eqn:E.
    + injection H as ->. apply (IHa Ha) in E; auto.
    + apply (IHb Hb) in H; auto.
  - apply (repeat_groups _ _ _ (IHa HP)) in H; auto.
  - apply (runOf_sound _ _ HP) in H as (y1 & H & Hc1 & Hs).
    eexists. split; [exact H|]. cbn [setCapture endIndex captures].
    destruct Hs as (Hlt & Hlen & Hall).
    split; [lia|]. split; [exact Hlen|].
    intros k s e Hk. rewrite nth_setNth in Hk.
    destruct (k =? n) eqn:E.
    + apply Nat.eqb_eq in E. subst k. injection Hk as <- <-.
      repeat split; assumption.
    + rewrite Hc1 in Hk. apply Hcx, Hk.
  - destruct (getCapture n x) as [[s e]|].
    + destruct (endIndex x + (e - s) <=? String.length input) eqn:L;
        [|discriminate H].
      cbn [andb] in H. destruct (String.eqb _ _); [|discriminate H].
      apply Nat.leb_le in L.
      eexists. split; [exact H|]. cbn [endIndex captures].
      split; [lia|]. split; [lia|exact Hcx].
    + exists x. split; [exact H|]. split; [lia|].
      split; [exact Hx|exact Hcx].
Qed.

(** Every match that [exec] and [matchAll] return is a match in [input]
    whose captures span characters of their classes. *)
Lemma execFrom_captures (r : Regex) :
  groupsRunOf ic P r = true ->
  forall (fuel lastIndex : nat) (m : MatchResult),
    execFrom fuel ic input r lastIndex = Some m ->
    matchInput m = input /\ capturesSpan P input (matchCaptures m).
Proof.
  intros HP. induction fuel as [|fuel IH]; intros lastIndex m H;
    [discriminate H|].
  cbn [execFrom] in H.
  destruct (String.length input <? lastIndex) eqn:L; [discriminate H|].
  apply Nat.ltb_ge in L.
  destruct (matchAt ic input r lastIndex) as [y|] eqn:E.
  - injection H as <-. cbn [matchInput matchCaptures]. split; [reflexivity|].
    unfold matchAt in E.
    apply (groupsRunOf_sound r HP) in E as (y' & E & _ & _ & Hc).
    + injection E as ->. exact Hc.
    + exact L.
    + intros n s e Hn. destruct n; discriminate Hn.
  - apply IH in H. exact H.
Qed.

End Captures.

Lemma matchAllFrom_captures (P : nat -> ascii -> bool) (input : string)
      (r : RegExpEngine.Regex) :
  groupsRunOf false P r = true ->
  forall (fuel lastIndex : nat) (m : RegExpEngine.MatchResult),
    In m (RegExpEngine.matchAllFrom fuel input r lastIndex) ->
    RegExpEngine.matchInput m = input
    /\ capturesSpan P input (RegExpEngine.matchCaptures m).
Proof.
  intros HP. induction fuel as [|fuel IH]; intros lastIndex m H;
    [contradiction H|].
  cbn [RegExpEngine.matchAllFrom] in H.
  destruct (RegExpEngine.exec false input r lastIndex) as [m0|] eqn:E;
    [|contradiction H].
  destruct H as [<-|H].
  - unfold RegExpEngine.exec in E.
    apply (execFrom_captures false input P r HP) in E. exact E.
  - apply IH in H. exact H.
Qed.

Lemma substring_spans (P : ascii -> bool) (input : string) :
  forall s k : nat,
    s + k <= String.length input ->
    (forall i : nat, s <= i -> i < s + k ->
       exists ch : ascii, String.get i input = Some ch /\ P ch = true) ->
    String.length (substring s k input) = k
    /\ allChars P (substring s k input) = true.
Proof.
  induction input as [|a t IH]; intros s k Hlen Hall.
  - cbn in Hlen. assert (k = 0) by lia. subst k.
    destruct s; split; reflexivity.
  - destruct s as [|s].
    + destruct k as [|k]; [split; reflexivity|].
      cbn [substring String.length allChars].
      destruct (IH 0 k) as [Hl Ha].
      * cbn in Hlen. lia.
      * intros i Hi Hik. destruct (Hall (S i)) as (ch & G & Hp); [lia|lia|].
        exists ch. split; [exact G|exact Hp].
      * destruct (Hall 0) as (ch & G & Hp); [lia|lia|].
        cbn in G. injection G as ->. rewrite Hl, Hp, Ha. split; reflexivity.
    + cbn [substring]. apply IH.
      * cbn in Hlen. lia.
      * intros i Hi Hik. destruct (Hall (S i)) as (ch & G & Hp); [lia|lia|].
        exists ch. split; [exact G|exact Hp].
Qed.

Lemma group_spans (P : nat -> ascii -> bool) (m : RegExpEngine.MatchResult)
      (n : nat) (str : string) :
  capturesSpan P (RegExpEngine.matchInput m) (RegExpEngine.matchCaptures m) ->
  RegExpEngine.group n m = Some str ->
  str <> EmptyString /\ allChars (P n) str = true.
Proof.
  intros Hc H. unfold RegExpEngine.group in H.
  destruct (nth n (RegExpEngine.matchCaptures m) None) as [[s e]|] eqn:E;
    [|discriminate H].
  injection H as <-. apply Hc in E as (Hlt & Hlen & Hall).
  destruct (substring_spans (P n) (RegExpEngine.matchInput m) s (e - s))
    as [Hl Ha].
  - lia.
  - intros i Hi Hie. apply Hall; lia.
  - split; [|exact Ha]. intros H0. rewrite H0 in Hl. cbn in Hl. lia.
Qed.

(** A field of a token that is defined is never the empty string, for
    every input and in both files: a flag is a non-empty name without an
    equals sign, a space or a quote, and a value is a non-empty string.
    So a defined field is always truthy. *)
Theorem token_fields_not_empty :
  forall (command : string) (tok : Arg),
    In tok (Index.commandLineParser command)
    \/ In tok (CliChat.commandLineParser command) ->
    (forall f : string,
        flag tok = Some f ->
        f <> EmptyString /\ allChars (tokenClass 1) f = true)
    /\ (forall v : string, value tok = Some v -> v <> EmptyString)
    /\ truthy (flag tok)
       = match flag tok with Some _ => true | None => false end
    /\ truthy (value tok)
       = match value tok with Some _ => true | None => false end.
Proof.
  intros command tok H.
  assert (Hin : In tok (Index.commandLineParser command))
    by (destruct H as [H|H]; exact H).
  clear H. unfold Index.commandLineParser in Hin.
  apply in_flat_map in Hin as (m & Hm & Htok).
  apply (matchAllFrom_captures tokenClass command Index.regex eq_refl)
    in Hm as [Hinput Hcaps].
  rewrite <- Hinput in Hcaps.
  unfold Index.argOfMatch in Htok.
  destruct (String.eqb (RegExpEngine.whole m) EmptyString);
    [contradiction Htok|].
  destruct Htok as [<-|[]]. cbn [flag value].
  assert (Hflag : forall f, RegExpEngine.group 1 m = Some f ->
                            f <> EmptyString
                            /\ allChars (tokenClass 1) f = true)
    by (intros f; apply group_spans; exact Hcaps).
  assert (Hvalue : forall v,
             (if truthy (RegExpEngine.group 2 m)
              then RegExpEngine.group 3 m else RegExpEngine.group 4 m)
             = Some v -> v <> EmptyString).
  { intros v Hv. destruct (truthy (RegExpEngine.group 2 m));
      apply (group_spans tokenClass m _ v Hcaps) in Hv; apply Hv. }
  assert (Htruthy : forall o : option string,
             (forall s, o = Some s -> s <> EmptyString) ->
             truthy o = match o with Some _ => true | None => false end).
  { intros [s|] Hs; [|reflexivity]. cbn.
    apply negb_true_iff, String.eqb_neq, Hs. reflexivity. }
  split; [exact Hflag|]. split; [exact Hvalue|]. split.
  - apply Htruthy. intros s Hs. apply Hflag, Hs.
  - apply Htruthy. exact Hvalue.
Qed.

Lemma token_fields_not_empty_example :
  In (mkArg (Some "m") (Some "hi")) (Index.commandLineParser "send -m hi")
  /\ (Some "m" = Some "m" /\ "m" <> EmptyString)
  /\ (Some "hi" = Some "hi" /\ "hi" <> EmptyString).
Proof.
  assert (H : In (mkArg (Some "m") (Some "hi"))
                 (Index.commandLineParser "send -m hi"))
    by (vm_compute; right; left; reflexivity).
  pose proof (token_fields_not_empty "send -m hi" _ (or_introl H))
    as (Hf & Hv & _).
  split; [exact H|]. split; (split; [reflexivity|]).
  - apply (Hf "m" eq_refl).
  - apply (Hv "hi" eq_refl).
Defined.


(** ** The tokenizer on the lines it was written for *)

(** The matcher of the pattern of [commandLineParser] is followed forwards
    here: on an input of a known shape, which branch each quantifier
    and each alternative takes and where the match ends. *)
Section Tokens.
Import RegExpEngine.

Variable input : string.

Lemma append_assoc_s (a b c : string) : (a ++ b) ++ c = a ++ b ++ c.
Proof. induction a; cbn; congruence. Qed.

(** Reading the input at and after an index through what it holds
    there. *)
Lemma suffixAt_get (i : nat) (body : string) (j : nat) :
  suffixAt input i body -> String.get (i + j) input = String.get j body.
Proof.
  intros (pre & -> & <-). rewrite Nat.add_comm. symmetry.
  apply append_correct2.
Qed.

Lemma suffixAt_head (i : nat) (body : string) :
  suffixAt input i body ->
  String.get i input
  = match body with String ch _ => Some ch | EmptyString => None end.
Proof.
  intros H. pose proof (suffixAt_get i body 0 H) as E.
  rewrite Nat.add_0_r in E. rewrite E. destruct body; reflexivity.
Qed.

Lemma suffixAt_app (i : nat) (a b : string) :
  suffixAt input i (a ++ b) -> suffixAt input (i + String.length a) b.
Proof.
  intros (pre & -> & <-). exists (pre ++ a). split.
  - symmetry. apply append_assoc_s.
  - apply length_append.
Qed.

Lemma suffixAt_tail (i : nat) (ch : ascii) (body : string) :
  suffixAt input i (String ch body) -> suffixAt input (S i) body.
Proof.
  intros H. apply (suffixAt_app i (String ch EmptyString) body) in H.
  cbn in H. rewrite Nat.add_1_r in H. exact H.
Qed.

Lemma suffixAt_length (i : nat) (body : string) :
  suffixAt input i body -> String.length input = i + String.length body.
Proof. intros (pre & -> & <-). apply length_append. Qed.

Lemma suffixAt_substring (i : nat) (a b : string) :
  suffixAt input i (a ++ b) -> substring i (String.length a) input = a.
Proof.
  intros (pre & -> & <-). induction pre as [|ch pre IH]; cbn.
  - induction a as [|ch a IH]; cbn; [destruct b; reflexivity|].
    f_equal. exact IH.
  - exact IH.
Qed.

(** CharacterSetMatcher on the character at the end index. *)
Lemma charset_at (neg : bool) (cs : list ascii) (i : nat)
      (caps : list (option (nat * nat))) (c : Continuation)
      (body : string) :
  suffixAt input i body ->
  matcher false input (CharSet neg cs) (mkState i caps) c
  = match body with
    | String ch _ => if cls neg cs ch then c (mkState (S i) caps) else None
    | EmptyString => None
    end.
Proof.
  intros H. cbn [matcher endIndex captures].
  rewrite (suffixAt_head _ _ H). destruct body; reflexivity.
Qed.

(** A greedy unbounded quantifier over a class, on a run of the class
    that ends where the input ends or leaves the class: when the
    continuation accepts the end of the run, that is the result (the
    longest choice is tried first). *)
Lemma greedy_run (neg : bool) (cs : list ascii) (w : string) :
  forall (tail : string) (i fuel min : nat)
         (caps : list (option (nat * nat))) (c : Continuation)
         (z : MatchState),
    suffixAt input i (w ++ tail) ->
    allChars (cls neg cs) w = true ->
    headIn (cls neg cs) tail = false ->
    min <= String.length w -> String.length w < fuel ->
    c (mkState (i + String.length w) caps) = Some z ->
    repeatMatcher (matcher false input (CharSet neg cs)) (clearCaptures [])
                  true fuel min None (mkState i caps) c
    = Some z.
Proof.
  induction w as [|ch w IH];
    intros tail i fuel min caps c z Hat Hw Ht Hmin Hfuel Hc.
  - cbn in Hmin, Hc. assert (min = 0) by lia. subst min.
    destruct fuel as [|fuel]; [cbn in Hfuel; lia|].
    rewrite Nat.add_0_r in Hc.
    cbn [repeatMatcher maxIsZero Nat.eqb negb clearCaptures fold_left].
    rewrite (charset_at _ _ _ _ _ _ Hat). cbn [append].
    destruct tail as [|ch t]; [exact Hc|]. cbn in Ht. rewrite Ht. exact Hc.
  - cbn [allChars] in Hw. apply andb_true_iff in Hw as [Hch Hw].
    cbn [String.length] in Hmin, Hfuel, Hc.
    destruct fuel as [|fuel]; [lia|].
    cbn [repeatMatcher maxIsZero clearCaptures fold_left].
    rewrite (charset_at _ _ _ _ _ _ Hat). cbn [append]. rewrite Hch.
    cbn [endIndex]. rewrite (proj2 (Nat.eqb_neq (S i) i)) by lia.
    rewrite andb_false_r. cbn [option_map].
    rewrite (IH tail (S i) fuel (pred min) caps c z).
    + destruct (min =? 0); reflexivity.
    + apply (suffixAt_tail _ _ _ Hat).
    + exact Hw.
    + exact Ht.
    + lia.
    + lia.
    + rewrite Nat.add_succ_r in Hc. exact Hc.
Qed.

(** A lazy unbounded quantifier over a class: the result is the first
    end, from the shortest on, that the continuation accepts. *)
Lemma lazy_run (neg : bool) (cs : list ascii) (w : string) :
  forall (tail : string) (i fuel min : nat)
         (caps : list (option (nat * nat))) (c : Continuation)
         (z : MatchState),
    suffixAt input i (w ++ tail) ->
    allChars (cls neg cs) w = true ->
    min <= String.length w -> String.length w < fuel ->
    (forall j : nat, min <= j -> j < String.length w ->
                     c (mkState (i + j) caps) = None) ->
    c (mkState (i + String.length w) caps) = Some z ->
    repeatMatcher (matcher false input (CharSet neg cs)) (clearCaptures [])
                  false fuel min None (mkState i caps) c
    = Some z.
Proof.
  induction w as [|ch w IH];
    intros tail i fuel min caps c z Hat Hw Hmin Hfuel Hnone Hc.
  - cbn in Hmin, Hc. assert (min = 0) by lia. subst min.
    destruct fuel as [|fuel]; [cbn in Hfuel; lia|].
    rewrite Nat.add_0_r in Hc.
    cbn [repeatMatcher maxIsZero Nat.eqb negb clearCaptures fold_left].
    rewrite Hc. reflexivity.
  - cbn [allChars] in Hw. apply andb_true_iff in Hw as [Hch Hw].
    cbn [String.length] in Hmin, Hfuel, Hc, Hnone.
    destruct fuel as [|fuel]; [lia|].
    assert (E : repeatMatcher (matcher false input (CharSet neg cs))
                  (clearCaptures []) false fuel (pred min) None
                  (mkState (S i) caps) c = Some z).
    { apply (IH tail).
      - apply (suffixAt_tail _ _ _ Hat).
      - exact Hw.
      - lia.
      - lia.
      - intros j Hj Hjw. rewrite Nat.add_succ_l, <- Nat.add_succ_r.
        apply Hnone; lia.
      - rewrite Nat.add_succ_r in Hc. exact Hc. }
    cbn [repeatMatcher maxIsZero clearCaptures fold_left].
    rewrite (charset_at _ _ _ _ _ _ Hat). cbn [append]. rewrite Hch.
    cbn [endIndex]. rewrite (proj2 (Nat.eqb_neq (S i) i)) by lia.
    rewrite andb_false_r. cbn [option_map]. rewrite E.
    destruct min as [|min]; cbn [Nat.eqb negb]; [|reflexivity].
    rewrite <- (Nat.add_0_r i) at 1. rewrite Hnone by lia. reflexivity.
Qed.

Lemma matcher_quant (a : Regex) (min : nat) (max : option nat)
      (greedy : bool) (x : MatchState) (c : Continuation) :
  matcher false input (Quant min max greedy a) x c
  = repeatMatcher (matcher false input a) (clearCaptures (groups a)) greedy
                  (min + String.length input + 2) min max x c.
Proof. reflexivity. Qed.

Lemma matcher_seq (a b : Regex) (x : MatchState) (c : Continuation) :
  matcher false input (Seq a b) x c
  = matcher false input a x (fun y => matcher false input b y c).
Proof. reflexivity. Qed.

Lemma matcher_group (n : nat) (a : Regex) (x : MatchState)
      (c : Continuation) :
  matcher false input (Group n a) x c
  = matcher false input a x
      (fun y => c (setCapture n (Some (endIndex x, endIndex y)) y)).
Proof. reflexivity. Qed.

Lemma matcher_disj (a b : Regex) (x : MatchState) (c : Continuation) :
  matcher false input (Disj a b) x c
  = match matcher false input a x c with
    | Some z => Some z
    | None => matcher false input b x c
    end.
Proof. reflexivity. Qed.

(** A greedy optional atom: the atom is tried first and must advance;
    otherwise it is skipped and its captures keep what they had. *)
Lemma matcher_opt (a : Regex) (x : MatchState) (c : Continuation) :
  matcher false input (Quant 0 (Some 1) true a) x c
  = match matcher false input a (clearCaptures (groups a) x)
            (fun y => if endIndex y =? endIndex x then None else c y) with
    | Some z => Some z
    | None => c x
    end.
Proof.
  rewrite matcher_quant.
  replace (0 + String.length input + 2) with (S (S (String.length input)))
    by lia.
  reflexivity.
Qed.

Lemma matcher_greedy (neg : bool) (cs : list ascii) (min : nat)
      (w tail : string) (i : nat) (caps : list (option (nat * nat)))
      (c : Continuation) (z : MatchState) :
  suffixAt input i (w ++ tail) ->
  allChars (cls neg cs) w = true ->
  headIn (cls neg cs) tail = false ->
  min <= String.length w ->
  c (mkState (i + String.length w) caps) = Some z ->
  matcher false input (Quant min None true (CharSet neg cs))
          (mkState i caps) c
  = Some z.
Proof.
  intros Hat Hw Ht Hmin Hc. rewrite matcher_quant.
  apply (greedy_run neg cs w tail); try assumption.
  apply suffixAt_length in Hat. rewrite length_append in Hat. lia.
Qed.

Lemma matcher_lazy (neg : bool) (cs : list ascii) (min : nat)
      (w tail : string) (i : nat) (caps : list (option (nat * nat)))
      (c : Continuation) (z : MatchState) :
  suffixAt input i (w ++ tail) ->
  allChars (cls neg cs) w = true ->
  min <= String.length w ->
  (forall j : nat, min <= j -> j < String.length w ->
                   c (mkState (i + j) caps) = None) ->
  c (mkState (i + String.length w) caps) = Some z ->
  matcher false input (Quant min None false (CharSet neg cs))
          (mkState i caps) c
  = Some z.
Proof.
  intros Hat Hw Hmin Hnone Hc. rewrite matcher_quant.
  apply (lazy_run neg cs w tail); try assumption.
  apply suffixAt_length in Hat. rewrite length_append in Hat. lia.
Qed.

(** A quantifier that needs one character of a class fails where the
    input ends or holds another character. *)
Lemma matcher_plus_fail (neg : bool) (cs : list ascii) (greedy : bool)
      (min : nat) (body : string) (i : nat)
      (caps : list (option (nat * nat))) (c : Continuation) :
  suffixAt input i body ->
  headIn (cls neg cs) body = false ->
  matcher false input (Quant (S min) None greedy (CharSet neg cs))
          (mkState i caps) c
  = None.
Proof.
  intros Hat Hb. rewrite matcher_quant.
  replace (S min + String.length input + 2)
    with (S (min + String.length input + 2)) by lia.
  cbn [repeatMatcher maxIsZero clearCaptures fold_left Nat.eqb negb groups].
  rewrite (charset_at _ _ _ _ _ _ Hat).
  destruct body as [|ch t]; [reflexivity|]. cbn in Hb. rewrite Hb.
  reflexivity.
Qed.

Ltac open_state :=
  cbv beta; unfold clearCaptures; cbn [groups app fold_left];
  unfold setCapture; cbn [endIndex captures].

Lemma opt_take (a : Regex) (x z : MatchState) (c : Continuation) :
  matcher false input a (clearCaptures (groups a) x)
          (fun y => if endIndex y =? endIndex x then None else c y)
  = Some z ->
  matcher false input (Quant 0 (Some 1) true a) x c = Some z.
Proof. intros H. rewrite matcher_opt, H. reflexivity. Qed.

Lemma opt_skip (a : Regex) (x : MatchState) (c : Continuation) :
  matcher false input a (clearCaptures (groups a) x)
          (fun y => if endIndex y =? endIndex x then None else c y)
  = None ->
  matcher false input (Quant 0 (Some 1) true a) x c = c x.
Proof. intros H. rewrite matcher_opt, H. reflexivity. Qed.

(** The classes and the three parts of the pattern: the leading spaces,
    the optional flag and the optional value. *)
Local Notation "'spaceCs'" := [" "%char].
Local Notation "'dashCs'" := ["-"%char].
Local Notation "'nameCs'" := ["="; " "; "'"; dquote]%char.
Local Notation "'sepCs'" := ["="; " "]%char.
Local Notation "'quoteCs'" := ["'"; dquote]%char.
Local Notation "'contentCs'" := ["002"%char].
Local Notation "'bareCs'" := ["-"; " "; dquote; "'"]%char.

Local Notation "'spacesPart'" := (Quant 0 None true (CharSet false spaceCs)).
Local Notation "'flagPart'" :=
  (Quant 0 (Some 1) true
     (Seq (Quant 1 None true (CharSet false dashCs))
     (Seq (Group 1 (Quant 1 None true (CharSet true nameCs)))
          (Quant 0 (Some 1) true (CharSet false sepCs))))).
Local Notation "'valuePart'" :=
  (Quant 0 (Some 1) true
     (Disj (Seq (Group 2 (CharSet false quoteCs))
           (Seq (Group 3 (Quant 1 None false (CharSet true contentCs)))
                (BackRef 2)))
           (Group 4 (Quant 1 None true (CharSet true bareCs))))).

Lemma regex_parts :
  Index.regex = Seq spacesPart (Seq flagPart valuePart)
  /\ CliChat.regex = Seq spacesPart (Seq flagPart valuePart).
Proof. split; reflexivity. Qed.

Lemma bare_char (ch : ascii) :
  tokenClass 4 ch = true ->
  cls false spaceCs ch = false /\ cls false dashCs ch = false
  /\ cls false quoteCs ch = false.
Proof.
  unfold tokenClass, cls, inSet, canonicalize. cbn [existsb xorb].
  destruct (Ascii.eqb "-" ch), (Ascii.eqb " " ch), (Ascii.eqb dquote ch),
    (Ascii.eqb "'" ch); cbn; intros H; try discriminate H; auto.
Qed.

(** The flag part where no dash stands: it is skipped. *)
Lemma flag_skip (body : string) (i : nat)
      (caps : list (option (nat * nat))) (c : Continuation) :
  suffixAt input i body ->
  headIn (cls false dashCs) body = false ->
  matcher false input flagPart (mkState i caps) c = c (mkState i caps).
Proof.
  intros Hat Hb. apply opt_skip.
  open_state.
  rewrite matcher_seq. apply (matcher_plus_fail _ _ _ _ body); assumption.
Qed.

(** The flag part on one dash and a flag name: group 1 captures the
    name, and one equals sign or space after it is taken as well. *)
Lemma flag_take (f tail : string) (i : nat)
      (caps : list (option (nat * nat))) (c : Continuation)
      (z : MatchState) :
  suffixAt input i ("-" ++ f ++ tail) ->
  isFlagName f = true ->
  headIn (cls true nameCs) tail = false ->
  c (mkState (i + 1 + String.length f
              + (if headIn (cls false sepCs) tail then 1 else 0))
             (setNth 1 (Some (i + 1, i + 1 + String.length f)) None
                     (setNth 1 None None caps)))
  = Some z ->
  matcher false input flagPart (mkState i caps) c = Some z.
Proof.
  intros Hat Hf Ht Hc.
  assert (Hat1 : suffixAt input (i + 1) (f ++ tail)).
  { apply (suffixAt_app i "-" (f ++ tail)). exact Hat. }
  assert (Hat2 : suffixAt input (i + 1 + String.length f) tail).
  { apply (suffixAt_app _ f tail). exact Hat1. }
  destruct f as [|ch f']; [discriminate Hf|].
  cbn [isFlagName] in Hf. apply andb_true_iff in Hf as [Hd Hn].
  apply opt_take.
  open_state.
  rewrite matcher_seq.
  apply (matcher_greedy false dashCs 1 "-" (String ch f' ++ tail)).
  - exact Hat.
  - reflexivity.
  - cbn [append headIn]. unfold cls, inSet, canonicalize.
    cbn [existsb xorb]. rewrite orb_false_r. apply negb_true_iff in Hd.
    rewrite Ascii.eqb_sym. exact Hd.
  - cbn. lia.
  - cbn [String.length]. rewrite matcher_seq, matcher_group.
    apply (matcher_greedy true nameCs 1 (String ch f') tail).
    + exact Hat1.
    + exact Hn.
    + exact Ht.
    + cbn. lia.
    + open_state.
      set (p := i + 1 + String.length (String ch f')) in *.
      destruct tail as [|t ts].
      * rewrite opt_skip.
        -- cbn [endIndex]. rewrite (proj2 (Nat.eqb_neq p i)) by (unfold p; lia).
           cbn [headIn] in Hc. rewrite Nat.add_0_r in Hc. exact Hc.
        -- cbn [groups clearCaptures fold_left].
           rewrite (charset_at _ _ _ _ _ _ Hat2). reflexivity.
      * cbn [headIn] in Hc.
        destruct (cls false sepCs t) eqn:Hs.
        -- apply opt_take. cbn [groups clearCaptures fold_left].
           rewrite (charset_at _ _ _ _ _ _ Hat2), Hs.
           cbn [endIndex].
           rewrite (proj2 (Nat.eqb_neq (S p) p)) by lia.
           rewrite (proj2 (Nat.eqb_neq (S p) i)) by (unfold p; lia).
           rewrite Nat.add_1_r in Hc. exact Hc.
        -- rewrite opt_skip.
           ++ cbn [endIndex].
              rewrite (proj2 (Nat.eqb_neq p i)) by (unfold p; lia).
              rewrite Nat.add_0_r in Hc. exact Hc.
           ++ cbn [groups clearCaptures fold_left].
              rewrite (charset_at _ _ _ _ _ _ Hat2), Hs. reflexivity.
Qed.

Lemma disj_left (a b : Regex) (x z : MatchState) (c : Continuation) :
  matcher false input a x c = Some z ->
  matcher false input (Disj a b) x c = Some z.
Proof. intros H. rewrite matcher_disj, H. reflexivity. Qed.

Lemma disj_right (a b : Regex) (x : MatchState) (c : Continuation) :
  matcher false input a x c = None ->
  matcher false input (Disj a b) x c = matcher false input b x c.
Proof. intros H. rewrite matcher_disj, H. reflexivity. Qed.

Lemma allChars_impl (P Q : ascii -> bool) (s : string) :
  (forall ch : ascii, P ch = true -> Q ch = true) ->
  allChars P s = true -> allChars Q s = true.
Proof.
  intros HPQ. induction s as [|ch s IH]; cbn; [reflexivity|].
  intros H. apply andb_true_iff in H as [H1 H2].
  rewrite (HPQ _ H1), (IH H2). reflexivity.
Qed.

Lemma suffixAt_nth (P : ascii -> bool) (w : string) :
  forall (tail : string) (i j : nat),
    suffixAt input i (w ++ tail) -> j < String.length w ->
    allChars P w = true ->
    exists (ch : ascii) (t : string),
      suffixAt input (i + j) (String ch t) /\ P ch = true.
Proof.
  induction w as [|a w IH]; intros tail i j Hat Hj Hw; [cbn in Hj; lia|].
  cbn [allChars] in Hw. apply andb_true_iff in Hw as [Ha Hw].
  destruct j as [|j].
  - exists a, (w ++ tail). rewrite Nat.add_0_r. split; assumption.
  - cbn [String.length] in Hj.
    destruct (IH tail (S i) j) as (ch & t & H1 & H2);
      [apply (suffixAt_tail _ _ _ Hat)|lia|exact Hw|].
    exists ch, t. rewrite Nat.add_succ_r. split; assumption.
Qed.

Lemma substring_at (s n : nat) (a b : string) :
  suffixAt input s (a ++ b) -> n = s + String.length a ->
  substring s (n - s) input = a.
Proof.
  intros Hat ->. rewrite Nat.add_comm, Nat.add_sub.
  apply (suffixAt_substring _ _ _ Hat).
Qed.

(** The back reference to a captured single character. *)
Lemma backref_at (n s e : nat) (q ch : ascii) (t1 t2 : string)
      (caps : list (option (nat * nat))) (c : Continuation) :
  nth n caps None = Some (s, S s) ->
  suffixAt input s (String q t1) ->
  suffixAt input e (String ch t2) ->
  matcher false input (BackRef n) (mkState e caps) c
  = if Ascii.eqb q ch then c (mkState (S e) caps) else None.
Proof.
  intros Hn Hs He. cbn [matcher]. unfold getCapture.
  cbn [captures endIndex]. rewrite Hn.
  replace (S s - s) with 1 by lia.
  pose proof (suffixAt_substring s (String q EmptyString) t1 Hs) as E1.
  pose proof (suffixAt_substring e (String ch EmptyString) t2 He) as E2.
  cbn [String.length] in E1, E2. rewrite E1, E2.
  apply suffixAt_length in He. cbn [String.length] in He.
  rewrite (proj2 (Nat.leb_le (e + 1) (String.length input))) by lia.
  cbn [canonicalizeString canonicalize String.eqb andb].
  rewrite Nat.add_1_r.
  destruct (Ascii.eqb q ch); reflexivity.
Qed.

Lemma spaces_run (sp body : string) (i : nat)
      (caps : list (option (nat * nat))) (c : Continuation)
      (z : MatchState) :
  suffixAt input i (sp ++ body) ->
  allChars (cls false spaceCs) sp = true ->
  headIn (cls false spaceCs) body = false ->
  c (mkState (i + String.length sp) caps) = Some z ->
  matcher false input spacesPart (mkState i caps) c = Some z.
Proof.
  intros Hat Hsp Hb Hc.
  apply (matcher_greedy false spaceCs 0 sp body); try assumption. lia.
Qed.

(** The value part where the input ends or a dash or a space stands: it
    is skipped. *)
Lemma value_skip (body : string) (p : nat)
      (caps : list (option (nat * nat))) (c : Continuation) :
  suffixAt input p body ->
  headIn (cls false quoteCs) body = false ->
  headIn (cls true bareCs) body = false ->
  matcher false input valuePart (mkState p caps) c = c (mkState p caps).
Proof.
  intros Hat Hq Hb. apply opt_skip.
  open_state.
  rewrite disj_right.
  - rewrite matcher_group.
    apply (matcher_plus_fail _ _ _ _ body); assumption.
  - rewrite matcher_seq, matcher_group, (charset_at _ _ _ _ _ _ Hat).
    destruct body as [|ch t]; [reflexivity|]. cbn [headIn] in Hq.
    rewrite Hq. reflexivity.
Qed.

(** The value part on a bare word: group 4 captures the word up to the
    next dash, space or quote. *)
Lemma value_bare (v tail : string) (p : nat)
      (caps : list (option (nat * nat))) :
  suffixAt input p (v ++ tail) ->
  v <> EmptyString ->
  allChars (tokenClass 4) v = true ->
  headIn (cls true bareCs) tail = false ->
  matcher false input valuePart (mkState p caps) (fun y => Some y)
  = Some (mkState (p + String.length v)
            (setNth 4 (Some (p, p + String.length v)) None
               (setNth 4 None None
                  (setNth 3 None None (setNth 2 None None caps))))).
Proof.
  intros Hat Hv Hb Ht. apply opt_take.
  open_state.
  rewrite disj_right.
  - rewrite matcher_group.
    apply (matcher_greedy true bareCs 1 v tail); try assumption.
    + destruct v; [contradiction|cbn; lia].
    + open_state.
      rewrite (proj2 (Nat.eqb_neq (p + String.length v) p)); [reflexivity|].
      destruct v; [contradiction|cbn; lia].
  - rewrite matcher_seq, matcher_group, (charset_at _ _ _ _ _ _ Hat).
    destruct v as [|ch v']; [contradiction|]. cbn [append].
    cbn [allChars] in Hb. apply andb_true_iff in Hb as [Hb _].
    apply bare_char in Hb as (_ & _ & Hb). rewrite Hb. reflexivity.
Qed.

Lemma quotable_content (ch : ascii) :
  quotableChar ch = true ->
  cls true contentCs ch = true /\ Ascii.eqb "'" ch = false.
Proof.
  unfold quotableChar. intros H. apply andb_true_iff in H as [H1 H2].
  split; [exact H2|]. apply negb_true_iff in H1.
  rewrite Ascii.eqb_sym. exact H1.
Qed.

(** The value part on a text between single quotes: group 2 captures
    the opening quote and group 3 the text up to the first character
    equal to it. *)
Lemma value_quoted (v tail : string) (p : nat)
      (caps : list (option (nat * nat))) :
  suffixAt input p ("'" ++ v ++ "'" ++ tail) ->
  v <> EmptyString ->
  allChars quotableChar v = true ->
  matcher false input valuePart (mkState p caps) (fun y => Some y)
  = Some (mkState (S (S p + String.length v))
            (setNth 3 (Some (S p, S p + String.length v)) None
               (setNth 2 (Some (p, S p)) None
                  (setNth 4 None None
                     (setNth 3 None None (setNth 2 None None caps)))))).
Proof.
  intros Hat Hv Hq.
  assert (Hat1 : suffixAt input (S p) (v ++ "'" ++ tail)).
  { apply (suffixAt_tail _ _ _ Hat). }
  assert (Hat2 : suffixAt input (S p + String.length v) ("'" ++ tail)).
  { apply (suffixAt_app _ _ _ Hat1). }
  apply opt_take.
  open_state.
  apply disj_left.
  rewrite matcher_seq, matcher_group, (charset_at _ _ _ _ _ _ Hat).
  cbn [append]. change (cls false quoteCs "'") with true. cbv iota. open_state.
  set (caps2 := setNth 2 (Some (p, S p)) None _).
  rewrite matcher_seq, matcher_group.
  assert (Hn : forall e : nat,
             nth 2 (setNth 3 (Some (S p, e)) None caps2) None
             = Some (p, S p)).
  { intros e. unfold caps2. rewrite !nth_setNth. reflexivity. }
  apply (matcher_lazy true contentCs 1 v ("'" ++ tail)).
  - exact Hat1.
  - apply (allChars_impl quotableChar); [|exact Hq].
    intros ch H. apply (quotable_content ch H).
  - destruct v; [contradiction|cbn; lia].
  - intros j Hj Hjv. open_state.
    destruct (suffixAt_nth quotableChar v _ (S p) j Hat1 Hjv Hq)
      as (ch & t & Hch & Hqc).
    rewrite (backref_at 2 p (S p + j) "'" ch _ t _ _ (Hn _) Hat Hch).
    apply quotable_content in Hqc as [_ Hqc]. rewrite Hqc. reflexivity.
  - open_state.
    rewrite (backref_at 2 p (S p + String.length v) "'" "'" _ tail _ _
                        (Hn _) Hat Hat2).
    change (Ascii.eqb "'" "'") with true. cbv iota. cbn [endIndex].
    rewrite (proj2 (Nat.eqb_neq (S (S p + String.length v)) p)) by lia.
    reflexivity.
Qed.

Lemma matchAt_regex (i : nat) :
  matchAt false input Index.regex i
  = matcher false input spacesPart (mkState i [])
      (fun y => matcher false input flagPart y
                  (fun y' => matcher false input valuePart y'
                               (fun z => Some z))).
Proof. reflexivity. Qed.

(** One match of the whole pattern: without and with a flag. *)
Lemma token_positional (sp body : string) (i : nat) (y : MatchState) :
  suffixAt input i (sp ++ body) ->
  allChars (cls false spaceCs) sp = true ->
  headIn (cls false spaceCs) body = false ->
  headIn (cls false dashCs) body = false ->
  matcher false input valuePart (mkState (i + String.length sp) [])
          (fun z => Some z)
  = Some y ->
  matchAt false input Index.regex i = Some y.
Proof.
  intros Hat Hsp Hs Hd Hv. rewrite matchAt_regex.
  apply (spaces_run sp body); try assumption.
  rewrite (flag_skip body); [exact Hv| |exact Hd].
  apply (suffixAt_app _ _ _ Hat).
Qed.

Lemma token_flag (sp f tail : string) (i : nat) (y : MatchState) :
  suffixAt input i (sp ++ "-" ++ f ++ tail) ->
  allChars (cls false spaceCs) sp = true ->
  isFlagName f = true ->
  headIn (cls true nameCs) tail = false ->
  matcher false input valuePart
          (mkState (i + String.length sp + 1 + String.length f
                    + (if headIn (cls false sepCs) tail then 1 else 0))
                   [None; Some (i + String.length sp + 1,
                                i + String.length sp + 1 + String.length f)])
          (fun z => Some z)
  = Some y ->
  matchAt false input Index.regex i = Some y.
Proof.
  intros Hat Hsp Hf Ht Hv. rewrite matchAt_regex.
  apply (spaces_run sp ("-" ++ f ++ tail)); try assumption; [reflexivity|].
  apply (flag_take f tail); try assumption.
  apply (suffixAt_app _ _ _ Hat).
Qed.

(** The value part on a written value, bare or quoted: the value of
    the token is the value that was written. *)
Lemma value_take (v tail : string) (p : nat)
      (caps : list (option (nat * nat))) :
  suffixAt input p (renderValue v ++ tail) ->
  isValue v = true ->
  headIn (cls true bareCs) tail = false ->
  exists y : MatchState,
    matcher false input valuePart (mkState p caps) (fun z => Some z)
    = Some y
    /\ endIndex y = p + String.length (renderValue v)
    /\ nth 1 (captures y) None = nth 1 caps None
    /\ forall i e : nat,
         let m := mkResult i e (captures y) input in
         (if truthy (group 2 m) then group 3 m else group 4 m) = Some v.
Proof.
  intros Hat Hv Ht. unfold isValue in Hv.
  apply andb_true_iff in Hv as [Hne Hv]. apply negb_true_iff in Hne.
  apply String.eqb_neq in Hne. unfold renderValue in *.
  destruct (allChars (tokenClass 4) v) eqn:Hb.
  - eexists. split; [apply (value_bare v tail); assumption|].
    cbn [endIndex captures]. split; [reflexivity|].
    split; [rewrite !nth_setNth; reflexivity|].
    intros i e. cbv zeta. unfold group. cbn [matchCaptures matchInput].
    rewrite !nth_setNth. cbn [Nat.eqb truthy].
    rewrite (substring_at p _ v tail Hat eq_refl). reflexivity.
  - cbn [orb] in Hv. rewrite !append_assoc_s in Hat.
    eexists. split; [apply (value_quoted v tail); assumption|].
    cbn [endIndex captures]. split.
    { rewrite !length_append. cbn [String.length]. lia. }
    split; [rewrite !nth_setNth; reflexivity|].
    intros i e. cbv zeta. unfold group. cbn [matchCaptures matchInput].
    rewrite !nth_setNth. cbn [Nat.eqb].
    rewrite (substring_at p (S p) "'" _ Hat);
      [|cbn [String.length]; lia].
    cbn [truthy String.eqb negb].
    rewrite (substring_at (S p) _ v _ (suffixAt_tail _ _ _ Hat) eq_refl).
    reflexivity.
Qed.

Lemma append_nil_r (s : string) : s ++ EmptyString = s.
Proof. induction s; cbn; congruence. Qed.

Lemma render_cons (a : Arg) (rest : list Arg) :
  render (a :: rest)
  = renderArg a ++ match rest with
                   | [] => EmptyString
                   | _ :: _ => " " ++ render rest
                   end.
Proof.
  destruct rest; [|reflexivity].
  unfold render. cbn [map JsString.join]. symmetry. apply append_nil_r.
Qed.

Lemma substring_nonempty (n : nat) (s : string) :
  forall i : nat,
    i < String.length s -> 0 < n ->
    String.eqb (substring i n s) EmptyString = false.
Proof.
  induction s as [|ch s IH]; intros i Hi Hn; [cbn in Hi; lia|].
  destruct i as [|i].
  - destruct n; [lia|]. reflexivity.
  - cbn [substring]. apply IH; [cbn in Hi; lia|exact Hn].
Qed.

Lemma substring_none (s : string) :
  forall i : nat, substring i 0 s = EmptyString.
Proof.
  induction s as [|ch s IH]; intros [|i]; cbn; auto.
Qed.

Lemma argOfMatch_at (i e : nat) (caps : list (option (nat * nat))) :
  i < e -> e <= String.length input ->
  Index.argOfMatch (mkResult i e caps input)
  = [mkArg (group 1 (mkResult i e caps input))
           (if truthy (group 2 (mkResult i e caps input))
            then group 3 (mkResult i e caps input)
            else group 4 (mkResult i e caps input))].
Proof.
  intros Hi He. unfold Index.argOfMatch, whole.
  cbn [matchIndex matchEnd matchInput].
  rewrite substring_nonempty by lia. reflexivity.
Qed.

Lemma exec_at (i : nat) (y : MatchState) :
  matchAt false input Index.regex i = Some y ->
  i <= String.length input ->
  exec false input Index.regex i
  = Some (mkResult i (endIndex y) (captures y) input).
Proof.
  intros H Hi. unfold exec.
  replace (String.length input + 2 - i)
    with (S (String.length input + 1 - i)) by lia.
  cbn [execFrom]. rewrite (proj2 (Nat.ltb_ge _ _) Hi), H. reflexivity.
Qed.

(** One turn of the loop over the matches: at the text of a token the
    match is not empty, gives that token and ends where the text of the
    next token starts, after the space between them at most. *)
Lemma token_step (i : nat) (sp : string) (a : Arg) (rest : list Arg) :
  suffixAt input i (sp ++ render (a :: rest)) ->
  allChars (cls false spaceCs) sp = true ->
  writable (a :: rest) = true ->
  exists (y : MatchState) (sp' : string),
    matchAt false input Index.regex i = Some y
    /\ i < endIndex y
    /\ Index.argOfMatch (mkResult i (endIndex y) (captures y) input) = [a]
    /\ suffixAt input (endIndex y) (sp' ++ render rest)
    /\ allChars (cls false spaceCs) sp' = true
    /\ (rest = [] -> sp' = EmptyString).
Proof.
  intros Hat Hsp Hw. rewrite render_cons in Hat.
  set (T := match rest with
            | [] => EmptyString
            | _ :: _ => " " ++ render rest
            end) in Hat.
  assert (HT4 : headIn (cls true bareCs) T = false)
    by (destruct rest; reflexivity).
  assert (HTs : exists sp' : string,
             T = sp' ++ render rest
             /\ allChars (cls false spaceCs) sp' = true
             /\ (rest = [] -> sp' = EmptyString)).
  { destruct rest as [|b r].
    - exists EmptyString. repeat split.
    - exists " ". split; [reflexivity|]. split; [reflexivity|].
      intros H. discriminate H. }
  destruct HTs as (sp' & HT & Hsp' & Hnil).
  pose proof (suffixAt_app _ _ _ Hat) as Hat0.
  set (e := i + String.length sp) in *.
  cbn [writable] in Hw. apply andb_true_iff in Hw as [Ha Hrest].
  destruct a as [[f|] [v|]]; unfold renderArg in Hat, Hat0;
    cbn [flag value] in *.
  - (* a flag and its value *)
    apply andb_true_iff in Ha as [Hf Hv].
    rewrite !append_assoc_s in Hat, Hat0.
    pose proof (suffixAt_app _ "-" _ Hat0) as Hat1.
    pose proof (suffixAt_app _ f _ Hat1) as Hat2.
    pose proof (suffixAt_app _ " " _ Hat2) as Hat3.
    cbn [String.length] in Hat1, Hat2, Hat3.
    destruct (value_take v T _ [None; Some (e + 1, e + 1 + String.length f)]
                         Hat3 Hv HT4)
      as (y & Hy & Hend & H1 & Hval).
    pose proof (suffixAt_app _ _ _ Hat3) as Hat4. rewrite <- Hend in Hat4.
    exists y, sp'. split.
    { apply (token_flag sp f (" " ++ renderValue v ++ T));
        try assumption; try reflexivity. }
    split; [rewrite Hend; unfold e; lia|].
    split.
    { rewrite argOfMatch_at;
        [|rewrite Hend; unfold e; lia
         |apply suffixAt_length in Hat4; lia].
      rewrite Hval. unfold group. cbn [matchCaptures matchInput].
      rewrite H1. cbn [nth].
      rewrite (substring_at (e + 1) _ f _ Hat1 eq_refl). reflexivity. }
    split; [rewrite <- HT; exact Hat4|]. split; assumption.
  - (* a flag without a value *)
    apply andb_true_iff in Ha as [Hf Hnext].
    rewrite !append_assoc_s in Hat, Hat0.
    pose proof (suffixAt_app _ "-" _ Hat0) as Hat1.
    pose proof (suffixAt_app _ f _ Hat1) as Hat2.
    cbn [String.length] in Hat1, Hat2.
    assert (Hg : forall (p : nat) (y : MatchState),
               y = mkState p [None; Some (e + 1, e + 1 + String.length f)] ->
               e + 1 + String.length f <= p ->
               p <= String.length input ->
               Index.argOfMatch (mkResult i (endIndex y) (captures y) input)
               = [mkArg (Some f) None]).
    { intros p y -> Hp Hpl. cbn [endIndex captures].
      rewrite argOfMatch_at; [|unfold e in *; lia|exact Hpl].
      unfold group. cbn [matchCaptures matchInput nth truthy].
      rewrite (substring_at (e + 1) _ f _ Hat1 eq_refl). reflexivity. }
    destruct rest as [|b r].
    + exists (mkState (e + 1 + String.length f + 0)
                      [None; Some (e + 1, e + 1 + String.length f)]),
        EmptyString.
      rewrite Nat.add_0_r.
      split.
      { apply (token_flag sp f EmptyString);
          try assumption; try reflexivity.
        cbn [headIn]. rewrite Nat.add_0_r.
        apply (value_skip EmptyString); [exact Hat2|reflexivity|reflexivity]. }
      split; [cbn [endIndex]; unfold e; lia|].
      split.
      { apply (Hg (e + 1 + String.length f)); [reflexivity|lia|].
        apply suffixAt_length in Hat2. lia. }
      split; [exact Hat2|]. split; reflexivity.
    + destruct b as [[g|] vb]; [|discriminate Hnext].
      pose proof (suffixAt_app _ " " _ Hat2) as Hat3.
      cbn [String.length] in Hat3.
      exists (mkState (e + 1 + String.length f + 1)
                      [None; Some (e + 1, e + 1 + String.length f)]),
        EmptyString.
      split.
      { apply (token_flag sp f T);
          try assumption; try reflexivity.
        change (headIn (cls false sepCs) T) with true. cbv iota.
        apply (value_skip (render (mkArg (Some g) vb :: r)));
          [exact Hat3| |]; rewrite render_cons; destruct vb; reflexivity. }
      split; [cbn [endIndex]; unfold e; lia|].
      split.
      { apply (Hg (e + 1 + String.length f + 1)); [reflexivity|lia|].
        apply suffixAt_length in Hat3. lia. }
      split; [exact Hat3|]. split; [reflexivity|]. intros H. discriminate H.
  - (* a value without a flag *)
    destruct (value_take v T e [] Hat0 Ha HT4) as (y & Hy & Hend & H1 & Hval).
    pose proof (suffixAt_app _ _ _ Hat0) as Hat4. rewrite <- Hend in Hat4.
    assert (Hpos : 0 < String.length (renderValue v)).
    { unfold isValue in Ha. apply andb_true_iff in Ha as [Hne _].
      unfold renderValue. destruct (allChars (tokenClass 4) v).
      - destruct v; [discriminate Hne|cbn; lia].
      - cbn. lia. }
    exists y, sp'. split.
    { apply (token_positional sp (renderValue v ++ T));
        try assumption.
      - unfold isValue in Ha. apply andb_true_iff in Ha as [Hne _].
        unfold renderValue. destruct (allChars (tokenClass 4) v) eqn:Hb.
        + destruct v as [|ch v']; [discriminate Hne|].
          cbn [allChars] in Hb. apply andb_true_iff in Hb as [Hb _].
          apply (bare_char ch Hb).
        + reflexivity.
      - unfold isValue in Ha. apply andb_true_iff in Ha as [Hne _].
        unfold renderValue. destruct (allChars (tokenClass 4) v) eqn:Hb.
        + destruct v as [|ch v']; [discriminate Hne|].
          cbn [allChars] in Hb. apply andb_true_iff in Hb as [Hb _].
          apply (bare_char ch Hb).
        + reflexivity. }
    split; [rewrite Hend; unfold e; lia|].
    split.
    { rewrite argOfMatch_at;
        [|rewrite Hend; unfold e; lia
         |apply suffixAt_length in Hat4; lia].
      rewrite Hval. unfold group. cbn [matchCaptures matchInput].
      rewrite H1. reflexivity. }
    split; [rewrite <- HT; exact Hat4|]. split; assumption.
  - discriminate Ha.
Qed.

(** The matches from an index on, where the texts of [rest] stand: the
    tokens are [rest]; the empty match at the end of the input gives
    none. *)
Lemma tokens_from (rest : list Arg) :
  forall (i : nat) (sp : string) (fuel : nat),
    suffixAt input i (sp ++ render rest) ->
    allChars (cls false spaceCs) sp = true ->
    (rest = [] -> sp = EmptyString) ->
    writable rest = true ->
    String.length (sp ++ render rest) < fuel ->
    flat_map Index.argOfMatch (matchAllFrom fuel input Index.regex i)
    = rest.
Proof.
  induction rest as [|a rest IH]; intros i sp fuel Hat Hsp Hnil Hw Hfuel.
  - rewrite (Hnil eq_refl) in Hat. cbn in Hat.
    pose proof (suffixAt_length _ _ Hat) as Hlen. cbn in Hlen.
    destruct fuel as [|fuel]; [lia|]. cbn [matchAllFrom].
    assert (Hm : matchAt false input Index.regex i = Some (mkState i [])).
    { apply (token_positional EmptyString EmptyString);
        try reflexivity; [exact Hat|].
      cbn [String.length]. rewrite Nat.add_0_r.
      apply (value_skip EmptyString); [exact Hat|reflexivity|reflexivity]. }
    rewrite (exec_at i _ Hm) by lia.
    cbn [matchEnd matchIndex endIndex captures]. rewrite Nat.eqb_refl.
    cbn [flat_map]. unfold Index.argOfMatch at 1, whole.
    cbn [matchIndex matchEnd matchInput]. rewrite Nat.sub_diag.
    rewrite substring_none. cbn [String.eqb app].
    destruct fuel as [|fuel]; [reflexivity|]. cbn [matchAllFrom].
    unfold exec.
    replace (String.length input + 2 - S i) with 1 by lia.
    cbn [execFrom].
    rewrite (proj2 (Nat.ltb_lt (String.length input) (S i))) by lia.
    reflexivity.
  - destruct (token_step i sp a rest Hat Hsp Hw)
      as (y & sp' & Hm & Hlt & Harg & Hat' & Hsp' & Hnil').
    pose proof (suffixAt_length _ _ Hat) as Hlen.
    pose proof (suffixAt_length _ _ Hat') as Hlen'.
    destruct fuel as [|fuel]; [lia|]. cbn [matchAllFrom].
    rewrite (exec_at i y Hm) by lia.
    cbn [matchEnd matchIndex].
    rewrite (proj2 (Nat.eqb_neq (endIndex y) i)) by lia.
    cbn [flat_map]. rewrite Harg. cbn [app]. f_equal.
    apply (IH (endIndex y) sp'); try assumption.
    + cbn [writable] in Hw. apply andb_true_iff in Hw as [_ Hw]. exact Hw.
    + lia.
Qed.

End Tokens.

Lemma tokens_of_render (args : list Arg) :
  writable args = true -> Index.commandLineParser (render args) = args.
Proof.
  intros Hw. unfold Index.commandLineParser, RegExpEngine.matchAll.
  apply (tokens_from (render args) args 0 EmptyString).
  - exists EmptyString. split; reflexivity.
  - reflexivity.
  - reflexivity.
  - exact Hw.
  - cbn [append]. lia.
Qed.

(** The tokenizer reads back what was written: the line of a writable
    list of tokens is split into these tokens, in both files.  A flag
    keeps its name and takes the value written after it, a value
    between single quotes comes back without the quotes and with its
    spaces and dashes, and a flag without a value stays without one. *)
Theorem commandLineParser_reads_back :
  forall args : list Arg,
    writable args = true ->
    Index.commandLineParser (render args) = args
    /\ CliChat.commandLineParser (render args) = args.
Proof.
  intros args Hw. split; exact (tokens_of_render args Hw).
Qed.

Lemma commandLineParser_reads_back_example :
  writable [mkArg None (Some "send"); mkArg None (Some "John Doe");
            mkArg (Some "m") (Some "see you - at 5")] = true
  /\ Index.commandLineParser "send 'John Doe' -m 'see you - at 5'"
     = [mkArg None (Some "send"); mkArg None (Some "John Doe");
        mkArg (Some "m") (Some "see you - at 5")].
Proof.
  split; [reflexivity|].
  apply (proj1 (commandLineParser_reads_back
                  [mkArg None (Some "send"); mkArg None (Some "John Doe");
                   mkArg (Some "m") (Some "see you - at 5")] eq_refl)).
Defined.

Lemma isValue_truthy (v : string) :
  isValue v = true -> truthy (Some v) = true.
Proof.
  unfold isValue, truthy. intros H. apply andb_true_iff in H as [H _].
  exact H.
Qed.

(** A [send] line written from a target, a target type and a message
    is the guarded [sendMessage] of these three strings, in both files:
    they arrive unchanged, with their spaces and dashes, and nothing is
    written before. *)
Theorem send_line_delivers :
  forall (syntaxOk : string -> bool)
         (target kind content : string),
    isValue target = true -> isValue kind = true ->
    isValue content = true ->
    let line := render [mkArg None (Some "send");
                        mkArg None (Some target);
                        mkArg (Some "t") (Some kind);
                        mkArg (Some "m") (Some content)] in
    JsString.trim line = line ->
    Index.processCommand syntaxOk line
    = Alone
        (tryCatch (Index.sendMessage kind target content)
                  (fun err => log [VStr "Error sending message:";
                                   VExn err]))
    /\ CliChatConsole.processCommand line
       = tryCatch (CliChatConsole.sendMessage kind target content)
                  (fun err => log [VStr "Error sending message:";
                                   VExn err]).
Proof.
  intros syntaxOk target kind content Ht Hk Hc line Htrim.
  assert (Hw : writable [mkArg None (Some "send");
                         mkArg None (Some target);
                         mkArg (Some "t") (Some kind);
                         mkArg (Some "m") (Some content)] = true).
  { cbn [writable flag value]. rewrite Ht, Hk, Hc. reflexivity. }
  pose proof (tokens_of_render _ Hw) as Hargs. fold line in Hargs.
  pose proof (isValue_truthy _ Ht) as Tt.
  pose proof (isValue_truthy _ Hk) as Tk.
  pose proof (isValue_truthy _ Hc) as Tc.
  split.
  - unfold Index.processCommand. rewrite Htrim, Hargs.
    cbn [value Index.isStr String.eqb Ascii.eqb Bool.eqb].
    unfold Index.sendCommand.
    cbn [Index.sendLoop Index.sendStep Index.sendInit Index.flagIs flag
         value Index.target Index.targetType Index.message
         String.eqb Ascii.eqb Bool.eqb orb].
    change (truthy None) with false. cbn [negb andb].
    unfold orElse. rewrite Tt, Tk, Tc.
    cbn [Index.target Index.targetType Index.message app outs].
    rewrite Tt, Tc. reflexivity.
  - unfold CliChatConsole.processCommand.
    change (CliChat.commandLineParser (JsString.trim line))
      with (Index.commandLineParser (JsString.trim line)).
    rewrite Htrim, Hargs.
    cbn [value Index.isStr String.eqb Ascii.eqb Bool.eqb].
    unfold CliChatConsole.sendCommand.
    cbn [CliChatConsole.sendLoop CliChatConsole.sendStep Index.sendInit
         Index.flagIs flag value Index.target Index.targetType
         Index.message String.eqb Ascii.eqb Bool.eqb orb].
    change (truthy None) with false. cbn [negb andb].
    unfold orElse. rewrite Tt, Tk, Tc.
    cbn [Index.target Index.targetType Index.message app outs].
    rewrite Tt, Tc. reflexivity.
Qed.

Lemma send_line_delivers_example :
  (isValue "John Doe" = true /\ isValue "contact" = true
   /\ isValue "see you - at 5" = true
   /\ JsString.trim "send 'John Doe' -t contact -m 'see you - at 5'"
      = "send 'John Doe' -t contact -m 'see you - at 5'")
  /\ Index.processCommand acceptAll
       "send 'John Doe' -t contact -m 'see you - at 5'"
     = Alone
         (tryCatch (Index.sendMessage "contact" "John Doe" "see you - at 5")
                   (fun err => log [VStr "Error sending message:";
                                    VExn err])).
Proof.
  split; [repeat split; reflexivity|].
  apply (proj1 (send_line_delivers acceptAll "John Doe" "contact"
                  "see you - at 5" eq_refl eq_refl eq_refl eq_refl)).
Defined.

(** A [search] line written from a pattern, with or without a target
    type, is the guarded [search] of that pattern and that type: the
    pattern arrives unchanged, and without the flag the type is null. *)
Theorem search_line_delivers :
  forall (syntaxOk : string -> bool)
         (pattern kind : string),
    isValue pattern = true -> isValue kind = true ->
    let typed := render [mkArg None (Some "search");
                         mkArg None (Some pattern);
                         mkArg (Some "t") (Some kind)] in
    let untyped := render [mkArg None (Some "search");
                           mkArg None (Some pattern)] in
    JsString.trim typed = typed -> JsString.trim untyped = untyped ->
    Index.processCommand syntaxOk typed
    = Alone
        (tryCatch (Index.search syntaxOk pattern (Some kind))
                  (fun err => log [VStr "Error during search:"; VExn err]))
    /\ Index.processCommand syntaxOk untyped
       = Alone
           (tryCatch (Index.search syntaxOk pattern None)
                     (fun err => log [VStr "Error during search:";
                                      VExn err])).
Proof.
  intros syntaxOk pattern kind Hp Hk typed untyped Ht Hu.
  assert (Hw1 : writable [mkArg None (Some "search");
                          mkArg None (Some pattern);
                          mkArg (Some "t") (Some kind)] = true).
  { cbn [writable flag value]. rewrite Hp, Hk. reflexivity. }
  assert (Hw2 : writable [mkArg None (Some "search");
                          mkArg None (Some pattern)] = true).
  { cbn [writable flag value]. rewrite Hp. reflexivity. }
  pose proof (tokens_of_render _ Hw1) as H1. fold typed in H1.
  pose proof (tokens_of_render _ Hw2) as H2. fold untyped in H2.
  pose proof (isValue_truthy _ Hp) as Tp.
  pose proof (isValue_truthy _ Hk) as Tk.
  split.
  - unfold Index.processCommand. rewrite Ht, H1.
    cbn [value Index.isStr String.eqb Ascii.eqb Bool.eqb].
    unfold Index.searchCommand.
    cbn [Index.searchLoop Index.flagIs flag value
         String.eqb Ascii.eqb Bool.eqb orb].
    change (truthy None) with false. cbn [negb andb].
    rewrite Tk. unfold orElse. rewrite Tp. rewrite Tp. reflexivity.
  - unfold Index.processCommand. rewrite Hu, H2.
    cbn [value Index.isStr String.eqb Ascii.eqb Bool.eqb].
    unfold Index.searchCommand.
    cbn [Index.searchLoop Index.flagIs flag value
         String.eqb Ascii.eqb Bool.eqb orb].
    change (truthy None) with false. cbn [negb andb].
    unfold orElse. rewrite Tp. rewrite Tp. reflexivity.
Qed.

Lemma search_line_delivers_example :
  (isValue "/^bo.*b$/" = true /\ isValue "room" = true
   /\ JsString.trim "search /^bo.*b$/ -t room" = "search /^bo.*b$/ -t room"
   /\ JsString.trim "search /^bo.*b$/" = "search /^bo.*b$/")
  /\ Index.processCommand acceptAll "search /^bo.*b$/ -t room"
     = Alone
         (tryCatch (Index.search acceptAll "/^bo.*b$/" (Some "room"))
                   (fun err => log [VStr "Error during search:";
                                    VExn err])).
Proof.
  split; [repeat split; reflexivity|].
  apply (proj1 (search_line_delivers acceptAll "/^bo.*b$/" "room"
                  eq_refl eq_refl eq_refl eq_refl)).
Defined.
